(** * discordflow.utils: the audio-streaming control layer

    A shallow embedding of [src/discordflow/utils.py]: the PCM [Audio]
    buffer, the two stream transformers [size_limit] and [rate_limit], the
    asyncio helpers [BackgroundTask], [AsyncTimedIterator] and
    [CancellableAsyncGenerator], and the skill [Registry].  The
    standard-library calls the module makes ([audioop], [wave],
    [asyncio]) are modelled alongside.

    Python integers are [Z], [bytes] are [list byte], floats are binary64
    primitive floats, a raised exception is the [Raise] branch of [result],
    and an attribute or local variable that may hold [None] or be unbound is
    an [option]. *)

From Stdlib Require Import ZArith Lia Bool QArith Qround Floats.
From Stdlib Require Import Strings.Byte.
From stdpp Require Import base option list strings.

Open Scope Z_scope.

(** ** Exceptions and results *)

(** The exception classes the modelled code can raise or observe. *)
Inductive exn : Type :=
| ValueError
| TypeError
| ZeroDivisionError
| OverflowError
| NameError
| UnboundLocalError
| AttributeError
| RuntimeError
| InvalidStateError
| CancelledError
| TimeoutError
| StopAsyncIteration
| AudioopError
| WaveError
| StructError
| EOFError
| UserError (code : nat).

Definition exn_eqb (e1 e2 : exn) : bool :=
  match e1, e2 with
  | ValueError, ValueError | TypeError, TypeError
  | ZeroDivisionError, ZeroDivisionError | OverflowError, OverflowError
  | NameError, NameError | UnboundLocalError, UnboundLocalError
  | AttributeError, AttributeError | RuntimeError, RuntimeError
  | InvalidStateError, InvalidStateError
  | CancelledError, CancelledError | TimeoutError, TimeoutError
  | StopAsyncIteration, StopAsyncIteration
  | AudioopError, AudioopError | WaveError, WaveError
  | StructError, StructError | EOFError, EOFError => true
  | UserError n, UserError m => Nat.eqb n m
  | _, _ => false
  end.

(** [isinstance e cls] for exception classes: the only proper subclass
    relation among the classes above is [UnboundLocalError <: NameError]. *)
Definition isinstance (e cls : exn) : bool :=
  exn_eqb e cls ||
  match e, cls with
  | UnboundLocalError, NameError => true
  | _, _ => false
  end.

Inductive result (A : Type) : Type :=
| Ok (a : A)
| Raise (e : exn).
Arguments Ok {A} a.
Arguments Raise {A} e.

Definition rbind {A B} (r : result A) (k : A -> result B) : result B :=
  match r with
  | Ok a => k a
  | Raise e => Raise e
  end.

#[global] Instance result_ret : MRet result := @Ok.
#[global] Instance result_bind : MBind result :=
  fun A B k r => rbind r k.

(** ** Python built-ins used by the module *)

(** [a // b] on integers: floor division, [ZeroDivisionError] on [b = 0]. *)
Definition py_floordiv (a b : Z) : result Z :=
  if b =? 0 then Raise ZeroDivisionError else Ok (a / b).

(** The correctly rounded (to nearest, ties to even) binary64 quotient of
    two integers, as a [spec_float]: the quotient is computed with at least
    55 significant bits and a sticky bit, then rounded once. *)
Definition Z_quot_SF (a b : Z) : spec_float :=
  if a =? 0 then S754_zero (b <? 0)
  else
    let n := Z.abs a in
    let d := Z.abs b in
    let k := Z.max 0 (55 + Z.log2 d - Z.log2 n) in
    let q := (n * 2 ^ k) / d in
    let sticky := if (n * 2 ^ k) mod d =? 0 then 0 else 1 in
    let m := 2 * q + sticky in
    let m := if Bool.eqb (a <? 0) (b <? 0) then m else - m in
    binary_normalize 53 1024 m (- k - 1) false.

(** [a / b] on integers: true division to a float. *)
Definition py_truediv (a b : Z) : result float :=
  if b =? 0 then Raise ZeroDivisionError
  else
    let f := SF2Prim (Z_quot_SF a b) in
    if PrimFloat.is_infinity f then Raise OverflowError else Ok f.

(** [x and y] where [x] is [None] or an integer: [None] and [0] are falsy
    and are the value of the expression, otherwise the value is [y]. *)
Definition py_and (x : option Z) (y : Z -> Z) : option Z :=
  match x with
  | None => None
  | Some v => if v =? 0 then Some 0 else Some (y v)
  end.

(** One bound of a slice with step [None], clamped as [slice.indices] does:
    a negative bound counts from the end, and the result is clamped to
    [0 .. len]. *)
Definition slice_bound (len : Z) (dflt : Z) (i : option Z) : Z :=
  match i with
  | None => dflt
  | Some v =>
      if v <? 0 then Z.max 0 (v + len) else Z.min v len
  end.

(** [data[start:stop]] on a byte string. *)
Definition py_slice (data : list byte) (start stop : option Z) : list byte :=
  let len := Z.of_nat (length data) in
  let lo := slice_bound len 0 start in
  let hi := slice_bound len len stop in
  take (Z.to_nat (hi - lo)) (drop (Z.to_nat lo) data).

(** ** Little-endian integers in byte strings *)

Definition byte_to_Z (b : byte) : Z := Z.of_N (Byte.to_N b).

Definition byte_of_Z (z : Z) : byte :=
  default x00 (Byte.of_N (Z.to_N z)).

(** The unsigned value of a little-endian byte string. *)
Fixpoint le_decode (bs : list byte) : Z :=
  match bs with
  | [] => 0
  | b :: rest => byte_to_Z b + 256 * le_decode rest
  end.

(** The [n] low-order bytes of [v], least significant first. *)
Fixpoint le_encode (n : nat) (v : Z) : list byte :=
  match n with
  | O => []
  | S n' => byte_of_Z (v mod 256) :: le_encode n' (v / 256)
  end.

Fixpoint bytes_eqb (x y : list byte) : bool :=
  match x, y with
  | [], [] => true
  | a :: x', b :: y' => Byte.eqb a b && bytes_eqb x' y'
  | _, _ => false
  end.

(** ** The standard module [audioop] (CPython, little-endian host)

    Not part of the repository: [audioop.add] is modelled after the C
    implementation, on samples in the host's byte order. *)

Module audioop.

(** A raw sample of [w] bytes as a signed integer. *)
Definition getsample (w : nat) (bs : list byte) : Z :=
  let u := le_decode bs in
  if u <? 2 ^ (8 * Z.of_nat w - 1) then u else u - 2 ^ (8 * Z.of_nat w).

Definition setsample (w : nat) (v : Z) : list byte :=
  le_encode w (v mod 2 ^ (8 * Z.of_nat w)).

Definition maxval (w : nat) : Z := 2 ^ (8 * Z.of_nat w - 1) - 1.
Definition minval (w : nat) : Z := - 2 ^ (8 * Z.of_nat w - 1).

(** Saturation to the range of [w]-byte samples. *)
Definition clip (w : nat) (v : Z) : Z :=
  Z.max (minval w) (Z.min (maxval w) v).

Fixpoint add_samples (n w : nat) (d1 d2 : list byte) : list byte :=
  match n with
  | O => []
  | S n' =>
      setsample w (clip w (getsample w (take w d1) + getsample w (take w d2)))
        ++ add_samples n' w (drop w d1) (drop w d2)
  end.

(** The first [n] samples of [w] bytes of a fragment, as signed
    integers. *)
Fixpoint samples (n w : nat) (d : list byte) : list Z :=
  match n with
  | O => []
  | S n' => getsample w (take w d) :: samples n' w (drop w d)
  end.

(** [audioop.add(fragment1, fragment2, width)]. *)
Definition add (fragment1 fragment2 : list byte) (width : Z)
  : result (list byte) :=
  if (width <? - 2 ^ 31) || (2 ^ 31 <=? width) then Raise OverflowError
  else if (width <? 1) || (4 <? width) then Raise AudioopError
  else if negb (Z.of_nat (length fragment1) mod width =? 0)
       then Raise AudioopError
  else if negb (length fragment1 =? length fragment2)%nat
       then Raise AudioopError
  else Ok (add_samples (length fragment1 / Z.to_nat width) (Z.to_nat width)
             fragment1 fragment2).

(** [fbound]: a value brought into the sample range and rounded towards
    minus infinity.  The factors this module passes are 0.5, and samples
    have at most 32 bits: the products and sums below are exact in
    binary64, so that arithmetic on rationals gives what the C doubles
    give. *)
Definition fbound (val : Q) (minval maxval : Z) : Z :=
  if Qlt_le_dec (inject_Z maxval) val then maxval
  else if Qlt_le_dec val (inject_Z minval + 1)%Q then minval
  else Qfloor val.

Fixpoint tomono_samples (n w : nat) (lfactor rfactor : Q) (d : list byte)
  : list byte :=
  match n with
  | O => []
  | S n' =>
      let val1 := getsample w (take w d) in
      let val2 := getsample w (take w (drop w d)) in
      let val := (inject_Z val1 * lfactor + inject_Z val2 * rfactor)%Q in
      setsample w (fbound val (minval w) (maxval w))
        ++ tomono_samples n' w lfactor rfactor (drop (2 * w) d)
  end.

(** [audioop.tomono(fragment, width, lfactor, rfactor)]. *)
Definition tomono (fragment : list byte) (width : Z) (lfactor rfactor : Q)
  : result (list byte) :=
  if (width <? - 2 ^ 31) || (2 ^ 31 <=? width) then Raise OverflowError
  else if (width <? 1) || (4 <? width) then Raise AudioopError
  else if negb (Z.of_nat (length fragment) mod width =? 0)
       then Raise AudioopError
  else if Z.odd (Z.of_nat (length fragment) / width) then Raise AudioopError
  else Ok (tomono_samples (length fragment / (2 * Z.to_nat width))
             (Z.to_nat width) lfactor rfactor fragment).

Fixpoint tostereo_samples (n w : nat) (lfactor rfactor : Q) (d : list byte)
  : list byte :=
  match n with
  | O => []
  | S n' =>
      let val := inject_Z (getsample w (take w d)) in
      setsample w (fbound (val * lfactor)%Q (minval w) (maxval w))
        ++ setsample w (fbound (val * rfactor)%Q (minval w) (maxval w))
        ++ tostereo_samples n' w lfactor rfactor (drop w d)
  end.

(** [audioop.tostereo(fragment, width, lfactor, rfactor)], for a fragment
    whose double fits in memory. *)
Definition tostereo (fragment : list byte) (width : Z) (lfactor rfactor : Q)
  : result (list byte) :=
  if (width <? - 2 ^ 31) || (2 ^ 31 <=? width) then Raise OverflowError
  else if (width <? 1) || (4 <? width) then Raise AudioopError
  else if negb (Z.of_nat (length fragment) mod width =? 0)
       then Raise AudioopError
  else Ok (tostereo_samples (length fragment / Z.to_nat width)
             (Z.to_nat width) lfactor rfactor fragment).

End audioop.

(** ** The standard modules [struct], [io] and [wave] (CPython)

    Not part of the repository: the writer and the reader of the
    uncompressed PCM WAV container are modelled after [wave.py], on an
    in-memory file. *)

(** [struct.pack('<H', v)] and [struct.pack('<L', v)] for [n = 2, 4]. *)
Definition pack_uint (n : nat) (v : Z) : result (list byte) :=
  if (0 <=? v) && (v <? 256 ^ Z.of_nat n) then Ok (le_encode n v)
  else Raise StructError.

(** An [io.BytesIO]: its contents and its position. *)
Record BytesIO : Type := mkBytesIO {
  getvalue : list byte;
  tell : nat
}.

(** What a caller may hand to [io.BytesIO(...)]: a [bytes] object, or
    something that is not bytes-like, such as another [BytesIO]. *)
Inductive pyobj : Type :=
| PyBytes (b : list byte)
| PyBytesIO (f : BytesIO).

(** [io.BytesIO(initial_bytes)]: a file positioned at 0, or a
    [TypeError] when the argument is not bytes-like. *)
Definition io_BytesIO (initial_bytes : pyobj) : result BytesIO :=
  match initial_bytes with
  | PyBytes b => Ok (mkBytesIO b 0)
  | PyBytesIO _ => Raise TypeError
  end.

Module wave.

Definition RIFF : list byte := [x52; x49; x46; x46].
Definition WAVE : list byte := [x57; x41; x56; x45].
Definition fmt_ : list byte := [x66; x6d; x74; x20].
Definition data_ : list byte := [x64; x61; x74; x61].
Definition WAVE_FORMAT_PCM : Z := 1.

(** [Wave_write._write_header]: the 44 bytes up to and including the
    length of the data chunk. *)
Definition _write_header (nchannels sampwidth framerate datalength : Z)
  : result (list byte) :=
  riff_len ← pack_uint 4 (36 + datalength);
  fmt_len ← pack_uint 4 16;
  tag ← pack_uint 2 WAVE_FORMAT_PCM;
  nch ← pack_uint 2 nchannels;
  fr ← pack_uint 4 framerate;
  byte_rate ← pack_uint 4 (nchannels * framerate * sampwidth);
  block_align ← pack_uint 2 (nchannels * sampwidth);
  bits ← pack_uint 2 (sampwidth * 8);
  data_len ← pack_uint 4 datalength;
  Ok (RIFF ++ riff_len ++ WAVE ++ fmt_ ++ fmt_len ++ tag ++ nch ++ fr
        ++ byte_rate ++ block_align ++ bits ++ data_ ++ data_len).

(** [Wave_write._patchheader]: the two length fields, at offsets 4 and
    40, are overwritten with the number of bytes written. *)
Definition _patchheader (header : list byte) (datawritten : Z)
  : result (list byte) :=
  riff_len ← pack_uint 4 (36 + datawritten);
  data_len ← pack_uint 4 datawritten;
  Ok (take 4 header ++ riff_len ++ take 32 (drop 8 header) ++ data_len).

(** A [Wave_write] on a fresh in-memory file: [setnchannels],
    [setsampwidth], [setframerate], one [writeframes], [close]; the
    result is the contents of the file. *)
Definition write (nchannels sampwidth framerate : Z) (frames : list byte)
  : result (list byte) :=
  if nchannels <? 1 then Raise WaveError
  else if (sampwidth <? 1) || (4 <? sampwidth) then Raise WaveError
  else if framerate <=? 0 then Raise WaveError
  else
    let datawritten := Z.of_nat (length frames) in
    let nframes := datawritten / (sampwidth * nchannels) in
    let datalength := nframes * nchannels * sampwidth in
    header ← _write_header nchannels sampwidth framerate datalength;
    header ← (if datalength =? datawritten then Ok header
              else _patchheader header datawritten);
    Ok (header ++ frames).

(** [Chunk.__init__]: a four-byte name and a little-endian length;
    [None] stands for the [EOFError] of a truncated header. *)
Definition chunk_header (bs : list byte)
  : option (list byte * Z * list byte) :=
  if (length bs <? 8)%nat then None
  else Some (take 4 bs, le_decode (take 4 (drop 4 bs)), drop 8 bs).

(** [Wave_read._read_fmt_chunk] on the body of a ['fmt '] chunk: the
    channels, sample width and frame rate of PCM data. *)
Definition _read_fmt_chunk (body : list byte) : result (Z * Z * Z) :=
  if (length body <? 14)%nat then Raise EOFError
  else
    let wFormatTag := le_decode (take 2 body) in
    let nchannels := le_decode (take 2 (drop 2 body)) in
    let framerate := le_decode (take 4 (drop 4 body)) in
    if wFormatTag =? WAVE_FORMAT_PCM then
      if (length body <? 16)%nat then Raise EOFError
      else
        let sampwidth := (le_decode (take 2 (drop 14 body)) + 7) / 8 in
        if sampwidth =? 0 then Raise WaveError
        else if nchannels =? 0 then Raise WaveError
        else Ok (nchannels, sampwidth, framerate)
    else Raise WaveError.

(** The chunk loop of [Wave_read.initfp] followed by the reads of
    [Audio.load]: chunks are skipped (to an even offset) until the
    ['data'] chunk, of which [readframes(nframes)] returns at most
    [nframes] frames and at most the length of the chunk.  The result is
    [(frames, nchannels, sampwidth, framerate)].  Every turn consumes the
    eight bytes of a chunk header, so a [fuel] above the length of [bs]
    never runs out. *)
Fixpoint read_chunks (fuel : nat) (fmt : option (Z * Z * Z))
    (nframes : Z) (bs : list byte) : result (list byte * Z * Z * Z) :=
  match fuel with
  | O => Raise WaveError
  | S fuel' =>
      match chunk_header bs with
      | None => Raise WaveError
      | Some (name, size, rest) =>
          let body := take (Z.to_nat size) rest in
          let next := drop (Z.to_nat (size + size mod 2)) rest in
          if bytes_eqb name fmt_ then
            f ← _read_fmt_chunk body;
            read_chunks fuel' (Some f) nframes next
          else if bytes_eqb name data_ then
            match fmt with
            | None => Raise WaveError
            | Some (nchannels, sampwidth, framerate) =>
                let framesize := nchannels * sampwidth in
                let wanted := Z.min (nframes * framesize) size in
                Ok (take (Z.to_nat wanted) rest,
                    nchannels, sampwidth, framerate)
            end
          else read_chunks fuel' fmt nframes next
      end
  end.

(** [wave.open(fp, 'rb')] on the bytes at and after the position of
    [fp], then [readframes(nframes)] and the three getters. *)
Definition read (bs : list byte) (nframes : Z)
  : result (list byte * Z * Z * Z) :=
  match chunk_header bs with
  | None => Raise EOFError
  | Some (name, size, rest) =>
      if negb (bytes_eqb name RIFF) then Raise WaveError
      else
        let riff := take (Z.to_nat size) rest in
        if negb (bytes_eqb (take 4 riff) WAVE) then Raise WaveError
        else read_chunks (S (length riff)) None nframes (drop 4 riff)
  end.

End wave.

(** ** The PCM audio buffer (class [Audio]) *)

Record Audio : Type := mkAudio {
  channels : Z;
  width : Z;
  rate : Z;
  data : list byte
}.

Definition same_format (a b : Audio) : Prop :=
  channels a = channels b /\ width a = width b /\ rate a = rate b.

Module AudioM.

(** [Audio.clone]: same format, different data. *)
Definition clone (self : Audio) (d : list byte) : Audio :=
  mkAudio (channels self) (width self) (rate self) d.

(** [Audio.framewidth]. *)
Definition framewidth (self : Audio) : Z := channels self * width self.

(** [Audio.__add__]. *)
Definition __add__ (self other : Audio) : result Audio :=
  if negb (channels other =? channels self)
     || negb (width other =? width self)
     || negb (rate other =? rate self)
  then Raise ValueError
  else Ok (clone self (data self ++ data other)).

(** [Audio.combine]. *)
Definition combine (self other : Audio) : result Audio :=
  d ← audioop.add (data self) (data other) (width self);
  Ok (clone self d).

(** [Audio.load] on a file object. *)
Definition load (fp : BytesIO) : result Audio :=
  '(frames, nchannels, sampwidth, framerate) ←
    wave.read (drop (tell fp) (getvalue fp)) (2 ^ 32);
  Ok (mkAudio nchannels sampwidth framerate frames).

(** [Audio.from_wav]: [io.BytesIO(wav)] takes a bytes-like object. *)
Definition from_wav (wav : pyobj) : result Audio :=
  fp ← io_BytesIO wav;
  load fp.

(** [Audio.to_wav]: the file object, rewound. *)
Definition to_wav (self : Audio) : result BytesIO :=
  wav ← wave.write (channels self) (width self) (rate self) (data self);
  Ok (mkBytesIO wav 0).

(** [Audio.__len__]: length in frames. *)
Definition __len__ (self : Audio) : result Z :=
  py_floordiv (Z.of_nat (length (data self))) (framewidth self).

(** The built-in [len(audio)]: calls [__len__] and rejects a negative
    answer with [ValueError]. *)
Definition len (self : Audio) : result Z :=
  n ← __len__ self;
  if n <? 0 then Raise ValueError else Ok n.

(** [Audio.__bool__]. *)
Definition __bool__ (self : Audio) : result bool :=
  n ← len self; Ok (0 <? n).

(** [Audio.duration]: seconds, as a float. *)
Definition duration (self : Audio) : result float :=
  n ← len self; py_truediv n (rate self).

(** [Audio.__getitem__] on a slice whose step is [None]. *)
Definition __getitem__ (self : Audio) (start stop : option Z) : Audio :=
  let start' := py_and start (fun s => s * framewidth self) in
  let stop' := py_and stop (fun s => s * framewidth self) in
  clone self (py_slice (data self) start' stop').

(** [Audio.silence]: [frames] frames of zero bytes (none when [frames] is
    negative) in the format of [self]. *)
Definition silence (self : Audio) (frames : Z) : Audio :=
  clone self (replicate (Z.to_nat (frames * framewidth self)) x00).

(** [Audio.clear]: the buffer after [self.data = b'']. *)
Definition clear (self : Audio) : Audio := clone self [].

(** [Audio.to_mono]. *)
Definition to_mono (self : Audio) : result Audio :=
  if channels self =? 1 then Ok self
  else if channels self =? 2 then
    d ← audioop.tomono (data self) (width self) (1 # 2) (1 # 2);
    Ok (mkAudio 1 (width self) (rate self) d)
  else Raise ValueError.

(** [Audio.to_stereo]. *)
Definition to_stereo (self : Audio) : result Audio :=
  if channels self =? 2 then Ok self
  else if channels self =? 1 then
    d ← audioop.tostereo (data self) (width self) (1 # 2) (1 # 2);
    Ok (mkAudio 2 (width self) (rate self) d)
  else Raise ValueError.

End AudioM.

(** The data-model invariant: a positive frame width that divides the
    number of data bytes. *)
Definition well_framed (a : Audio) : Prop :=
  0 < channels a /\ 0 < width a /\
  (AudioM.framewidth a | Z.of_nat (length (data a))).

(** The means, rounded down, of the two samples of each stereo frame. *)
Fixpoint frame_means (l : list Z) : list Z :=
  match l with
  | x :: y :: rest => (x + y) / 2 :: frame_means rest
  | _ => []
  end.

(** One-byte mono samples 3 and -3. *)
Definition mono_3 : Audio := mkAudio 1 1 8000 [x03; xfd].

(** ** Asynchronous generators over a finite input

    A generator run to exhaustion over a finite upstream sequence is the
    list of the values it yielded, in order, with the way it ended: [Ok]
    when it returned, [Raise e] when [e] escaped its body. *)

Definition Gen (A : Type) : Type := (list Audio * result A)%type.

(** Truth value of a variable holding [None] or an [Audio]. *)
Definition truthy (buf : option Audio) : result bool :=
  match buf with
  | None => Ok false
  | Some b => AudioM.__bool__ b
  end.

(** *** [size_limit] *)

(** The inner [while len(buf) >= size] loop: yields [buf[:size]] and keeps
    [buf[size:]]; returns the buffer left when the loop exits.  [None] when
    the fuel runs out (the loop does not end for [size <= 0]). *)
Fixpoint size_limit_while (fuel : nat) (buf : Audio) (size : Z)
  : option (Gen Audio) :=
  match fuel with
  | O => None
  | S fuel' =>
      match AudioM.len buf with
      | Raise e => Some ([], Raise e)
      | Ok n =>
          if size <=? n then
            match size_limit_while fuel'
                    (AudioM.__getitem__ buf (Some size) None) size with
            | None => None
            | Some (ys, r) =>
                Some (AudioM.__getitem__ buf None (Some size) :: ys, r)
            end
          else Some ([], Ok buf)
      end
  end.

(** The [async for packet in audio_iter] loop, with [buf] the local
    variable ([None] at first). *)
Fixpoint size_limit_for (fuel : nat) (buf : option Audio)
    (audio_iter : list Audio) (size : Z) : option (Gen (option Audio)) :=
  match audio_iter with
  | [] => Some ([], Ok buf)
  | packet :: rest =>
      let joined : result Audio :=
        t ← truthy buf;
        if t : bool then
          match buf with
          | Some b => AudioM.__add__ b packet
          | None => Ok packet
          end
        else Ok packet in
      match joined with
      | Raise e => Some ([], Raise e)
      | Ok b =>
          match size_limit_while fuel b size with
          | None => None
          | Some (ys, Raise e) => Some (ys, Raise e)
          | Some (ys, Ok b') =>
              match size_limit_for fuel (Some b') rest size with
              | None => None
              | Some (zs, r) => Some (ys ++ zs, r)
              end
          end
      end
  end.

Definition size_limit (fuel : nat) (audio_iter : list Audio) (size : Z)
  : option (Gen unit) :=
  match size_limit_for fuel None audio_iter size with
  | None => None
  | Some (ys, Raise e) => Some (ys, Raise e)
  | Some (ys, Ok buf) =>
      match truthy buf, buf with
      | Raise e, _ => Some (ys, Raise e)
      | Ok true, Some b => Some (ys ++ [b], Ok tt)
      | Ok _, _ => Some (ys, Ok tt)
      end
  end.

(** Bytes and frames of an input sequence. *)
Definition all_data (l : list Audio) : list byte := concat (map data l).

Fixpoint total_frames (l : list Audio) : Z :=
  match l with
  | [] => 0
  | p :: l' =>
      Z.of_nat (length (data p)) / AudioM.framewidth p + total_frames l'
  end.

(** *** [rate_limit] *)

(** What the pacer does, in order: it yields a packet or sleeps. *)
Inductive event : Type :=
| Yield (p : Audio)
| Sleep (delay : float).

Definition yields (evs : list event) : list Audio :=
  omap (fun ev => match ev with Yield p => Some p | Sleep _ => None end) evs.

(** The loop variable after a [for] loop over [l]: the last element, or
    what it held before when [l] is empty. *)
Definition last_default (packet : option Audio) (l : list Audio)
  : option Audio :=
  match last l with
  | Some p => Some p
  | None => packet
  end.

(** The [async for packet in audio_iter] loop.  [clock k] is the value of
    the [k]-th call of [time.perf_counter()], [reads] counts the calls
    made so far, [packet] is the loop variable ([None] while unbound); the
    result is the loop variable after the loop. *)
Fixpoint rate_limit_for (clock : nat -> float) (reads : nat)
    (when_to_wake : float) (packet : option Audio) (audio_iter : list Audio)
  : list event * result (option Audio) :=
  match audio_iter with
  | [] => ([], Ok packet)
  | p :: rest =>
      match AudioM.duration p with
      | Raise e => ([Yield p], Raise e)
      | Ok d =>
          let when_to_wake := (when_to_wake + d)%float in
          let to_sleep := (when_to_wake - clock reads)%float in
          let '(evs, r) :=
            rate_limit_for clock (S reads) when_to_wake (Some p) rest in
          (Yield p :: Sleep to_sleep :: evs, r)
      end
  end.

Definition rate_limit (clock : nat -> float) (audio_iter : list Audio)
  : list event * result unit :=
  let when_to_wake := clock 0%nat in
  match rate_limit_for clock 1 when_to_wake None audio_iter with
  | (evs, Raise e) => (evs, Raise e)
  | (evs, Ok None) => (evs, Raise UnboundLocalError)
  | (evs, Ok (Some packet)) =>
      match AudioM.__bool__ packet with
      | Raise e => (evs, Raise e)
      | Ok true => (evs ++ [Yield packet], Ok tt)
      | Ok false => (evs, Ok tt)
      end
  end.

(** The events of a pacer that yields each packet and then sleeps for the
    delay of the same position. *)
Fixpoint paced (packets : list Audio) (delays : list float) : list event :=
  match packets, delays with
  | p :: packets, d :: delays => Yield p :: Sleep d :: paced packets delays
  | _, _ => []
  end.

(** ** The standard module [asyncio] (CPython): tasks on one event loop

    Not part of the repository.  Time is counted in ticks of the loop's
    clock.  A coroutine is described by what can be observed of it from
    outside: how long it runs when left alone, how it ends then, and how it
    ends when [CancelledError] is thrown into it. *)

(** The Python values the modelled coroutines return. *)
Inductive value : Type :=
| VNone
| VInt (n : Z)
| VAudio (a : Audio).

Record coro : Type := mkCoro {
  co_time : option nat;         (* ticks until it ends; [None]: it never does *)
  co_result : result value;     (* how it ends when left to run *)
  co_cancelled : result value   (* how it ends once cancelled *)
}.

(** An [asyncio.Task].  A task that ended cancelled has the outcome
    [Raise CancelledError]. *)
Record task : Type := mkTask {
  t_coro : coro;
  t_left : option nat;                   (* ticks still needed *)
  t_must_cancel : bool;                  (* [cancel()] was requested *)
  t_outcome : option (result value)      (* [Some] once the task is done *)
}.

(** The event loop: its tasks, named by their position. *)
Abbreviation loop := (list task).

Module asyncio.

(** [asyncio.create_task(coro)]. *)
Definition create_task (c : coro) (l : loop) : nat * loop :=
  (length l, l ++ [mkTask c (co_time c) false None]).

(** [task.done()]. *)
Definition done (t : nat) (l : loop) : bool :=
  match l !! t with
  | Some tk => bool_decide (is_Some (t_outcome tk))
  | None => false
  end.

(** [task.result()]. *)
Definition task_result (t : nat) (l : loop) : result value :=
  match l !! t with
  | Some (mkTask _ _ _ (Some r)) => r
  | _ => Raise InvalidStateError
  end.

(** [task.cancel()]: a request, granted unless the task is already done. *)
Definition cancel (t : nat) (l : loop) : bool * loop :=
  match l !! t with
  | Some (mkTask c rest _ None) => (true, <[t := mkTask c rest true None]> l)
  | _ => (false, l)
  end.

(** One task while the loop runs for [d] ticks: a requested cancellation
    is thrown into the coroutine at its next step, otherwise the coroutine
    ends when its time is up. *)
Definition task_run (d : nat) (tk : task) : task :=
  match tk with
  | mkTask c rest must_cancel None =>
      if must_cancel then mkTask c rest must_cancel (Some (co_cancelled c))
      else
        match rest with
        | Some n =>
            if (n <=? d)%nat
            then mkTask c (Some 0%nat) false (Some (co_result c))
            else mkTask c (Some (n - d)%nat) false None
        | None => tk
        end
  | _ => tk
  end.

(** The loop runs for [d] ticks. *)
Definition run (d : nat) (l : loop) : loop := map (task_run d) l.

(** The ticks after which a pending task is done: none when a
    cancellation is on its way, [None] when it never ends. *)
Definition time_needed (tk : task) : option nat :=
  if t_must_cancel tk then Some 0%nat else t_left tk.

(** [await task] in a coroutine that nobody cancels: the loop runs until
    the task is done, and the task's outcome is the value or the exception
    of the [await].  [None] when the task never ends. *)
Definition await (t : nat) (l : loop) : option (result value * loop) :=
  tk ← l !! t;
  match t_outcome tk with
  | Some r => Some (r, l)
  | None =>
      d ← time_needed tk;
      let l' := run d l in
      tk' ← l' !! t;
      r ← t_outcome tk';
      Some (r, l')
  end.

(** [with suppress(asyncio.CancelledError): await ...], as the last
    statement of a function: the value of the [await] is dropped and a
    [CancelledError] ends the block quietly. *)
Definition suppress_cancelled (r : result value) : result value :=
  match r with
  | Ok _ => Ok VNone
  | Raise e => if isinstance e CancelledError then Ok VNone else Raise e
  end.

(** [await asyncio.wait_for(asyncio.shield(task), timeout)]: the outcome
    of the task when it is done, or done before [timeout] ticks have
    passed; otherwise the loop has run for [timeout] ticks, the task is
    left alone (the shield takes the cancellation) and [TimeoutError] is
    raised.  [timeout = None] waits without limit. *)
Definition wait_for_shield (t : nat) (timeout : option nat) (l : loop)
  : option (result value * loop) :=
  match timeout with
  | None => await t l
  | Some d =>
      tk ← l !! t;
      match t_outcome tk, time_needed tk with
      | Some r, _ => Some (r, l)
      | None, Some n =>
          if (n <? d)%nat then await t l
          else Some (Raise TimeoutError, run d l)
      | None, None => Some (Raise TimeoutError, run d l)
      end
  end.

End asyncio.

(** ** [BackgroundTask] *)

Record BackgroundTask : Type := mkBackgroundTask {
  bt_task : option nat     (* [self.task]: [None] or a task *)
}.

Module BackgroundTaskM.

(** [BackgroundTask.wrap(coro)]: the coroutine that awaits [coro], lets
    its exception through (after logging it, which is not modelled) and
    returns [None]. *)
Definition wrap (c : coro) : coro :=
  let returns_None (r : result value) : result value :=
    match r with
    | Ok _ => Ok VNone
    | Raise e => Raise e
    end in
  mkCoro (co_time c) (returns_None (co_result c))
         (returns_None (co_cancelled c)).

(** [BackgroundTask.start]. *)
Definition start (self : BackgroundTask) (c : coro) (l : loop)
  : result unit * BackgroundTask * loop :=
  match bt_task self with
  | Some _ => (Raise RuntimeError, self, l)
  | None =>
      let '(t, l) := asyncio.create_task (wrap c) l in
      (Ok tt, mkBackgroundTask (Some t), l)
  end.

(** [BackgroundTask.stop]. *)
Definition stop (self : BackgroundTask) (l : loop)
  : option (result value * BackgroundTask * loop) :=
  let task := bt_task self in
  let self := mkBackgroundTask None in
  match task with
  | None => Some (Raise AttributeError, self, l)
  | Some t =>
      if asyncio.done t l then Some (asyncio.task_result t l, self, l)
      else
        let '(_, l) := asyncio.cancel t l in
        '(r, l) ← asyncio.await t l;
        Some (asyncio.suppress_cancelled r, self, l)
  end.

End BackgroundTaskM.



(** ** Asynchronous iterators

    The wrapped asynchronous iterator is the list of the items it has
    still to produce, each with the ticks its fetch takes.  Its
    [__anext__()] is a coroutine that produces the first of them, or
    raises [StopAsyncIteration] when none is left. *)

Abbreviation aiterator := (list (nat * value)).

Definition iterator_anext (it : aiterator) : coro * aiterator :=
  match it with
  | [] =>
      (mkCoro (Some 0%nat) (Raise StopAsyncIteration) (Raise CancelledError),
       [])
  | (n, v) :: rest =>
      (mkCoro (Some n) (Ok v) (Raise CancelledError), rest)
  end.

(** ** [AsyncTimedIterator] *)

Record AsyncTimedIterator : Type := mkAsyncTimedIterator {
  _iterator : aiterator;
  timeout : option nat;        (* [None]: wait without limit *)
  _sentinel : value;
  ati_task : option nat        (* [self.task] *)
}.

(** What [__anext__] returned: a fetched element or the sentinel. *)
Inductive advanced : Type :=
| Fetched (v : value)
| Sentinel (s : value).

(** The Python value of the call. *)
Definition advanced_value (a : advanced) : value :=
  match a with
  | Fetched v => v
  | Sentinel s => s
  end.



Module AsyncTimedIteratorM.

(** [AsyncTimedIterator.__init__] followed by [__aiter__]. *)
Definition __init__ (iterable : aiterator) (timeout : option nat)
    (sentinel : value) : AsyncTimedIterator :=
  mkAsyncTimedIterator iterable timeout sentinel None.

(** The [try] statement of [__anext__], [self.task] being [None] by
    then: wait for [task] under the shield, at most [self.timeout]. *)
Definition anext_wait (self : AsyncTimedIterator) (task : nat) (l : loop)
  : option (result advanced * AsyncTimedIterator * loop) :=
  '(r, l) ← asyncio.wait_for_shield task (timeout self) l;
  match r with
  | Ok v => Some (Ok (Fetched v), self, l)
  | Raise e =>
      if isinstance e TimeoutError then
        Some (Ok (Sentinel (_sentinel self)),
              mkAsyncTimedIterator (_iterator self) (timeout self)
                (_sentinel self) (Some task),
              l)
      else Some (Raise e, self, l)
  end.

(** [AsyncTimedIterator.__anext__]: the stored task, or else a new fetch
    of the wrapped iterator. *)
Definition __anext__ (self : AsyncTimedIterator) (l : loop)
  : option (result advanced * AsyncTimedIterator * loop) :=
  let '(task, it, l) :=
    match ati_task self with
    | Some t => (t, _iterator self, l)
    | None =>
        let '(c, it) := iterator_anext (_iterator self) in
        let '(t, l) := asyncio.create_task c l in
        (t, it, l)
    end in
  anext_wait (mkAsyncTimedIterator it (timeout self) (_sentinel self) None)
    task l.

(** [async for x in self] run to the end: what the calls of [__anext__]
    returned, and how the loop ended. *)
Fixpoint consume (fuel : nat) (self : AsyncTimedIterator) (l : loop)
  : option (list advanced * result unit * AsyncTimedIterator * loop) :=
  match fuel with
  | O => None
  | S fuel' =>
      match __anext__ self l with
      | None => None
      | Some (Ok a, self, l) =>
          '(outs, r, self, l) ← consume fuel' self l;
          Some (a :: outs, r, self, l)
      | Some (Raise e, self, l) =>
          if isinstance e StopAsyncIteration then Some ([], Ok tt, self, l)
          else Some ([], Raise e, self, l)
      end
  end.


End AsyncTimedIteratorM.

(** *** States of an [AsyncTimedIterator] on a loop *)


(** The element a fetch is about to deliver, if any. *)
Definition coro_item (c : coro) : list value :=
  match co_result c with
  | Ok v => [v]
  | Raise _ => []
  end.

(** The elements still owed to the consumer: the one of the stored fetch,
    then those the wrapped iterator has not been asked for. *)
Definition ati_remaining (self : AsyncTimedIterator) (l : loop)
  : list value :=
  match ati_task self with
  | None => map snd (_iterator self)
  | Some t =>
      match l !! t with
      | Some tk => coro_item (t_coro tk) ++ map snd (_iterator self)
      | None => map snd (_iterator self)
      end
  end.


(** A timeout that lets time pass. *)
Definition patient (timeout : option nat) : Prop :=
  match timeout with
  | Some d => (0 < d)%nat
  | None => True
  end.



(** The calls that the sentinel answers while a fetch that needs [n]
    ticks is under way and the consumer does nothing but call. *)
Definition sentinels (timeout : option nat) (n : nat) : nat :=
  match timeout with
  | Some d => (n / d)%nat
  | None => 0%nat
  end.

(** What such a consumer is answered for a whole sequence of items. *)
Definition ati_schedule (timeout : option nat) (sentinel : value)
    (items : aiterator) : list advanced :=
  flat_map (fun item =>
              replicate (sentinels timeout (fst item)) (Sentinel sentinel)
                ++ [Fetched (snd item)]) items.

(** ** [CancellableAsyncGenerator] *)

Record CancellableAsyncGenerator : Type := mkCancellableAsyncGenerator {
  gen : option aiterator;          (* [self.gen] *)
  cag_task : option (option nat)   (* [self.task]; [None]: never assigned *)
}.

Module CancellableAsyncGeneratorM.

(** [CancellableAsyncGenerator.__init__]: it assigns [self.gen] only. *)
Definition __init__ (g : aiterator) : CancellableAsyncGenerator :=
  mkCancellableAsyncGenerator (Some g) None.

(** [CancellableAsyncGenerator.aclose]. *)
Definition aclose (self : CancellableAsyncGenerator) (l : loop)
  : option (result value * CancellableAsyncGenerator * loop) :=
  match gen self with
  | None => Some (Ok VNone, self, l)
  | Some g =>
      match cag_task self with
      | None => Some (Raise AttributeError, self, l)
      | Some stored =>
          let '(task, l) :=
            match stored with
            | Some t => (t, l)
            | None => asyncio.create_task (fst (iterator_anext g)) l
            end in
          let '(_, l) := asyncio.cancel task l in
          let self := mkCancellableAsyncGenerator None (Some None) in
          '(r, l) ← asyncio.await task l;
          Some (asyncio.suppress_cancelled r, self, l)
      end
  end.

(** [__anext__] up to its [await self.task]: the task it waits for, or
    the [StopAsyncIteration] of a closed wrapper. *)
Definition anext_begin (self : CancellableAsyncGenerator) (l : loop)
  : result nat * CancellableAsyncGenerator * loop :=
  match gen self with
  | Some g =>
      let '(c, g) := iterator_anext g in
      let '(t, l) := asyncio.create_task c l in
      (Ok t, mkCancellableAsyncGenerator (Some g) (Some (Some t)), l)
  | None => (Raise StopAsyncIteration, self, l)
  end.

(** [__anext__] from the outcome [r] of that [await] on. *)
Definition anext_end (self : CancellableAsyncGenerator) (r : result value)
  : result value * CancellableAsyncGenerator :=
  let r' :=
    match r with
    | Ok v => Ok v
    | Raise e =>
        if isinstance e CancelledError then
          match gen self with
          | None => Raise StopAsyncIteration
          | Some _ => Raise e
          end
        else Raise e
    end in
  (r', mkCancellableAsyncGenerator (gen self) (Some None)).

(** [CancellableAsyncGenerator.__anext__] with nothing else running in
    between. *)
Definition __anext__ (self : CancellableAsyncGenerator) (l : loop)
  : option (result value * CancellableAsyncGenerator * loop) :=
  match anext_begin self l with
  | (Ok t, self, l) =>
      '(r, l) ← asyncio.await t l;
      let '(r, self) := anext_end self r in
      Some (r, self, l)
  | (Raise e, self, l) => Some (Raise e, self, l)
  end.

(** [async for x in self] run to the end: the items received, and how
    the loop ended. *)
Fixpoint consume (fuel : nat) (self : CancellableAsyncGenerator) (l : loop)
  : option (list value * result unit * CancellableAsyncGenerator * loop) :=
  match fuel with
  | O => None
  | S fuel' =>
      match __anext__ self l with
      | None => None
      | Some (Ok v, self, l) =>
          '(outs, r, self, l) ← consume fuel' self l;
          Some (v :: outs, r, self, l)
      | Some (Raise e, self, l) =>
          if isinstance e StopAsyncIteration then Some ([], Ok tt, self, l)
          else Some ([], Raise e, self, l)
      end
  end.

(** [k] calls of [__anext__] in a row: what each returned or raised. *)
Fixpoint advance (k : nat) (self : CancellableAsyncGenerator) (l : loop)
  : option (list (result value) * CancellableAsyncGenerator * loop) :=
  match k with
  | O => Some ([], self, l)
  | S k' =>
      '(r, self, l) ← __anext__ self l;
      '(rs, self, l) ← advance k' self l;
      Some (r :: rs, self, l)
  end.

End CancellableAsyncGeneratorM.

(** ** [Registry]

    A [dict] is the list of its items in insertion order, no key twice.
    Skill functions and initializers are callables of the caller: of a
    call, the model keeps that it took place (in a log) and whether it
    raised. *)

Section dict.
Context {K V : Type} `{EqDecision K}.

(** [d[k]], with [None] for [KeyError]; also [k in d]. *)
Fixpoint dict_get (k : K) (d : list (K * V)) : option V :=
  match d with
  | [] => None
  | (k', v) :: d' => if decide (k = k') then Some v else dict_get k d'
  end.

(** [d[k] = v]: a key of [d] keeps its place. *)
Fixpoint dict_set (k : K) (v : V) (d : list (K * V)) : list (K * V) :=
  match d with
  | [] => [(k, v)]
  | (k', v') :: d' =>
      if decide (k = k') then (k', v) :: d'
      else (k', v') :: dict_set k v d'
  end.

(** [del d[k]], for a key of [d]. *)
Fixpoint dict_del (k : K) (d : list (K * V)) : list (K * V) :=
  match d with
  | [] => []
  | (k', v') :: d' =>
      if decide (k = k') then d' else (k', v') :: dict_del k d'
  end.
End dict.

(** A skill function, with its [__name__], and an initializer. *)
Record func : Type := mkFunc {
  __name__ : string;
  fn_id : nat;
  fn_raises : option exn
}.

Record initializer : Type := mkInitializer {
  init_id : nat;
  init_raises : option exn
}.

Record Registry : Type := mkRegistry {
  skills : list (string * func);
  initializers : list (option string * initializer)
}.

(** What the methods of a registry do to the world around, in order. *)
Inductive registry_event : Type :=
| Initialized (id : nat)      (* an initializer was called *)
| Ran (id : nat)              (* a skill function ran, with its state *)
| Said.                       (* [ctx.say] told the user there is no such skill *)

(** How a method ends: it returns, or a [dict] raises [KeyError], or the
    exception of a callable goes through. *)
Inductive outcome : Type :=
| Returned
| KeyError (key : option string)
| Raised (e : exn).

Definition call_outcome (raises : option exn) : outcome :=
  match raises with
  | Some e => Raised e
  | None => Returned
  end.

Module RegistryM.

(** [Registry.__init__]. *)
Definition __init__ : Registry := mkRegistry [] [].

(** [Registry.skill(name, init)] up to its [return decorator]: a truthy
    [init] is filed under [name] as it was given, [None] included. *)
Definition skill (self : Registry) (name : option string)
    (init : option initializer) : Registry :=
  match init with
  | Some i => mkRegistry (skills self) (dict_set name i (initializers self))
  | None => self
  end.

(** The decorator that [skill] returns, applied to [f]: the skill is filed
    under [name or f.__name__]. *)
Definition decorator (self : Registry) (name : option string) (f : func)
  : Registry :=
  let skill_name :=
    match name with
    | Some s => if decide (s = EmptyString) then __name__ f else s
    | None => __name__ f
    end in
  mkRegistry (dict_set skill_name f (skills self)) (initializers self).

(** [@registry.skill(name, init)] in front of the definition of [f]. *)
Definition register (self : Registry) (name : option string)
    (init : option initializer) (f : func) : Registry :=
  decorator (skill self name init) name f.

(** [Registry.initialize(skill)]. *)
Definition initialize (self : Registry) (skill : option string)
    (log : list registry_event)
  : outcome * Registry * list registry_event :=
  match dict_get skill (initializers self) with
  | None => (KeyError skill, self, log)
  | Some i =>
      let log := log ++ [Initialized (init_id i)] in
      match init_raises i with
      | Some e => (Raised e, self, log)
      | None =>
          (Returned,
           mkRegistry (skills self) (dict_del skill (initializers self)),
           log)
      end
  end.

(** The loop of [initialize_skills] over the keys listed beforehand. *)
Fixpoint initialize_each (keys : list (option string)) (self : Registry)
    (log : list registry_event)
  : outcome * Registry * list registry_event :=
  match keys with
  | [] => (Returned, self, log)
  | skill :: keys =>
      match initialize self skill log with
      | (Returned, self, log) => initialize_each keys self log
      | failed => failed
      end
  end.

(** [Registry.initialize_skills]. *)
Definition initialize_skills (self : Registry) (log : list registry_event)
  : outcome * Registry * list registry_event :=
  initialize_each (map fst (initializers self)) self log.

(** [Registry.run_skill(skill, ctx)].  The [with] statement that acquires
    the state of the user, awaits the skill function and saves the state
    is one event; saving the state is taken to succeed, so that the
    statement ends as the function does. *)
Definition run_skill (self : Registry) (skill : string)
    (log : list registry_event)
  : outcome * Registry * list registry_event :=
  match dict_get skill (skills self) with
  | Some _ =>
      let '(r, self, log) :=
        match dict_get (Some skill) (initializers self) with
        | Some _ => initialize self (Some skill) log
        | None => (Returned, self, log)
        end in
      match r with
      | Returned =>
          match dict_get skill (skills self) with
          | Some f => (call_outcome (fn_raises f), self, log ++ [Ran (fn_id f)])
          | None => (KeyError (Some skill), self, log)
          end
      | failed => (failed, self, log)
      end
  | None => (Returned, self, log ++ [Said])
  end.

End RegistryM.

(** A registry whose two dicts hold no key twice. *)
Definition registry_wf (self : Registry) : Prop :=
  NoDup (map fst (skills self)) /\ NoDup (map fst (initializers self)).

(** ** The WAV image of a buffer *)

(** The formats and lengths that the fields of a WAV header can hold. *)
Definition wav_representable (a : Audio) : Prop :=
  1 <= channels a <= 65535 /\ 1 <= width a <= 4 /\ 1 <= rate a < 2 ^ 32 /\
  channels a * width a <= 65535 /\
  channels a * rate a * width a < 2 ^ 32 /\
  36 + Z.of_nat (length (data a)) < 2 ^ 32.

(** The sixteen bytes of the ['fmt '] chunk. *)
Definition wav_fmt_body (c w r : Z) : list byte :=
  le_encode 2 wave.WAVE_FORMAT_PCM ++ le_encode 2 c ++ le_encode 4 r
    ++ le_encode 4 (c * r * w) ++ le_encode 2 (c * w) ++ le_encode 2 (w * 8).

(** What follows the length of the RIFF chunk, up to the frames. *)
Definition wav_payload (c w r len : Z) : list byte :=
  wave.WAVE ++ wave.fmt_ ++ le_encode 4 16 ++ wav_fmt_body c w r
    ++ wave.data_ ++ le_encode 4 len.

(** The 44-byte header in front of [len] bytes of frames. *)
Definition wav_header (c w r len : Z) : list byte :=
  wave.RIFF ++ le_encode 4 (36 + len) ++ wav_payload c w r len.

(** *** Predicates on the buffers of a stream *)

(** A chunk of exactly [n] frames in the format of [fmt]. *)
Definition exact_chunk (fmt : Audio) (n : Z) (c : Audio) : Prop :=
  same_format c fmt /\
  Z.of_nat (length (data c)) = n * AudioM.framewidth fmt.

(** A buffer of the stream: the common format, whole frames. *)
Definition stream_buffer (fmt b : Audio) : Prop :=
  same_format b fmt /\ well_framed b.

(** What the [while] loop of [size_limit] leaves behind: fewer than [size]
    frames. *)
Definition remainder (fmt : Audio) (size : Z) (b : Audio) : Prop :=
  stream_buffer fmt b /\
  Z.of_nat (length (data b)) < size * AudioM.framewidth fmt.

(** The local variable [buf] of [size_limit] between two packets. *)
Definition pending (fmt : Audio) (size : Z) (buf : option Audio) : Prop :=
  match buf with
  | None => True
  | Some b => remainder fmt size b
  end.

(** What is left at the end of a stream: nothing, or one buffer that is
    shorter than a chunk and not empty. *)
Definition short_tail (fmt : Audio) (size : Z) (tail : list Audio) : Prop :=
  tail = [] \/ exists t, tail = [t] /\ remainder fmt size t /\ data t <> [].

Definition pending_data (buf : option Audio) : list byte :=
  match buf with
  | None => []
  | Some b => data b
  end.

(** ** Concrete buffers used in examples *)

Definition tenth_a : Audio := mkAudio 1 1 10 [x00].
Definition tenth_b : Audio := mkAudio 1 1 10 [x00; x00].

(** Two buffers of one byte each, with two-byte frames. *)
Definition half_a : Audio := mkAudio 1 2 8000 [x01].
Definition half_b : Audio := mkAudio 1 2 8000 [x02].

(** 16-bit mono buffers at 8 kHz: three frames, two frames. *)
Definition pcm3 : Audio := mkAudio 1 2 8000 [x01; x00; x02; x00; x03; x00].
Definition pcm2 : Audio := mkAudio 1 2 8000 [x04; x00; x05; x00].

(** One 16-bit mono sample each, at 8 kHz and at 16 kHz. *)
Definition one_8k : Audio := mkAudio 1 2 8000 [x01; x00].
Definition two_16k : Audio := mkAudio 1 2 16000 [x02; x00].

Definition forever : coro :=
  mkCoro None (Ok VNone) (Raise CancelledError).

(** A wrapped iterator whose first element takes three ticks, under a
    timeout of two ticks. *)
Definition slow_then_fast : AsyncTimedIterator :=
  AsyncTimedIteratorM.__init__ [(3%nat, VInt 1); (0%nat, VInt 2)]
    (Some 2%nat) VNone.

(** * Properties *)

(** ** True division *)

(** On operands a float holds exactly, [py_truediv] is the IEEE quotient
    of the converted operands. *)
Example truediv_tenth :
  py_truediv 1 10 =
  Ok (PrimFloat.div (PrimFloat.of_uint63 (Uint63.of_Z 1))
                    (PrimFloat.of_uint63 (Uint63.of_Z 10))).
Proof. reflexivity. Qed.

Example truediv_third :
  py_truediv 2 3 =
  Ok (PrimFloat.div (PrimFloat.of_uint63 (Uint63.of_Z 2))
                    (PrimFloat.of_uint63 (Uint63.of_Z 3))).
Proof. reflexivity. Qed.

Example truediv_zero : py_truediv 7 0 = Raise ZeroDivisionError.
Proof. reflexivity. Qed.

(** ** Concatenation *)

Lemma add_raises_iff (a b : Audio) :
  AudioM.__add__ a b = Raise ValueError <-> ~ same_format a b.
Proof.
  unfold AudioM.__add__, same_format.
  destruct (channels b =? channels a) eqn:Hc;
    destruct (width b =? width a) eqn:Hw;
    destruct (rate b =? rate a) eqn:Hr; simpl;
    rewrite ?Z.eqb_eq, ?Z.eqb_neq in *;
    split; intros H; try discriminate; try reflexivity;
    try (intros (? & ? & ?); congruence).
  exfalso; apply H; repeat split; congruence.
Qed.

Lemma add_same_format (a b : Audio) :
  same_format a b ->
  AudioM.__add__ a b = Ok (AudioM.clone a (data a ++ data b)).
Proof.
  intros (Hc & Hw & Hr). unfold AudioM.__add__.
  rewrite <- Hc, <- Hw, <- Hr, !Z.eqb_refl. reflexivity.
Qed.

Lemma len_well_framed (a : Audio) :
  well_framed a ->
  AudioM.len a = Ok (Z.of_nat (length (data a)) / AudioM.framewidth a).
Proof.
  intros (Hc & Hw & Hd).
  assert (0 < AudioM.framewidth a) by (unfold AudioM.framewidth; nia).
  unfold AudioM.len, AudioM.__len__, py_floordiv.
  destruct (Z.eqb_spec (AudioM.framewidth a) 0); [lia|]. simpl.
  destruct (Z.ltb_spec (Z.of_nat (length (data a)) / AudioM.framewidth a) 0);
    [|reflexivity].
  pose proof (Z.div_pos (Z.of_nat (length (data a))) (AudioM.framewidth a)).
  lia.
Qed.

Lemma len_add (a b : Audio) :
  same_format a b -> well_framed a -> well_framed b ->
  AudioM.len (AudioM.clone a (data a ++ data b)) =
  Ok (Z.of_nat (length (data a)) / AudioM.framewidth a +
      Z.of_nat (length (data b)) / AudioM.framewidth b).
Proof.
  intros (Hc & Hw & Hr) Ha Hb.
  assert (Hfw : AudioM.framewidth b = AudioM.framewidth a)
    by (unfold AudioM.framewidth; congruence).
  assert (Hr' : well_framed (AudioM.clone a (data a ++ data b))).
  { destruct Ha as (? & ? & Hda), Hb as (? & ? & Hdb).
    repeat split; simpl; try assumption.
    rewrite Hfw in Hdb. change (AudioM.framewidth (AudioM.clone a _))
      with (AudioM.framewidth a).
    rewrite length_app, Nat2Z.inj_add. now apply Z.divide_add_r. }
  rewrite (len_well_framed _ Hr'). f_equal.
  change (AudioM.framewidth (AudioM.clone a _)) with (AudioM.framewidth a).
  simpl. rewrite Hfw, length_app, Nat2Z.inj_add.
  destruct Ha as (? & ? & (k & Hk)).
  assert (0 < AudioM.framewidth a) by (unfold AudioM.framewidth; nia).
  rewrite Hk, Z.add_comm, Z.div_add by lia. rewrite Z.div_mul by lia. lia.
Qed.

(** C7 (as amended): [__add__] raises (a [ValueError]) exactly when the
    formats differ; otherwise the result has the format of [a] and the data
    [a.data ++ b.data]; for well-framed operands its frame count is the sum
    of the two frame counts and its duration is that sum divided by the
    rate, which is the sum of the two durations as rationals. *)
Theorem concat_spec (a b : Audio) :
  ((exists e, AudioM.__add__ a b = Raise e) <-> ~ same_format a b) /\
  (forall e, AudioM.__add__ a b = Raise e -> e = ValueError) /\
  (same_format a b ->
   exists r, AudioM.__add__ a b = Ok r /\
     same_format r a /\ data r = (data a ++ data b)%list /\
     (well_framed a -> well_framed b ->
      exists la lb,
        AudioM.len a = Ok la /\ AudioM.len b = Ok lb /\
        AudioM.len r = Ok (la + lb) /\
        AudioM.duration r = py_truediv (la + lb) (rate a) /\
        (rate a <> 0 ->
         (inject_Z (la + lb) / inject_Z (rate a) ==
          inject_Z la / inject_Z (rate a) +
          inject_Z lb / inject_Z (rate a))%Q))).
Proof.
  split; [|split].
  - rewrite <- add_raises_iff. split; [|eauto].
    intros (e & He). revert He. unfold AudioM.__add__.
    destruct (_ || _); [reflexivity | discriminate].
  - unfold AudioM.__add__. destruct (_ || _); congruence.
  - intros Hs. eexists; split; [apply (add_same_format _ _ Hs)|].
    split; [repeat split|]. split; [reflexivity|].
    intros Ha Hb. do 2 eexists.
    split; [apply (len_well_framed _ Ha)|].
    split; [apply (len_well_framed _ Hb)|].
    pose proof (len_add _ _ Hs Ha Hb) as Hl.
    split; [exact Hl|].
    split; [unfold AudioM.duration; rewrite Hl; reflexivity|].
    intros Hr. rewrite inject_Z_plus. field.
    intros H0. apply Hr. unfold inject_Z, Qeq in H0. simpl in H0. lia.
Qed.

Lemma tenth_well_framed : well_framed tenth_a /\ well_framed tenth_b.
Proof.
  split; (split; [reflexivity | split; [reflexivity|]]);
    unfold AudioM.framewidth; simpl.
  - exists 1; reflexivity.
  - exists 2; reflexivity.
Qed.

Lemma concat_spec_witness :
  exists r, AudioM.__add__ tenth_a tenth_b = Ok r /\
    AudioM.len r = Ok 3 /\ AudioM.duration r = py_truediv 3 10.
Proof.
  destruct (concat_spec tenth_a tenth_b) as (_ & _ & H).
  destruct H as (r & Hr & _ & _ & H); [repeat split|].
  destruct H as (la & lb & Hla & Hlb & Hlr & Hd & _);
    [apply tenth_well_framed | apply tenth_well_framed |].
  vm_compute in Hla, Hlb.
  injection Hla as <-. injection Hlb as <-.
  exists r. split; [exact Hr | split; [exact Hlr | exact Hd]].
Defined.

(** C7 as stated fails on the duration: one frame and two frames at 10 Hz
    last [0.1] and [0.2] seconds, whose float sum is not the [0.3] seconds
    of their concatenation. *)
Lemma concat_duration_not_additive :
  same_format tenth_a tenth_b /\ well_framed tenth_a /\ well_framed tenth_b /\
  exists r da db dr,
    AudioM.__add__ tenth_a tenth_b = Ok r /\
    AudioM.duration tenth_a = Ok da /\
    AudioM.duration tenth_b = Ok db /\
    AudioM.duration r = Ok dr /\
    dr <> (da + db)%float.
Proof.
  split; [repeat split|].
  split; [apply tenth_well_framed|]. split; [apply tenth_well_framed|].
  do 4 eexists.
  split; [reflexivity|]. split; [vm_compute; reflexivity|].
  split; [vm_compute; reflexivity|]. split; [vm_compute; reflexivity|].
  intros H.
  apply (f_equal (fun x => PrimFloat.eqb x 0x1.3333333333333p-2%float)) in H.
  vm_compute in H. discriminate.
Qed.

(** ** Chunked delivery ([size_limit]) *)

Lemma py_slice_prefix (d : list byte) (k : Z) :
  0 <= k -> py_slice d None (Some k) = take (Z.to_nat k) d.
Proof.
  intros Hk. unfold py_slice, slice_bound.
  destruct (Z.ltb_spec k 0); [lia|].
  change (Z.to_nat 0) with 0%nat. rewrite drop_0, Z.sub_0_r.
  destruct (Z.le_gt_cases k (Z.of_nat (length d))).
  - rewrite Z.min_l by lia. reflexivity.
  - rewrite Z.min_r by lia. rewrite Nat2Z.id.
    rewrite !take_ge by lia. reflexivity.
Qed.

Lemma py_slice_suffix (d : list byte) (k : Z) :
  0 <= k -> py_slice d (Some k) None = drop (Z.to_nat k) d.
Proof.
  intros Hk. unfold py_slice, slice_bound.
  destruct (Z.ltb_spec k 0); [lia|].
  rewrite take_ge by (rewrite length_drop; lia).
  destruct (Z.le_gt_cases k (Z.of_nat (length d))).
  - rewrite Z.min_l by lia. reflexivity.
  - rewrite Z.min_r by lia. rewrite Nat2Z.id.
    rewrite !drop_ge by lia. reflexivity.
Qed.

Lemma getitem_prefix (b : Audio) (n : Z) :
  0 < n -> 0 < AudioM.framewidth b ->
  AudioM.__getitem__ b None (Some n) =
  AudioM.clone b (take (Z.to_nat (n * AudioM.framewidth b)) (data b)).
Proof.
  intros Hn Hfw. unfold AudioM.__getitem__, py_and.
  destruct (Z.eqb_spec n 0); [lia|].
  rewrite py_slice_prefix by nia. reflexivity.
Qed.

Lemma getitem_suffix (b : Audio) (n : Z) :
  0 < n -> 0 < AudioM.framewidth b ->
  AudioM.__getitem__ b (Some n) None =
  AudioM.clone b (drop (Z.to_nat (n * AudioM.framewidth b)) (data b)).
Proof.
  intros Hn Hfw. unfold AudioM.__getitem__, py_and.
  destruct (Z.eqb_spec n 0); [lia|].
  rewrite py_slice_suffix by nia. reflexivity.
Qed.

Lemma well_framed_pos (a : Audio) : well_framed a -> 0 < AudioM.framewidth a.
Proof. intros (? & ? & _). unfold AudioM.framewidth. nia. Qed.

Lemma same_format_framewidth (a b : Audio) :
  same_format a b -> AudioM.framewidth a = AudioM.framewidth b.
Proof. intros (Hc & Hw & _). unfold AudioM.framewidth. congruence. Qed.

Lemma exact_chunk_len (fmt c : Audio) (n : Z) :
  0 < AudioM.framewidth fmt -> 0 <= n ->
  exact_chunk fmt n c -> AudioM.len c = Ok n.
Proof.
  intros Hfw Hn (Hs & Hl).
  unfold AudioM.len, AudioM.__len__, py_floordiv.
  rewrite (same_format_framewidth _ _ Hs), Hl.
  destruct (Z.eqb_spec (AudioM.framewidth fmt) 0); [lia|].
  rewrite Z.div_mul by lia. simpl.
  destruct (Z.ltb_spec n 0); [lia | reflexivity].
Qed.

Lemma all_data_exact_length (fmt : Audio) (n : Z) (cs : list Audio) :
  Forall (exact_chunk fmt n) cs ->
  Z.of_nat (length (all_data cs)) =
  Z.of_nat (length cs) * (n * AudioM.framewidth fmt).
Proof.
  induction 1 as [|c cs (_ & Hc) _ IH]; [reflexivity|].
  unfold all_data in *. simpl.
  rewrite length_app, Nat2Z.inj_add, IH, Hc. lia.
Qed.

Section SizeLimit.

Variable fmt : Audio.
Variable size : Z.
Hypothesis size_pos : 0 < size.
Hypothesis fmt_pos : 0 < AudioM.framewidth fmt.

Let fw := AudioM.framewidth fmt.

Local Abbreviation stream_buffer := (stream_buffer fmt).
Local Abbreviation remainder := (remainder fmt size).
Local Abbreviation pending := (pending fmt size).

Lemma size_limit_while_spec (fuel : nat) :
  forall buf : Audio,
    stream_buffer buf ->
    (length (data buf) < fuel)%nat ->
    exists cs b',
      size_limit_while fuel buf size = Some (cs, Ok b') /\
      (all_data cs ++ data b')%list = data buf /\
      Forall (exact_chunk fmt size) cs /\
      remainder b'.
Proof.
  induction fuel as [|fuel IH]; intros buf (Hs & Hwf) Hfuel; [lia|].
  pose proof (same_format_framewidth _ _ Hs) as Hfw.
  pose proof (well_framed_pos _ Hwf) as Hpos.
  destruct Hwf as (Hc & Hw & (k & Hk)).
  cbn [size_limit_while].
  rewrite (len_well_framed buf) by (repeat split; [..|exists k]; assumption).
  rewrite Hk, Z.div_mul by lia.
  destruct (Z.leb_spec size k) as [Hle|Hgt].
  - rewrite getitem_prefix, getitem_suffix by assumption.
    set (n := Z.to_nat (size * AudioM.framewidth buf)).
    assert (Hn : (0 < n <= length (data buf))%nat) by (subst n; nia).
    destruct (IH (AudioM.clone buf (drop n (data buf))))
      as (cs & b' & -> & Hdata & Hcs & Hrem).
    + split; [exact Hs|]. repeat split; simpl; try assumption.
      change (AudioM.framewidth (AudioM.clone buf _))
        with (AudioM.framewidth buf).
      rewrite length_drop. exists (k - size). subst n. nia.
    + simpl. rewrite length_drop. lia.
    + eexists _, b'. split; [reflexivity|]. split; [|split].
      * unfold all_data in *. simpl in *. rewrite <- app_assoc, Hdata.
        apply take_drop.
      * constructor; [|exact Hcs]. split; [exact Hs|]. simpl.
        rewrite length_take. subst n. rewrite <- Hfw. lia.
      * exact Hrem.
  - exists [], buf. split; [reflexivity|]. split; [reflexivity|].
    split; [constructor|].
    split; [split; [exact Hs | repeat split; [..|exists k]; assumption]|].
    unfold fw. rewrite <- Hfw. nia.
Qed.

Lemma remainder_truthy (b : Audio) :
  remainder b ->
  AudioM.__bool__ b = Ok (0 <? Z.of_nat (length (data b)) / fw) /\
  (Z.of_nat (length (data b)) / fw <= 0 -> data b = []).
Proof.
  intros ((Hs & Hwf) & _). unfold AudioM.__bool__.
  rewrite (len_well_framed _ Hwf), (same_format_framewidth _ _ Hs).
  split; [reflexivity|]. fold fw. intros Hz.
  destruct Hwf as (_ & _ & (k & Hk)).
  rewrite (same_format_framewidth _ _ Hs) in Hk. fold fw in Hk.
  rewrite Hk, Z.div_mul in Hz by (unfold fw; lia).
  apply length_zero_iff_nil. unfold fw in *. nia.
Qed.

Lemma size_limit_for_spec (packets : list Audio) :
  forall (fuel : nat) (buf : option Audio),
    pending buf ->
    Forall stream_buffer packets ->
    (length (pending_data buf) + length (all_data packets) < fuel)%nat ->
    exists cs buf',
      size_limit_for fuel buf packets size = Some (cs, Ok buf') /\
      (all_data cs ++ pending_data buf')%list =
        (pending_data buf ++ all_data packets)%list /\
      Forall (exact_chunk fmt size) cs /\
      pending buf'.
Proof.
  induction packets as [|p ps IH]; intros fuel buf Hbuf Hps Hfuel.
  - exists [], buf. split; [reflexivity|].
    split; [unfold all_data; simpl; now rewrite app_nil_r|].
    split; [constructor | exact Hbuf].
  - apply Forall_cons in Hps as [Hp Hps].
    unfold all_data in Hfuel. simpl in Hfuel. rewrite length_app in Hfuel.
    (* the buffer after [buf = buf + packet if buf else packet] *)
    assert (Hj : exists j,
      (t ← truthy buf;
       if t : bool then
         match buf with
         | Some b => AudioM.__add__ b p
         | None => Ok p
         end
       else Ok p) = Ok j /\
      stream_buffer j /\ data j = (pending_data buf ++ data p)%list).
    { destruct buf as [b|]; [|exists p; repeat split; apply Hp].
      destruct (remainder_truthy b Hbuf) as (Ht & Hnil).
      simpl. rewrite Ht. simpl.
      destruct (Z.ltb_spec 0 (Z.of_nat (length (data b)) / fw)) as [Hlt|Hge].
      - destruct Hbuf as ((Hsb & Hwb) & _), Hp as (Hsp & Hwp).
        assert (Hbp : same_format b p).
        { destruct Hsb as (? & ? & ?), Hsp as (? & ? & ?).
          repeat split; congruence. }
        rewrite (add_same_format _ _ Hbp). eexists. split; [reflexivity|].
        split; [|reflexivity]. split; [exact Hsb|].
        destruct Hwb as (? & ? & Hdb), Hwp as (? & ? & Hdp).
        repeat split; simpl; try assumption.
        change (AudioM.framewidth (AudioM.clone b _))
          with (AudioM.framewidth b).
        rewrite length_app, Nat2Z.inj_add. apply Z.divide_add_r; [exact Hdb|].
        now rewrite (same_format_framewidth _ _ Hbp).
      - exists p. rewrite (Hnil Hge). repeat split; apply Hp. }
    destruct Hj as (j & Hj & Hsj & Hdj).
    cbn [size_limit_for]. rewrite Hj.
    destruct (size_limit_while_spec fuel j Hsj)
      as (cs & b' & -> & Hdata & Hcs & Hrem).
    { rewrite Hdj, length_app. lia. }
    destruct (IH fuel (Some b') Hrem Hps)
      as (cs' & buf' & -> & Hdata' & Hcs' & Hrem').
    { simpl. apply (f_equal length) in Hdata.
      rewrite Hdj, !length_app in Hdata. unfold all_data in *. lia. }
    exists (cs ++ cs'), buf'. split; [reflexivity|].
    split; [|split; [now apply Forall_app | exact Hrem']].
    unfold all_data in *. simpl in *.
    rewrite map_app, concat_app, <- app_assoc, Hdata'.
    rewrite !app_assoc. f_equal. rewrite Hdata, Hdj. reflexivity.
Qed.

End SizeLimit.

Lemma total_frames_bytes (fmt : Audio) (packets : list Audio) :
  Forall (stream_buffer fmt) packets ->
  Z.of_nat (length (all_data packets)) =
  total_frames packets * AudioM.framewidth fmt.
Proof.
  induction 1 as [|p ps (Hs & Hwf) _ IH]; [reflexivity|].
  unfold all_data in *. simpl.
  rewrite length_app, Nat2Z.inj_add, IH.
  pose proof (well_framed_pos _ Hwf).
  destruct Hwf as (_ & _ & (k & Hk)).
  rewrite Hk, Z.div_mul by lia.
  rewrite (same_format_framewidth _ _ Hs). lia.
Qed.

(** C3: on same-format, whole-frame buffers totalling [D] frames and a
    chunk size [size > 0], [size_limit] returns normally after yielding
    [D / size] chunks of exactly [size] frames, then one chunk of
    [D mod size] frames exactly when that is nonzero; the yielded data,
    concatenated, is the input data. *)
Theorem size_limit_chunks (fmt : Audio) (packets : list Audio) (size : Z)
    (fuel : nat) :
  0 < size ->
  Forall (stream_buffer fmt) packets ->
  (length (all_data packets) < fuel)%nat ->
  exists full tail,
    size_limit fuel packets size = Some (full ++ tail, Ok tt) /\
    Z.of_nat (length full) = total_frames packets / size /\
    Forall (fun c => same_format c fmt /\ AudioM.len c = Ok size) full /\
    (if total_frames packets mod size =? 0 then tail = []
     else exists t, tail = [t] /\ same_format t fmt /\
            AudioM.len t = Ok (total_frames packets mod size)) /\
    all_data (full ++ tail) = all_data packets.
Proof.
  intros Hsize Hps Hfuel.
  destruct packets as [|p0 ps0].
  { exists [], []. repeat split; constructor. }
  assert (Hfw : 0 < AudioM.framewidth fmt).
  { apply Forall_cons in Hps as [(Hs & Hwf) _].
    rewrite <- (same_format_framewidth _ _ Hs). now apply well_framed_pos. }
  pose proof (total_frames_bytes _ _ Hps) as Hbytes.
  set (packets := p0 :: ps0) in *. set (D := total_frames packets) in *.
  destruct (size_limit_for_spec fmt size Hsize Hfw packets fuel None I Hps)
    as (cs & buf' & Hrun & Hdata & Hcs & Hrem); [simpl; lia|].
  simpl in Hdata.
  pose proof (all_data_exact_length _ _ _ Hcs) as Hlen.
  assert (Hfull : Forall (fun c => same_format c fmt /\
                                   AudioM.len c = Ok size) cs).
  { eapply Forall_impl; [exact Hcs|]. intros c Hc. split; [apply Hc|].
    apply (exact_chunk_len fmt); [assumption | lia | exact Hc]. }
  unfold size_limit. rewrite Hrun.
  destruct buf' as [b'|]; simpl in Hdata |- *.
  - destruct (remainder_truthy fmt size Hfw b' Hrem) as (Ht & Hnil).
    rewrite Ht.
    destruct Hrem as ((Hs & Hwf) & Hlt).
    pose proof (len_well_framed _ Hwf) as Hlb.
    destruct Hwf as (_ & _ & (k & Hk)).
    rewrite (same_format_framewidth _ _ Hs) in Hk, Hlb.
    rewrite Hk, Z.div_mul in Hnil, Hlb |- * by lia.
    assert (HD : D = Z.of_nat (length cs) * size + k).
    { apply (f_equal length) in Hdata. rewrite length_app in Hdata. nia. }
    assert (Hk' : 0 <= k < size) by nia.
    assert (Hq : D / size = Z.of_nat (length cs))
      by (symmetry; apply (Z.div_unique_pos D size _ k); lia).
    assert (Hm : D mod size = k)
      by (symmetry; apply (Z.mod_unique_pos D size (Z.of_nat (length cs)) k);
          lia).
    rewrite Hq, Hm.
    destruct (Z.ltb_spec 0 k) as [Hpos|Hzero].
    + exists cs, [b']. split; [reflexivity|]. split; [reflexivity|].
      split; [exact Hfull|].
      destruct (Z.eqb_spec k 0); [lia|].
      split; [exists b'; repeat split; solve [apply Hs | exact Hlb]|].
      unfold all_data in *. rewrite map_app, concat_app. simpl.
      now rewrite app_nil_r.
    + exists cs, []. rewrite app_nil_r.
      split; [reflexivity|]. split; [reflexivity|].
      split; [exact Hfull|].
      destruct (Z.eqb_spec k 0); [|lia]. split; [reflexivity|].
      rewrite <- Hdata, (Hnil Hzero), app_nil_r. reflexivity.
  - rewrite app_nil_r in Hdata.
    assert (HD : D = Z.of_nat (length cs) * size)
      by (apply (f_equal length) in Hdata; nia).
    exists cs, []. rewrite app_nil_r.
    rewrite HD, Z.div_mul, Z.mod_mul by lia.
    repeat split; [exact Hfull | exact Hdata].
Qed.

Lemma pcm_stream : Forall (stream_buffer pcm3) [pcm3; pcm2].
Proof.
  repeat constructor; unfold AudioM.framewidth; simpl.
  - exists 3; reflexivity.
  - exists 2; reflexivity.
Qed.

Lemma size_limit_chunks_witness :
  exists full tail,
    size_limit 11 [pcm3; pcm2] 2 = Some (full ++ tail, Ok tt) /\
    Z.of_nat (length full) = total_frames [pcm3; pcm2] / 2 /\
    Forall (fun c => same_format c pcm3 /\ AudioM.len c = Ok 2) full /\
    (if total_frames [pcm3; pcm2] mod 2 =? 0 then tail = []
     else exists t, tail = [t] /\ same_format t pcm3 /\
            AudioM.len t = Ok (total_frames [pcm3; pcm2] mod 2)) /\
    all_data (full ++ tail) = all_data [pcm3; pcm2].
Proof.
  apply (size_limit_chunks pcm3 [pcm3; pcm2] 2 11);
    [lia | exact pcm_stream | simpl; lia].
Defined.

Example size_limit_pcm :
  size_limit 11 [pcm3; pcm2] 2 =
  Some ([mkAudio 1 2 8000 [x01; x00; x02; x00];
         mkAudio 1 2 8000 [x03; x00; x04; x00];
         mkAudio 1 2 8000 [x05; x00]], Ok tt).
Proof. reflexivity. Qed.

(** The whole-frame hypothesis is needed: a pending buffer of less than
    a frame counts as empty and is replaced by the next packet. *)
Example size_limit_partial_frames :
  size_limit 3 [half_a; half_b] 1 = Some ([], Ok tt).
Proof. reflexivity. Qed.

(** ** Real-time pacing ([rate_limit]) *)

Lemma rate_limit_for_yields (clock : nat -> float) (packets : list Audio) :
  forall reads w packet evs r,
    rate_limit_for clock reads w packet packets = (evs, Ok r) ->
    yields evs = packets /\ r = last_default packet packets.
Proof.
  induction packets as [|p ps IH]; intros reads w packet evs r; simpl.
  - intros [= <- <-]. split; reflexivity.
  - destruct (AudioM.duration p) as [d|e]; [|discriminate].
    destruct (rate_limit_for _ _ _ _ ps) as [evs' r'] eqn:Hrec.
    intros [= <- ->]. destruct (IH _ _ _ _ _ Hrec) as (Hy & Hr).
    simpl. rewrite Hy. split; [reflexivity|].
    rewrite Hr. unfold last_default. rewrite last_cons.
    destruct (last ps); reflexivity.
Qed.

Lemma rate_limit_for_total (clock : nat -> float) (packets : list Audio) :
  Forall (fun p => exists d, AudioM.duration p = Ok d) packets ->
  forall reads w packet,
    exists evs,
      rate_limit_for clock reads w packet packets =
        (evs, Ok (last_default packet packets)) /\
      yields evs = packets.
Proof.
  induction 1 as [|p ps (d & Hd) _ IH]; intros reads w packet.
  - exists []. split; reflexivity.
  - destruct (IH (S reads) (w + d)%float (Some p)) as (evs & Hrun & Hy).
    exists (Yield p :: Sleep (w + d - clock reads)%float :: evs).
    simpl. rewrite Hd, Hrun. split; [|simpl; now rewrite Hy].
    f_equal. f_equal. unfold last_default. rewrite last_cons.
    destruct (last ps); reflexivity.
Qed.

Lemma duration_bool (p : Audio) (d : float) :
  AudioM.duration p = Ok d -> exists n, AudioM.len p = Ok n /\
                                        AudioM.__bool__ p = Ok (0 <? n).
Proof.
  unfold AudioM.duration, AudioM.__bool__.
  destruct (AudioM.len p) as [n|e]; [|discriminate].
  intros _. exists n. split; reflexivity.
Qed.

(** What [rate_limit] yields on a non-empty input whose packets all have a
    duration: the input, followed once more by its last packet when that
    packet holds at least one frame. *)
Lemma rate_limit_yields (clock : nat -> float) (packets : list Audio)
    (p : Audio) :
  Forall (fun p => exists d, AudioM.duration p = Ok d) packets ->
  last packets = Some p ->
  exists evs n,
    rate_limit clock packets = (evs, Ok tt) /\
    AudioM.len p = Ok n /\
    yields evs = (packets ++ if 0 <? n then [p] else [])%list.
Proof.
  intros Hall Hlast.
  destruct (rate_limit_for_total clock packets Hall 1%nat (clock 0%nat) None)
    as (evs & Hrun & Hy).
  unfold last_default in Hrun. rewrite Hlast in Hrun.
  assert (Hp : exists d, AudioM.duration p = Ok d).
  { rewrite Forall_forall in Hall. apply Hall.
    apply last_Some in Hlast as (l' & ->).
    apply elem_of_app. right. apply list_elem_of_singleton. reflexivity. }
  destruct Hp as (d & Hd). destruct (duration_bool _ _ Hd) as (n & Hn & Hb).
  unfold rate_limit. rewrite Hrun, Hb.
  destruct (0 <? n) eqn:Hpos.
  - exists (evs ++ [Yield p]), n. split; [reflexivity|]. split; [exact Hn|].
    rewrite Hpos. unfold yields in *. rewrite omap_app, Hy. reflexivity.
  - exists evs, n. split; [reflexivity|]. split; [exact Hn|].
    now rewrite Hpos, app_nil_r.
Qed.

(** C1 fails on the code: on the one-packet input [[pcm2]] the pacer
    yields the packet twice, the second time after the input has ended. *)
Theorem rate_limit_repeats_last (clock : nat -> float) :
  yields (fst (rate_limit clock [pcm2])) = [pcm2; pcm2] /\
  snd (rate_limit clock [pcm2]) = Ok tt /\
  yields (fst (rate_limit clock [pcm2])) <> [pcm2].
Proof.
  assert (H : yields (fst (rate_limit clock [pcm2])) = [pcm2; pcm2])
    by reflexivity.
  split; [exact H|]. split; [reflexivity|]. rewrite H. discriminate.
Qed.

(** C9: on the empty input the pacer yields nothing and ends with the
    [UnboundLocalError] (a [NameError]) raised by [if packet], the loop
    variable never having been bound. *)
Theorem rate_limit_empty (clock : nat -> float) :
  rate_limit clock [] = ([], Raise UnboundLocalError) /\
  isinstance UnboundLocalError NameError = true /\
  snd (rate_limit clock []) <> Ok tt.
Proof.
  split; [reflexivity|]. split; [reflexivity|]. discriminate.
Qed.

(** ** Mixing ([Audio.combine]) *)

(** [combine] reads the other buffer's data and nothing else of it. *)
Lemma combine_other_format (a b : Audio) (c w r : Z) :
  AudioM.combine a (mkAudio c w r (data b)) = AudioM.combine a b.
Proof. reflexivity. Qed.

Example audioop_add_saturates :
  audioop.add [xff; x7f; x00; x80] [x01; x00; xff; xff] 2 =
  Ok [xff; x7f; x00; x80].
Proof. reflexivity. Qed.

(** C2 fails on the code: two buffers whose sample rates differ are mixed
    without any error. *)
Theorem combine_ignores_format :
  ~ same_format one_8k two_16k /\
  AudioM.combine one_8k two_16k = Ok (mkAudio 1 2 8000 [x03; x00]) /\
  AudioM.__add__ one_8k two_16k = Raise ValueError.
Proof.
  split; [intros (_ & _ & H); discriminate H|].
  split; reflexivity.
Qed.

(** ** The WAV container ([to_wav], [load], [from_wav]) *)

Lemma byte_to_of_Z (z : Z) : 0 <= z < 256 -> byte_to_Z (byte_of_Z z) = z.
Proof.
  intros Hz. unfold byte_to_Z, byte_of_Z.
  destruct (Byte.of_N (Z.to_N z)) as [b|] eqn:Hb.
  - apply Byte.to_of_N in Hb. simpl. rewrite Hb. lia.
  - apply Byte.of_N_None_iff in Hb. lia.
Qed.

Lemma length_le_encode (n : nat) : forall v, length (le_encode n v) = n.
Proof. induction n as [|n IH]; intros v; simpl; [|rewrite IH]; reflexivity. Qed.

Lemma le_decode_encode (n : nat) :
  forall v, 0 <= v < 256 ^ Z.of_nat n -> le_decode (le_encode n v) = v.
Proof.
  induction n as [|n IH]; intros v Hv.
  - simpl in *. lia.
  - rewrite Nat2Z.inj_succ, Z.pow_succ_r in Hv by lia.
    cbn [le_encode le_decode].
    rewrite byte_to_of_Z by (apply Z.mod_pos_bound; lia).
    rewrite IH.
    + pose proof (Z.div_mod v 256). lia.
    + split; [apply Z.div_pos; lia | apply Z.div_lt_upper_bound; lia].
Qed.

Lemma pack_uint_Ok (n : nat) (v : Z) :
  0 <= v < 256 ^ Z.of_nat n -> pack_uint n v = Ok (le_encode n v).
Proof.
  intros Hv. unfold pack_uint.
  destruct (Z.leb_spec 0 v); [|lia].
  destruct (Z.ltb_spec v (256 ^ Z.of_nat n)); [reflexivity | lia].
Qed.

(** The range of a two-byte or four-byte field. *)
Ltac field_range :=
  first [change (256 ^ Z.of_nat 4) with (2 ^ 32)
        |change (256 ^ Z.of_nat 2) with 65536
        |change (256 ^ 4) with (2 ^ 32)];
  unfold wave.WAVE_FORMAT_PCM; nia.

Lemma chunk_header_app (name rest : list byte) (size : Z) :
  length name = 4%nat -> 0 <= size < 256 ^ 4 ->
  wave.chunk_header (name ++ le_encode 4 size ++ rest) =
  Some (name, size, rest).
Proof.
  intros Hn Hs. unfold wave.chunk_header.
  rewrite !length_app, length_le_encode, Hn.
  change (4 + (4 + length rest) <? 8)%nat with false.
  rewrite take_app_length' by congruence.
  rewrite drop_app_length' by congruence.
  rewrite take_app_length' by (now rewrite length_le_encode).
  rewrite le_decode_encode by exact Hs.
  rewrite app_assoc, drop_app_length'; [reflexivity|].
  rewrite length_app, length_le_encode. lia.
Qed.

Lemma write_header_Ok (c w r len : Z) :
  0 <= c <= 65535 -> 0 <= w <= 4 -> 0 <= r < 2 ^ 32 ->
  c * w <= 65535 -> c * r * w < 2 ^ 32 -> 0 <= len -> 36 + len < 2 ^ 32 ->
  wave._write_header c w r len = Ok (wav_header c w r len).
Proof.
  intros Hc Hw Hr Hcw Hcrw Hl0 Hl. unfold wave._write_header.
  rewrite (pack_uint_Ok 4 (36 + len)) by field_range.
  rewrite (pack_uint_Ok 4 16) by field_range.
  rewrite (pack_uint_Ok 2 wave.WAVE_FORMAT_PCM) by field_range.
  rewrite (pack_uint_Ok 2 c) by field_range.
  rewrite (pack_uint_Ok 4 r) by field_range.
  rewrite (pack_uint_Ok 4 (c * r * w)) by field_range.
  rewrite (pack_uint_Ok 2 (c * w)) by field_range.
  rewrite (pack_uint_Ok 2 (w * 8)) by field_range.
  rewrite (pack_uint_Ok 4 len) by field_range.
  unfold wav_header, wav_payload, wav_fmt_body.
  cbn [mbind result_bind rbind]. rewrite <- !app_assoc. reflexivity.
Qed.

Lemma length_wav_fmt_body (c w r : Z) : length (wav_fmt_body c w r) = 16%nat.
Proof.
  unfold wav_fmt_body. rewrite !length_app, !length_le_encode. reflexivity.
Qed.

Lemma patchheader_Ok (c w r len0 len : Z) :
  0 <= len -> 36 + len < 2 ^ 32 ->
  wave._patchheader (wav_header c w r len0) len = Ok (wav_header c w r len).
Proof.
  intros Hl0 Hl. unfold wave._patchheader.
  rewrite (pack_uint_Ok 4 (36 + len)) by field_range.
  rewrite (pack_uint_Ok 4 len) by field_range.
  cbn [mbind result_bind rbind]. reflexivity.
Qed.

Lemma write_Ok (a : Audio) :
  wav_representable a ->
  wave.write (channels a) (width a) (rate a) (data a) =
  Ok (wav_header (channels a) (width a) (rate a)
        (Z.of_nat (length (data a))) ++ data a).
Proof.
  intros (Hc & Hw & Hr & Hcw & Hcrw & Hl). unfold wave.write.
  destruct (Z.ltb_spec (channels a) 1); [lia|].
  destruct (Z.ltb_spec (width a) 1); [lia|].
  destruct (Z.ltb_spec 4 (width a)); [lia|].
  destruct (Z.leb_spec (rate a) 0); [lia|].
  cbn [orb].
  set (L := Z.of_nat (length (data a))) in *.
  set (fw := width a * channels a).
  assert (Hfw : 0 < fw) by (unfold fw; nia).
  assert (HL0 : 0 <= L / fw * fw <= L).
  { pose proof (Z.mul_div_le L fw Hfw).
    pose proof (Z.div_pos L fw). nia. }
  replace (L / fw * channels a * width a) with (L / fw * fw)
    by (unfold fw; ring).
  rewrite write_header_Ok by lia.
  cbn [mbind result_bind rbind].
  destruct (Z.eqb_spec (L / fw * fw) L) as [->|_]; [reflexivity|].
  rewrite patchheader_Ok by lia. reflexivity.
Qed.

Lemma read_fmt_chunk_Ok (c w r : Z) :
  1 <= c <= 65535 -> 1 <= w <= 4 -> 0 <= r < 2 ^ 32 ->
  wave._read_fmt_chunk (wav_fmt_body c w r) = Ok (c, w, r).
Proof.
  intros Hc Hw Hr. unfold wave._read_fmt_chunk.
  rewrite length_wav_fmt_body.
  change (16 <? 14)%nat with false. change (16 <? 16)%nat with false.
  cbv iota.
  change (take 2 (wav_fmt_body c w r))
    with (le_encode 2 wave.WAVE_FORMAT_PCM).
  change (take 2 (drop 2 (wav_fmt_body c w r))) with (le_encode 2 c).
  change (take 4 (drop 4 (wav_fmt_body c w r))) with (le_encode 4 r).
  change (take 2 (drop 14 (wav_fmt_body c w r))) with (le_encode 2 (w * 8)).
  rewrite !le_decode_encode
    by (first [change (256 ^ Z.of_nat 2) with 65536
              |change (256 ^ Z.of_nat 4) with (2 ^ 32)];
        unfold wave.WAVE_FORMAT_PCM; lia).
  rewrite Z.eqb_refl.
  replace ((w * 8 + 7) / 8) with w
    by (apply (Z.div_unique_pos _ 8 w 7); lia).
  destruct (Z.eqb_spec w 0); [lia|].
  destruct (Z.eqb_spec c 0); [lia|]. reflexivity.
Qed.

Lemma read_Ok (c w r : Z) (frames : list byte) :
  1 <= c <= 65535 -> 1 <= w <= 4 -> 0 <= r < 2 ^ 32 ->
  36 + Z.of_nat (length frames) < 2 ^ 32 ->
  wave.read (wav_header c w r (Z.of_nat (length frames)) ++ frames) (2 ^ 32)
  = Ok (frames, c, w, r).
Proof.
  intros Hc Hw Hr Hl. set (L := Z.of_nat (length frames)) in *.
  unfold wave.read.
  unfold wav_header. rewrite <- !app_assoc.
  rewrite chunk_header_app
    by (first [reflexivity | change (256 ^ 4) with (2 ^ 32); lia]).
  change (negb (bytes_eqb wave.RIFF wave.RIFF)) with false. cbv iota.
  assert (Hlen : length (wav_payload c w r L ++ frames) = Z.to_nat (36 + L)).
  { unfold wav_payload.
    rewrite !length_app, length_wav_fmt_body, !length_le_encode.
    unfold wave.WAVE, wave.fmt_, wave.data_. simpl length. lia. }
  rewrite (take_ge (wav_payload c w r L ++ frames)) by (rewrite Hlen; lia).
  change (take 4 (wav_payload c w r L ++ frames)) with wave.WAVE.
  change (negb (bytes_eqb wave.WAVE wave.WAVE)) with false. cbv iota.
  change (drop 4 (wav_payload c w r L ++ frames))
    with (wave.fmt_ ++ le_encode 4 16 ++ wav_fmt_body c w r
            ++ wave.data_ ++ le_encode 4 L ++ frames).
  cbn [wave.read_chunks].
  rewrite chunk_header_app by (first [reflexivity | lia]).
  change (bytes_eqb wave.fmt_ wave.fmt_) with true. cbv iota.
  change (Z.to_nat 16) with 16%nat.
  change (Z.to_nat (16 + 16 mod 2)) with 16%nat.
  rewrite take_app_length' by (now rewrite length_wav_fmt_body).
  rewrite drop_app_length' by (now rewrite length_wav_fmt_body).
  rewrite read_fmt_chunk_Ok by assumption.
  cbn [mbind result_bind rbind].
  rewrite Hlen. replace (Z.to_nat (36 + L)) with (S (Z.to_nat (35 + L))) by lia.
  cbn [wave.read_chunks].
  rewrite chunk_header_app
    by (first [reflexivity | change (256 ^ 4) with (2 ^ 32); lia]).
  change (bytes_eqb wave.data_ wave.fmt_) with false.
  change (bytes_eqb wave.data_ wave.data_) with true. cbv iota.
  rewrite Z.min_r by nia.
  rewrite take_ge by lia. reflexivity.
Qed.

(** C8 (as amended): for a buffer whose format and length fit the header
    fields, [to_wav] returns a file object at position 0 from which
    [Audio.load] reads the buffer back unchanged, and so does
    [Audio.from_wav] from the bytes of that file. *)
Theorem wav_roundtrip (a : Audio) :
  wav_representable a ->
  exists wav, AudioM.to_wav a = Ok wav /\
    tell wav = 0%nat /\
    AudioM.load wav = Ok a /\
    AudioM.from_wav (PyBytes (getvalue wav)) = Ok a.
Proof.
  intros H. pose proof (write_Ok a H) as Hw.
  destruct H as (Hc & Hwd & Hr & Hcw & Hcrw & Hl).
  eexists. unfold AudioM.to_wav. rewrite Hw. cbn [mbind result_bind rbind].
  split; [reflexivity|]. split; [reflexivity|].
  assert (Hload : AudioM.load
            (mkBytesIO (wav_header (channels a) (width a) (rate a)
                          (Z.of_nat (length (data a))) ++ data a) 0) = Ok a).
  { unfold AudioM.load. cbn [tell getvalue].
    rewrite drop_0, read_Ok by lia. destruct a; reflexivity. }
  split; exact Hload.
Qed.

Lemma pcm3_representable : wav_representable pcm3.
Proof. unfold wav_representable. simpl. lia. Qed.

Lemma wav_roundtrip_witness :
  exists wav, AudioM.to_wav pcm3 = Ok wav /\
    tell wav = 0%nat /\
    AudioM.load wav = Ok pcm3 /\
    AudioM.from_wav (PyBytes (getvalue wav)) = Ok pcm3.
Proof. apply (wav_roundtrip pcm3). exact pcm3_representable. Defined.

(** C8 as stated fails on the code: [to_wav] returns a file object, which
    [from_wav] (it wants bytes) rejects with a [TypeError]. *)
Lemma from_wav_of_to_wav_raises :
  wav_representable pcm3 /\ well_framed pcm3 /\
  exists wav, AudioM.to_wav pcm3 = Ok wav /\
    AudioM.from_wav (PyBytesIO wav) = Raise TypeError.
Proof.
  split; [exact pcm3_representable|].
  split; [split; [reflexivity | split; [reflexivity | exists 3; reflexivity]]|].
  eexists. split; reflexivity.
Qed.

(** Each of 65535 channels and 4-byte samples fits its own header field,
    their product (the block alignment) does not: [to_wav] raises. *)
Example to_wav_block_align_overflow :
  AudioM.to_wav (mkAudio 65535 4 8000 []) = Raise StructError.
Proof. reflexivity. Qed.

(** ** The supervised background task ([BackgroundTask]) *)



Lemma stop_leaves_idle (self self' : BackgroundTask) (l l' : loop)
    (r : result value) :
  BackgroundTaskM.stop self l = Some (r, self', l') ->
  self' = mkBackgroundTask None.
Proof.
  unfold BackgroundTaskM.stop. destruct (bt_task self) as [t|].
  - destruct (asyncio.done t l); [congruence|].
    destruct (asyncio.cancel t l) as [b l1].
    destruct (asyncio.await t l1) as [[r1 l2]|]; simpl; congruence.
  - congruence.
Qed.

(** Cancelling a pending task and awaiting it: the loop delivers the
    cancellation and the task ends the way its coroutine reacts to it. *)
Lemma cancel_await_pending (t : nat) (l : loop) (tk : task) :
  l !! t = Some tk -> t_outcome tk = None ->
  exists l',
    asyncio.cancel t l =
      (true, <[t := mkTask (t_coro tk) (t_left tk) true None]> l) /\
    asyncio.await t (<[t := mkTask (t_coro tk) (t_left tk) true None]> l)
      = Some (co_cancelled (t_coro tk), l') /\
    l' !! t = Some (mkTask (t_coro tk) (t_left tk) true
                      (Some (co_cancelled (t_coro tk)))) /\
    length l' = length l.
Proof.
  intros Hl Ho. destruct tk as [c rest mc o]. simpl in Ho. subst o.
  assert (Hlt : (t < length l)%nat) by (eapply lookup_lt_Some; eassumption).
  set (l1 := <[t := mkTask c rest true None]> l).
  assert (Hrun : asyncio.run 0 l1 !! t =
                 Some (mkTask c rest true (Some (co_cancelled c)))).
  { unfold asyncio.run, l1.
    rewrite list_lookup_fmap, list_lookup_insert_eq by exact Hlt.
    reflexivity. }
  exists (asyncio.run 0 l1). simpl.
  split; [unfold asyncio.cancel; rewrite Hl; reflexivity|].
  split; [|split; [exact Hrun|]].
  - assert (Hl1 : l1 !! t = Some (mkTask c rest true None))
      by (unfold l1; now rewrite list_lookup_insert_eq by exact Hlt).
    unfold asyncio.await. fold l1. rewrite Hl1. simpl.
    rewrite Hrun. reflexivity.
  - unfold asyncio.run, l1. now rewrite length_map, length_insert.
Qed.




(** C10: [stop] on an idle slot raises [AttributeError] and leaves the
    slot idle, so a [stop] that follows any [stop] raises it too. *)
Theorem stop_idle_raises (l : loop) :
  BackgroundTaskM.stop (mkBackgroundTask None) l =
    Some (Raise AttributeError, mkBackgroundTask None, l) /\
  (forall self r self' l',
     BackgroundTaskM.stop self l = Some (r, self', l') ->
     BackgroundTaskM.stop self' l' = Some (Raise AttributeError, self', l')).
Proof.
  split; [reflexivity|].
  intros self r self' l' H. apply stop_leaves_idle in H as ->. reflexivity.
Qed.

Lemma stop_idle_raises_witness :
  BackgroundTaskM.stop (mkBackgroundTask None)
    [mkTask (BackgroundTaskM.wrap forever) None true
       (Some (Raise CancelledError))]
  = Some (Raise AttributeError, mkBackgroundTask None,
          [mkTask (BackgroundTaskM.wrap forever) None true
             (Some (Raise CancelledError))]).
Proof.
  destruct (stop_idle_raises
              [mkTask (BackgroundTaskM.wrap forever) None false None])
    as (_ & H).
  apply (H (mkBackgroundTask (Some 0%nat)) (Ok VNone)).
  reflexivity.
Defined.

(** ** The cancellable stream wrapper ([CancellableAsyncGenerator]) *)

Lemma iterator_anext_cancelled (it : aiterator) :
  co_cancelled (fst (iterator_anext it)) = Raise CancelledError.
Proof. destruct it as [|[n v] rest]; reflexivity. Qed.

Lemma create_task_lookup (c : coro) (l : loop) :
  snd (asyncio.create_task c l) !! fst (asyncio.create_task c l) =
  Some (mkTask c (co_time c) false None).
Proof.
  unfold asyncio.create_task. simpl.
  rewrite lookup_app_r by lia. now rewrite Nat.sub_diag.
Qed.

(** C4 fails on the code: [aclose] on a wrapper that was never advanced
    reads the attribute [task], which [__init__] did not assign, and
    raises [AttributeError]; the wrapped generator stays open. *)
Theorem aclose_before_first_anext (g : aiterator) (l : loop) :
  CancellableAsyncGeneratorM.aclose (CancellableAsyncGeneratorM.__init__ g) l
  = Some (Raise AttributeError, CancellableAsyncGeneratorM.__init__ g, l).
Proof. reflexivity. Qed.

(** A second [aclose] does nothing. *)
Lemma aclose_closed (self : CancellableAsyncGenerator) (l : loop) :
  gen self = None ->
  CancellableAsyncGeneratorM.aclose self l = Some (Ok VNone, self, l).
Proof.
  intros H. unfold CancellableAsyncGeneratorM.aclose. now rewrite H.
Qed.

(** [__anext__] on a closed wrapper signals the end of the sequence. *)
Lemma anext_closed (self : CancellableAsyncGenerator) (l : loop) :
  gen self = None ->
  CancellableAsyncGeneratorM.__anext__ self l =
  Some (Raise StopAsyncIteration, self, l).
Proof.
  intros H.
  unfold CancellableAsyncGeneratorM.__anext__,
    CancellableAsyncGeneratorM.anext_begin.
  now rewrite H.
Qed.

(** [aclose] while an [__anext__] waits for its task: the task is
    cancelled and done when [aclose] returns, the wrapper is closed, and
    the waiting [__anext__] then ends with [StopAsyncIteration]. *)
Lemma aclose_pending (self : CancellableAsyncGenerator) (g : aiterator)
    (l : loop) :
  gen self = Some g ->
  exists t self1 l1 l2 tk,
    CancellableAsyncGeneratorM.anext_begin self l = (Ok t, self1, l1) /\
    CancellableAsyncGeneratorM.aclose self1 l1 =
      Some (Ok VNone, mkCancellableAsyncGenerator None (Some None), l2) /\
    l2 !! t = Some tk /\
    t_outcome tk = Some (Raise CancelledError) /\
    CancellableAsyncGeneratorM.anext_end
      (mkCancellableAsyncGenerator None (Some None)) (Raise CancelledError)
    = (Raise StopAsyncIteration,
       mkCancellableAsyncGenerator None (Some None)).
Proof.
  intros Hg. unfold CancellableAsyncGeneratorM.anext_begin. rewrite Hg.
  destruct (iterator_anext g) as [c g'] eqn:Hc.
  pose proof (iterator_anext_cancelled g) as Hcan. rewrite Hc in Hcan.
  simpl in Hcan.
  pose proof (create_task_lookup c l) as Hlook.
  destruct (asyncio.create_task c l) as [t l1] eqn:Hct. simpl in Hlook.
  destruct (cancel_await_pending t l1 _ Hlook eq_refl)
    as (l2 & Hcancel & Hawait & Hl2 & _).
  simpl in Hcancel, Hawait, Hl2.
  exists t, (mkCancellableAsyncGenerator (Some g') (Some (Some t))), l1, l2.
  eexists. split; [reflexivity|].
  split; [|split; [exact Hl2 | split; [simpl; now rewrite Hcan | reflexivity]]].
  unfold CancellableAsyncGeneratorM.aclose. cbn [gen cag_task].
  rewrite Hcancel, Hawait. simpl. now rewrite Hcan.
Qed.

(** [aclose] between two advances: a fetch is started only to be
    cancelled and awaited. *)
Lemma aclose_between (g : aiterator) (l : loop) :
  exists l',
    CancellableAsyncGeneratorM.aclose
      (mkCancellableAsyncGenerator (Some g) (Some None)) l =
    Some (Ok VNone, mkCancellableAsyncGenerator None (Some None), l').
Proof.
  unfold CancellableAsyncGeneratorM.aclose. cbn [gen cag_task].
  pose proof (create_task_lookup (fst (iterator_anext g)) l) as Hlook.
  destruct (asyncio.create_task (fst (iterator_anext g)) l) as [t l1].
  simpl in Hlook.
  destruct (cancel_await_pending t l1 _ Hlook eq_refl)
    as (l2 & Hcancel & Hawait & _).
  simpl in Hcancel, Hawait. rewrite Hcancel, Hawait.
  rewrite iterator_anext_cancelled. exists l2. reflexivity.
Qed.

(** ** The timed-next wrapper ([AsyncTimedIterator]) *)

Lemma run_lookup (d t : nat) (l : loop) (tk : task) :
  l !! t = Some tk -> asyncio.run d l !! t = Some (asyncio.task_run d tk).
Proof.
  intros H. unfold asyncio.run. now rewrite list_lookup_fmap, H.
Qed.

Lemma wait_done (t : nat) (timeout : option nat) (l : loop) (tk : task)
    (r : result value) :
  l !! t = Some tk -> t_outcome tk = Some r ->
  asyncio.wait_for_shield t timeout l = Some (r, l).
Proof.
  intros Hl Ho. unfold asyncio.wait_for_shield, asyncio.await.
  destruct timeout; rewrite Hl; simpl; rewrite Ho; reflexivity.
Qed.

Lemma await_pending (t n : nat) (l : loop) (c : coro) :
  l !! t = Some (mkTask c (Some n) false None) ->
  asyncio.await t l = Some (co_result c, asyncio.run n l) /\
  asyncio.run n l !! t =
    Some (mkTask c (Some 0%nat) false (Some (co_result c))).
Proof.
  intros Hl.
  assert (Hrun : asyncio.run n l !! t =
                 Some (mkTask c (Some 0%nat) false (Some (co_result c)))).
  { rewrite (run_lookup _ _ _ _ Hl). simpl.
    now rewrite (proj2 (Nat.leb_le n n)) by lia. }
  split; [|exact Hrun].
  unfold asyncio.await. rewrite Hl. simpl. rewrite Hrun. reflexivity.
Qed.

Lemma wait_in_time (t n : nat) (timeout : option nat) (l : loop) (c : coro) :
  l !! t = Some (mkTask c (Some n) false None) ->
  match timeout with Some d => (n < d)%nat | None => True end ->
  asyncio.wait_for_shield t timeout l = Some (co_result c, asyncio.run n l) /\
  asyncio.run n l !! t =
    Some (mkTask c (Some 0%nat) false (Some (co_result c))).
Proof.
  intros Hl Ht. destruct (await_pending t n l c Hl) as (Ha & Hrun).
  split; [|exact Hrun].
  unfold asyncio.wait_for_shield. destruct timeout as [d|]; [|exact Ha].
  rewrite Hl. simpl. rewrite (proj2 (Nat.ltb_lt n d)) by exact Ht. exact Ha.
Qed.

Lemma wait_timeout (t n d : nat) (l : loop) (c : coro) :
  l !! t = Some (mkTask c (Some n) false None) ->
  (d <= n)%nat ->
  asyncio.wait_for_shield t (Some d) l =
    Some (Raise TimeoutError, asyncio.run d l) /\
  asyncio.run d l !! t =
    Some (if (n <=? d)%nat
          then mkTask c (Some 0%nat) false (Some (co_result c))
          else mkTask c (Some (n - d)%nat) false None).
Proof.
  intros Hl Hd. split.
  - unfold asyncio.wait_for_shield. rewrite Hl. simpl.
    now rewrite (proj2 (Nat.ltb_ge n d)) by exact Hd.
  - rewrite (run_lookup _ _ _ _ Hl). simpl.
    destruct (n <=? d)%nat; reflexivity.
Qed.












Lemma remaining_init (items : aiterator) (timeout : option nat)
    (sentinel : value) (l : loop) :
  ati_remaining (AsyncTimedIteratorM.__init__ items timeout sentinel) l =
  map snd items.
Proof. reflexivity. Qed.


Example consume_slow_then_fast :
  option_map (fun x => fst (fst (fst x)))
    (AsyncTimedIteratorM.consume 8 slow_then_fast []) =
  Some [Sentinel VNone; Fetched (VInt 1); Fetched (VInt 2)].
Proof. reflexivity. Qed.

(** * Further properties of the module *)

(** ** Slicing, silence and concatenation of buffers *)

(** A bound given in frames becomes, in bytes, the same bound scaled by
    the frame width. *)
Lemma slice_bound_frames (fw L dflt : Z) (i : option Z) :
  0 < fw -> 0 <= L ->
  slice_bound (L * fw) (dflt * fw) (py_and i (fun s => s * fw)) =
  slice_bound L dflt i * fw.
Proof.
  intros Hfw HL. destruct i as [v|]; [|reflexivity]. simpl.
  destruct (Z.eqb_spec v 0) as [->|Hv]; simpl.
  - rewrite !Z.min_l by nia. reflexivity.
  - destruct (Z.ltb_spec (v * fw) 0), (Z.ltb_spec v 0); nia.
Qed.

Lemma slice_bound_range (L dflt : Z) (i : option Z) :
  0 <= L -> 0 <= dflt <= L -> 0 <= slice_bound L dflt i <= L.
Proof.
  intros HL Hd. destruct i as [v|]; simpl; [|exact Hd].
  destruct (Z.ltb_spec v 0); lia.
Qed.

Lemma well_framed_frames (a : Audio) :
  well_framed a ->
  exists L, 0 <= L /\
    Z.of_nat (length (data a)) = L * AudioM.framewidth a /\
    AudioM.len a = Ok L.
Proof.
  intros Hwf. pose proof (well_framed_pos _ Hwf) as Hfw.
  pose proof (len_well_framed _ Hwf) as Hlen.
  destruct Hwf as (_ & _ & (k & Hk)). exists k.
  rewrite Hk, Z.div_mul in Hlen by lia. split; [nia|]. split; assumption.
Qed.

(** The bytes of a slice, from its bounds in frames. *)
Lemma getitem_data (a : Audio) (start stop : option Z) (L : Z) :
  0 < AudioM.framewidth a -> 0 <= L ->
  Z.of_nat (length (data a)) = L * AudioM.framewidth a ->
  data (AudioM.__getitem__ a start stop) =
  take (Z.to_nat ((slice_bound L L stop - slice_bound L 0 start)
                  * AudioM.framewidth a))
       (drop (Z.to_nat (slice_bound L 0 start * AudioM.framewidth a))
             (data a)).
Proof.
  intros Hfw HL0 Hbytes.
  unfold AudioM.__getitem__, py_slice. cbn [data AudioM.clone].
  rewrite Hbytes.
  pose proof (slice_bound_frames _ L 0 start Hfw HL0) as H0.
  pose proof (slice_bound_frames _ L L stop Hfw HL0) as H1.
  change (0 * AudioM.framewidth a) with 0 in H0. rewrite H0, H1.
  f_equal. lia.
Qed.

Lemma getitem_well_framed (a : Audio) (start stop : option Z) :
  well_framed a -> well_framed (AudioM.__getitem__ a start stop).
Proof.
  intros Hwf. destruct (well_framed_frames a Hwf) as (L & HL0 & Hbytes & _).
  pose proof (well_framed_pos _ Hwf) as Hfw.
  pose proof (getitem_data a start stop L Hfw HL0 Hbytes) as Hdata.
  pose proof (slice_bound_range L 0 start HL0 ltac:(lia)).
  pose proof (slice_bound_range L L stop HL0 ltac:(lia)).
  destruct Hwf as (Hc & Hw & _). split; [exact Hc|]. split; [exact Hw|].
  change (AudioM.framewidth (AudioM.__getitem__ a start stop))
    with (AudioM.framewidth a).
  rewrite Hdata, length_take, length_drop.
  exists (Z.max 0 (slice_bound L L stop - slice_bound L 0 start)). nia.
Qed.

(** X1: slicing counts in frames.  On a well-framed buffer of [L] frames,
    [a[start:stop]] holds the frames that the same slice takes out of a
    sequence of [L] items: its data are the bytes of those frames, its
    frame count is their number, and it is again well framed, in the same
    format. *)
Theorem getitem_frames (a : Audio) (start stop : option Z) (L : Z) :
  well_framed a -> AudioM.len a = Ok L ->
  let fw := AudioM.framewidth a in
  let lo := slice_bound L 0 start in
  let hi := slice_bound L L stop in
  let s := AudioM.__getitem__ a start stop in
  data s = take (Z.to_nat ((hi - lo) * fw)) (drop (Z.to_nat (lo * fw)) (data a)) /\
  AudioM.len s = Ok (Z.max 0 (hi - lo)) /\
  same_format s a /\ well_framed s.
Proof.
  intros Hwf HL fw lo hi s.
  destruct (well_framed_frames a Hwf) as (L' & HL0 & Hbytes & HL').
  rewrite HL in HL'. injection HL' as <-.
  pose proof (well_framed_pos _ Hwf) as Hfw. fold fw in Hfw, Hbytes.
  assert (Hlo : 0 <= lo <= L) by (apply slice_bound_range; lia).
  assert (Hhi : 0 <= hi <= L) by (apply slice_bound_range; lia).
  pose proof (getitem_data a start stop L Hfw HL0 Hbytes) as Hdata.
  fold fw lo hi s in Hdata.
  assert (Hlen : Z.of_nat (length (data s)) = Z.max 0 (hi - lo) * fw).
  { rewrite Hdata, length_take, length_drop. nia. }
  split; [exact Hdata|].
  pose proof (getitem_well_framed a start stop Hwf) as Hwfs. fold s in Hwfs.
  split; [|split; [repeat split | exact Hwfs]].
  rewrite (len_well_framed _ Hwfs).
  change (AudioM.framewidth s) with fw. rewrite Hlen, Z.div_mul by lia.
  reflexivity.
Qed.

Lemma pcm3_well_framed : well_framed pcm3.
Proof.
  split; [reflexivity|]. split; [reflexivity|]. exists 3. reflexivity.
Qed.

Lemma getitem_frames_witness :
  data (AudioM.__getitem__ pcm3 (Some (-2)) None) = [x02; x00; x03; x00] /\
  AudioM.len (AudioM.__getitem__ pcm3 (Some (-2)) None) = Ok 2.
Proof.
  destruct (getitem_frames pcm3 (Some (-2)) None 3 pcm3_well_framed eq_refl)
    as (Hd & Hl & _).
  split; [exact Hd | exact Hl].
Defined.

(** X2: cutting a buffer at any frame index and concatenating the two
    parts gives the buffer back, whatever the index (negative, zero or
    past the end) and whatever the buffer. *)
Theorem getitem_split_add (a : Audio) (n : Z) :
  AudioM.__add__ (AudioM.__getitem__ a None (Some n))
                 (AudioM.__getitem__ a (Some n) None) = Ok a.
Proof.
  unfold AudioM.__add__, AudioM.__getitem__. cbn [channels width rate data AudioM.clone].
  rewrite !Z.eqb_refl. cbn [negb orb]. destruct a as [c w r d].
  unfold AudioM.clone. cbn [channels width rate data]. f_equal. f_equal.
  unfold py_slice. cbn [slice_bound py_and].
  set (len := Z.of_nat (length d)).
  set (b := slice_bound len len
              (if n =? 0 then Some 0 else Some (n * AudioM.framewidth (mkAudio c w r d)))).
  assert (Hb : slice_bound len 0
                 (if n =? 0 then Some 0
                  else Some (n * AudioM.framewidth (mkAudio c w r d))) = b).
  { unfold b. destruct (n =? 0); reflexivity. }
  rewrite Hb.
  assert (Hr : 0 <= b <= len).
  { unfold b. apply slice_bound_range; unfold len; lia. }
  change (Z.to_nat 0) with 0%nat. rewrite drop_0, Z.sub_0_r.
  rewrite (take_ge (drop _ _)) by (rewrite length_drop; unfold len in *; lia).
  apply take_drop.
Qed.

(** X3: [silence] gives a well-framed buffer of the same format, made of
    zero bytes only, of [frames] frames, and of no frame at all when
    [frames] is negative. *)
Theorem silence_frames (a : Audio) (n : Z) :
  0 < channels a -> 0 < width a ->
  same_format (AudioM.silence a n) a /\
  well_framed (AudioM.silence a n) /\
  Forall (eq x00) (data (AudioM.silence a n)) /\
  AudioM.len (AudioM.silence a n) = Ok (Z.max 0 n).
Proof.
  intros Hc Hw.
  assert (Hfw : 0 < AudioM.framewidth a) by (unfold AudioM.framewidth; nia).
  assert (Hlen : Z.of_nat (length (data (AudioM.silence a n))) =
                 Z.max 0 n * AudioM.framewidth a).
  { unfold AudioM.silence. cbn [data AudioM.clone].
    rewrite length_replicate. nia. }
  assert (Hwf : well_framed (AudioM.silence a n)).
  { split; [exact Hc|]. split; [exact Hw|].
    change (AudioM.framewidth (AudioM.silence a n))
      with (AudioM.framewidth a).
    rewrite Hlen. exists (Z.max 0 n). reflexivity. }
  split; [repeat split|]. split; [exact Hwf|]. split.
  - unfold AudioM.silence. cbn [data AudioM.clone].
    apply Forall_forall. intros x Hx.
    apply elem_of_replicate in Hx as [-> _]. reflexivity.
  - rewrite (len_well_framed _ Hwf).
    change (AudioM.framewidth (AudioM.silence a n))
      with (AudioM.framewidth a).
    rewrite Hlen, Z.div_mul by lia. reflexivity.
Qed.

Lemma silence_frames_witness :
  AudioM.len (AudioM.silence pcm3 5) = Ok 5 /\
  AudioM.len (AudioM.silence pcm3 (-5)) = Ok 0.
Proof.
  split.
  - apply (silence_frames pcm3 5); reflexivity.
  - apply (silence_frames pcm3 (-5)); reflexivity.
Defined.

(** X4: a format without channels or without sample width has no frame
    count: [len], the truth value and [duration] all raise
    [ZeroDivisionError], and so do [size_limit], before it yields
    anything, and [rate_limit], after it has yielded the packet.  A
    well-framed buffer with rate [0] has a frame count but no duration. *)
Theorem zero_framewidth_raises (a : Audio) :
  (AudioM.framewidth a = 0 ->
   AudioM.len a = Raise ZeroDivisionError /\
   AudioM.__bool__ a = Raise ZeroDivisionError /\
   AudioM.duration a = Raise ZeroDivisionError /\
   (forall fuel rest size,
      size_limit (S fuel) (a :: rest) size =
      Some ([], Raise ZeroDivisionError)) /\
   (forall clock rest,
      yields (fst (rate_limit clock (a :: rest))) = [a] /\
      snd (rate_limit clock (a :: rest)) = Raise ZeroDivisionError)) /\
  (well_framed a -> rate a = 0 ->
   (exists L, AudioM.len a = Ok L) /\
   AudioM.duration a = Raise ZeroDivisionError).
Proof.
  split.
  - intros Hfw.
    assert (Hlen : AudioM.len a = Raise ZeroDivisionError).
    { unfold AudioM.len, AudioM.__len__, py_floordiv. rewrite Hfw.
      reflexivity. }
    assert (Hd : AudioM.duration a = Raise ZeroDivisionError)
      by (unfold AudioM.duration; rewrite Hlen; reflexivity).
    split; [exact Hlen|].
    split; [unfold AudioM.__bool__; rewrite Hlen; reflexivity|].
    split; [exact Hd|]. split.
    + intros fuel rest size. unfold size_limit.
      cbn [size_limit_for truthy mbind result_bind rbind].
      cbn [size_limit_while]. rewrite Hlen. reflexivity.
    + intros clock rest. unfold rate_limit. cbn [rate_limit_for].
      rewrite Hd. split; reflexivity.
  - intros Hwf Hr. destruct (well_framed_frames a Hwf) as (L & _ & _ & HL).
    split; [eauto|]. unfold AudioM.duration. rewrite HL, Hr. reflexivity.
Qed.

Lemma zero_framewidth_raises_witness :
  AudioM.len (mkAudio 0 2 8000 [x01; x02]) = Raise ZeroDivisionError /\
  AudioM.duration (mkAudio 1 2 0 [x01; x02]) = Raise ZeroDivisionError.
Proof.
  split.
  - apply (zero_framewidth_raises (mkAudio 0 2 8000 [x01; x02])).
    reflexivity.
  - apply (zero_framewidth_raises (mkAudio 1 2 0 [x01; x02]));
      [|reflexivity].
    split; [reflexivity|]. split; [reflexivity|]. exists 1. reflexivity.
Defined.

(** X5: concatenation is associative, failures included: both groupings
    of three buffers raise [ValueError] or both give the same buffer. *)
Theorem add_assoc (a b c : Audio) :
  (ab ← AudioM.__add__ a b; AudioM.__add__ ab c) =
  (bc ← AudioM.__add__ b c; AudioM.__add__ a bc).
Proof.
  unfold AudioM.__add__.
  destruct (Z.eqb_spec (channels b) (channels a)),
    (Z.eqb_spec (width b) (width a)), (Z.eqb_spec (rate b) (rate a)),
    (Z.eqb_spec (channels c) (channels b)),
    (Z.eqb_spec (width c) (width b)), (Z.eqb_spec (rate c) (rate b));
    cbn [negb orb mbind result_bind rbind channels width rate data
         AudioM.clone];
    repeat match goal with
      | |- context [Z.eqb ?x ?y] => destruct (Z.eqb_spec x y)
      end;
    cbn [negb orb]; try reflexivity; try congruence.
  unfold AudioM.clone. cbn [data]. now rewrite app_assoc.
Qed.

(** ** Mixing, sample by sample *)

Lemma sample_range (w : nat) :
  (1 <= w)%nat ->
  0 < 2 ^ (8 * Z.of_nat w - 1) /\
  2 ^ (8 * Z.of_nat w) = 2 * 2 ^ (8 * Z.of_nat w - 1) /\
  256 ^ Z.of_nat w = 2 ^ (8 * Z.of_nat w).
Proof.
  intros Hw. split; [apply Z.pow_pos_nonneg; lia|]. split.
  - rewrite <- Z.pow_succ_r by lia. f_equal. lia.
  - change 256 with (2 ^ 8). rewrite <- Z.pow_mul_r by lia. reflexivity.
Qed.

Lemma length_setsample (w : nat) (v : Z) :
  length (audioop.setsample w v) = w.
Proof. apply length_le_encode. Qed.

(** A sample within the range of the width is read back as written. *)
Lemma getsample_setsample (w : nat) (v : Z) :
  (1 <= w)%nat -> audioop.minval w <= v <= audioop.maxval w ->
  audioop.getsample w (audioop.setsample w v) = v.
Proof.
  intros Hw. unfold audioop.minval, audioop.maxval.
  destruct (sample_range w Hw) as (Hpos & Hdouble & H256).
  intros Hv. unfold audioop.getsample, audioop.setsample.
  set (h := 2 ^ (8 * Z.of_nat w - 1)) in *.
  rewrite le_decode_encode
    by (rewrite H256; apply Z.mod_pos_bound; lia).
  rewrite Hdouble.
  destruct (Z.le_gt_cases 0 v).
  - rewrite Z.mod_small by lia.
    destruct (Z.ltb_spec v h); lia.
  - replace (v mod (2 * h)) with (v + 2 * h)
      by (apply (Z.mod_unique_pos _ _ (-1)); lia).
    destruct (Z.ltb_spec (v + 2 * h) h); lia.
Qed.

Lemma clip_range (w : nat) (v : Z) :
  (1 <= w)%nat ->
  audioop.minval w <= audioop.clip w v <= audioop.maxval w.
Proof.
  intros Hw. destruct (sample_range w Hw) as (Hpos & _).
  unfold audioop.clip, audioop.minval, audioop.maxval. lia.
Qed.

Lemma length_add_samples (n w : nat) :
  forall d1 d2, length (audioop.add_samples n w d1 d2) = (n * w)%nat.
Proof.
  induction n as [|n IH]; intros d1 d2; [reflexivity|].
  cbn [audioop.add_samples]. rewrite length_app, length_setsample, IH. lia.
Qed.

Lemma samples_add_samples (n w : nat) :
  (1 <= w)%nat ->
  forall d1 d2,
    audioop.samples n w (audioop.add_samples n w d1 d2) =
    zip_with (fun x y => audioop.clip w (x + y))
      (audioop.samples n w d1) (audioop.samples n w d2).
Proof.
  intros Hw. induction n as [|n IH]; intros d1 d2; [reflexivity|].
  cbn [audioop.add_samples audioop.samples zip_with].
  rewrite take_app_length' by (now rewrite length_setsample).
  rewrite drop_app_length' by (now rewrite length_setsample).
  rewrite getsample_setsample by (auto using clip_range).
  now rewrite IH.
Qed.

(** How [audioop.add] ends, from its arguments. *)
Lemma audioop_add_cases (d1 d2 : list byte) (width : Z) :
  (1 <= width <= 4 /\
   (width | Z.of_nat (length d1)) /\ length d1 = length d2 /\
   audioop.add d1 d2 width =
     Ok (audioop.add_samples (length d1 / Z.to_nat width) (Z.to_nat width)
           d1 d2)) \/
  (~ (1 <= width <= 4 /\
      (width | Z.of_nat (length d1)) /\ length d1 = length d2) /\
   (audioop.add d1 d2 width = Raise AudioopError \/
    audioop.add d1 d2 width = Raise OverflowError)).
Proof.
  unfold audioop.add.
  destruct (Z.ltb_spec width (- 2 ^ 31)); [right; split; [lia | auto]|].
  destruct (Z.leb_spec (2 ^ 31) width); [right; split; [lia | auto]|].
  destruct (Z.ltb_spec width 1); [right; split; [lia | auto]|].
  destruct (Z.ltb_spec 4 width); [right; split; [lia | auto]|].
  cbn [orb].
  destruct (Z.eqb_spec (Z.of_nat (length d1) mod width) 0) as [Hm|Hm];
    cbn [negb].
  - destruct (Nat.eqb_spec (length d1) (length d2)) as [Hl|Hl]; cbn [negb].
    + left. split; [lia|]. split; [|split; [exact Hl | reflexivity]].
      apply Z.mod_divide; [lia | exact Hm].
    + right. split; [tauto | auto].
  - right. split; [|auto]. intros (_ & Hd & _).
    apply Z.mod_divide in Hd; lia.
Qed.

(** X6: [combine] gives a buffer exactly when the sample width of [self]
    is 1 to 4 bytes, divides its data length, and both data have the same
    length; otherwise it raises ([audioop.error], or [OverflowError] for a
    width beyond a C int).  The buffer it gives has the format and the
    data length of [self]. *)
Theorem combine_cases (a b : Audio) :
  ((exists r, AudioM.combine a b = Ok r) <->
   1 <= width a <= 4 /\
   (width a | Z.of_nat (length (data a))) /\
   length (data a) = length (data b)) /\
  (forall e, AudioM.combine a b = Raise e ->
             e = AudioopError \/ e = OverflowError) /\
  (forall r, AudioM.combine a b = Ok r ->
             same_format r a /\ length (data r) = length (data a)).
Proof.
  unfold AudioM.combine.
  destruct (audioop_add_cases (data a) (data b) (width a))
    as [(Hw & Hd & Hl & ->)|(Hn & [-> | ->])];
    cbn [mbind result_bind rbind].
  - split; [split; [auto | eauto]|]. split; [discriminate|].
    intros r [= <-]. split; [repeat split|]. cbn [data AudioM.clone].
    rewrite length_add_samples. destruct Hd as (k & Hk).
    assert (Hk' : length (data a) = (Z.to_nat k * Z.to_nat (width a))%nat)
      by nia.
    rewrite Hk', Nat.div_mul by lia. reflexivity.
  - split; [split; [intros (r & Hr); discriminate | tauto]|].
    split; [intros e [= <-]; auto | discriminate].
  - split; [split; [intros (r & Hr); discriminate | tauto]|].
    split; [intros e [= <-]; auto | discriminate].
Qed.

Lemma combine_cases_witness :
  same_format (mkAudio 1 2 8000 [x03; x00]) one_8k /\
  length (data (mkAudio 1 2 8000 [x03; x00])) = length (data one_8k).
Proof.
  apply (combine_cases one_8k two_16k). reflexivity.
Defined.

(** X7: the samples of a mix are the sums of the operands' samples,
    saturated to the range of the sample width; so the data of [a] mixed
    with [b] and of [b] mixed with [a] are the same when the widths
    agree. *)
Theorem combine_samples (a b r : Audio) :
  AudioM.combine a b = Ok r ->
  let w := Z.to_nat (width a) in
  let n := (length (data a) / w)%nat in
  audioop.samples n w (data r) =
    zip_with (fun x y => audioop.clip w (x + y))
      (audioop.samples n w (data a)) (audioop.samples n w (data b)) /\
  Forall (fun s => audioop.minval w <= s <= audioop.maxval w)
    (audioop.samples n w (data r)) /\
  (width b = width a ->
   exists r', AudioM.combine b a = Ok r' /\ data r' = data r).
Proof.
  intros Hr w n. unfold AudioM.combine in Hr |- *.
  destruct (audioop_add_cases (data a) (data b) (width a))
    as [(Hw & Hd & Hl & Hadd)|(Hn & [Hadd | Hadd])];
    rewrite Hadd in Hr; cbn [mbind result_bind rbind] in Hr;
    try discriminate.
  injection Hr as <-. cbn [data AudioM.clone]. fold w n.
  assert (Hw1 : (1 <= w)%nat) by (unfold w; lia).
  pose proof (samples_add_samples n w Hw1 (data a) (data b)) as Hs.
  split; [exact Hs|]. split.
  - rewrite Hs. apply Forall_forall. intros s Hin.
    apply elem_of_lookup_zip_with in Hin as (i & x & y & -> & _ & _).
    now apply clip_range.
  - intros Hwb. rewrite Hwb.
    destruct (audioop_add_cases (data b) (data a) (width a))
      as [(_ & _ & _ & ->)|(Hn & _)].
    + eexists. split; [reflexivity|]. cbn [data AudioM.clone].
      rewrite <- Hl. fold w n.
      clear. generalize (data a) (data b).
      induction n as [|n IH]; intros d1 d2; [reflexivity|].
      cbn [audioop.add_samples]. rewrite (Z.add_comm _ _), IH. reflexivity.
    + exfalso. apply Hn. rewrite <- Hl. auto.
Qed.

Lemma combine_samples_witness :
  audioop.samples 1 2 [x03; x00] =
  zip_with (fun x y => audioop.clip 2 (x + y))
    (audioop.samples 1 2 [x01; x00]) (audioop.samples 1 2 [x02; x00]).
Proof.
  apply (combine_samples one_8k two_16k (mkAudio 1 2 8000 [x03; x00])).
  reflexivity.
Defined.

(** ** More on chunked delivery *)

(** X8: with a chunk size of zero or less, [size_limit] never finishes
    once a well-framed packet has arrived: no number of turns of its
    [while] loop is enough. *)
Theorem size_limit_nonpositive (p : Audio) (rest : list Audio) (size : Z) :
  size <= 0 -> well_framed p ->
  forall fuel, size_limit fuel (p :: rest) size = None.
Proof.
  intros Hsize Hwf fuel.
  assert (Hwhile : forall buf, well_framed buf ->
                     size_limit_while fuel buf size = None).
  { induction fuel as [|fuel IH]; intros buf Hbuf; [reflexivity|].
    destruct (well_framed_frames buf Hbuf) as (L & HL0 & _ & HL).
    cbn [size_limit_while]. rewrite HL.
    destruct (Z.leb_spec size L); [|lia].
    rewrite IH by (now apply getitem_well_framed). reflexivity. }
  unfold size_limit. cbn [size_limit_for truthy mbind result_bind rbind].
  rewrite (Hwhile p Hwf). reflexivity.
Qed.

Lemma size_limit_nonpositive_witness :
  size_limit 1000 [pcm3; pcm2] 0 = None.
Proof.
  apply (size_limit_nonpositive pcm3 [pcm2] 0); [lia|].
  exact pcm3_well_framed.
Defined.

(** The [for] loop over two inputs in a row: the second part goes on from
    the buffer the first part left. *)
Lemma size_limit_for_app (fuel : nat) (size : Z) (ps qs : list Audio) :
  forall buf,
    size_limit_for fuel buf (ps ++ qs) size =
    match size_limit_for fuel buf ps size with
    | None => None
    | Some (ys, Raise e) => Some (ys, Raise e)
    | Some (ys, Ok buf') =>
        match size_limit_for fuel buf' qs size with
        | None => None
        | Some (zs, r) => Some (ys ++ zs, r)
        end
    end.
Proof.
  induction ps as [|p ps IH]; intros buf.
  - cbn [app size_limit_for].
    destruct (size_limit_for fuel buf qs size) as [[zs r]|]; reflexivity.
  - cbn [app size_limit_for].
    destruct (t ← truthy buf;
              if t : bool
              then match buf with
                   | Some b => AudioM.__add__ b p
                   | None => Ok p
                   end
              else Ok p) as [j|e]; [|reflexivity].
    destruct (size_limit_while fuel j size) as [[ys [b'|e]]|];
      [|reflexivity..].
    rewrite IH.
    destruct (size_limit_for fuel (Some b') ps size) as [[ys' [buf'|e]]|];
      [|reflexivity..].
    destruct (size_limit_for fuel buf' qs size) as [[zs r]|];
      [|reflexivity].
    now rewrite app_assoc.
Qed.

(** A pending buffer without a frame is as good as none. *)
Lemma size_limit_empty_pending (fuel : nat) (size : Z) (buf : option Audio)
    (qs : list Audio) :
  truthy buf = Ok false ->
  match size_limit_for fuel buf qs size with
  | None => None
  | Some (ys, Raise e) => Some (ys, Raise e)
  | Some (ys, Ok buf) =>
      match truthy buf, buf with
      | Raise e, _ => Some (ys, Raise e)
      | Ok true, Some b => Some (ys ++ [b], Ok tt)
      | Ok _, _ => Some (ys, Ok tt)
      end
  end = size_limit fuel qs size.
Proof.
  intros Hbuf. unfold size_limit. destruct qs as [|q qs].
  - cbn [size_limit_for truthy]. rewrite Hbuf. destruct buf; reflexivity.
  - cbn [size_limit_for truthy]. rewrite Hbuf.
    cbn [mbind result_bind rbind]. reflexivity.
Qed.

(** What the loop has done when a stream of [D] frames ends: the full
    chunks are out and [D mod size] frames are pending. *)
Lemma size_limit_for_stream (fmt : Audio) (size : Z) (fuel : nat)
    (ps : list Audio) :
  0 < size -> 0 < AudioM.framewidth fmt ->
  Forall (stream_buffer fmt) ps ->
  (length (all_data ps) < fuel)%nat ->
  exists cs buf',
    size_limit_for fuel None ps size = Some (cs, Ok buf') /\
    Forall (exact_chunk fmt size) cs /\
    Z.of_nat (length cs) = total_frames ps / size /\
    pending fmt size buf' /\
    Z.of_nat (length (pending_data buf')) =
      (total_frames ps mod size) * AudioM.framewidth fmt.
Proof.
  intros Hsize Hfw Hps Hfuel.
  destruct (size_limit_for_spec fmt size Hsize Hfw ps fuel None I Hps)
    as (cs & buf' & Hrun & Hdata & Hcs & Hrem); [simpl; lia|].
  exists cs, buf'. split; [exact Hrun|]. split; [exact Hcs|].
  pose proof (total_frames_bytes _ _ Hps) as Hbytes.
  pose proof (all_data_exact_length _ _ _ Hcs) as Hlen.
  simpl in Hdata. apply (f_equal length) in Hdata.
  rewrite length_app in Hdata.
  assert (Hk : exists k, 0 <= k < size /\
             Z.of_nat (length (pending_data buf')) =
             k * AudioM.framewidth fmt).
  { destruct buf' as [b'|]; [|exists 0; simpl; lia].
    destruct Hrem as ((Hs & (_ & _ & (k & Hk))) & Hlt).
    rewrite (same_format_framewidth _ _ Hs) in Hk.
    exists k. simpl. split; [nia | exact Hk]. }
  destruct Hk as (k & Hk & Hpend).
  assert (HD : total_frames ps = Z.of_nat (length cs) * size + k) by nia.
  assert (Hq : total_frames ps / size = Z.of_nat (length cs))
    by (symmetry; apply (Z.div_unique_pos _ size _ k); lia).
  assert (Hm : total_frames ps mod size = k)
    by (symmetry;
        apply (Z.mod_unique_pos _ size (Z.of_nat (length cs)) k); lia).
  rewrite Hq, Hm. auto.
Qed.

(** X9: chunking starts afresh at a chunk boundary.  When a stream of
    same-format, well-framed buffers holds a whole number of chunks, what
    [size_limit] yields for that stream followed by any other input is
    the chunks of the stream followed by what it yields for the other
    input alone, whose format need not be the same. *)
Theorem size_limit_app_boundary (fmt : Audio) (ps : list Audio) (size : Z)
    (fuel : nat) :
  0 < size ->
  Forall (stream_buffer fmt) ps ->
  total_frames ps mod size = 0 ->
  (length (all_data ps) < fuel)%nat ->
  exists cs,
    size_limit fuel ps size = Some (cs, Ok tt) /\
    forall qs,
      size_limit fuel (ps ++ qs) size =
      match size_limit fuel qs size with
      | None => None
      | Some (zs, r) => Some (cs ++ zs, r)
      end.
Proof.
  intros Hsize Hps Hmod Hfuel.
  destruct ps as [|p0 ps0].
  { exists []. split; [reflexivity|]. intros qs. cbn [app].
    destruct (size_limit fuel qs size) as [[zs r]|]; reflexivity. }
  assert (Hfw : 0 < AudioM.framewidth fmt).
  { apply Forall_cons in Hps as [(Hs & Hwf) _].
    rewrite <- (same_format_framewidth _ _ Hs). now apply well_framed_pos. }
  destruct (size_limit_for_stream fmt size fuel _ Hsize Hfw Hps Hfuel)
    as (cs & buf' & Hrun & _ & _ & Hpend & Hlen).
  rewrite Hmod in Hlen.
  assert (Hfalse : truthy buf' = Ok false).
  { destruct buf' as [b'|]; [|reflexivity]. simpl.
    destruct (remainder_truthy fmt size Hfw b' Hpend) as (-> & _).
    simpl in Hlen. replace (length (data b')) with 0%nat by lia.
    reflexivity. }
  exists cs. split.
  - unfold size_limit. rewrite Hrun, Hfalse. destruct buf'; reflexivity.
  - intros qs. unfold size_limit at 1.
    rewrite size_limit_for_app, Hrun.
    rewrite <- (size_limit_empty_pending fuel size buf' qs Hfalse).
    destruct (size_limit_for fuel buf' qs size) as [[zs [buf''|e]]|];
      [|reflexivity..].
    destruct (truthy buf'') as [[|]|e], buf''; try reflexivity.
    now rewrite app_assoc.
Qed.

Lemma pcm2_stream : Forall (stream_buffer pcm2) [pcm2].
Proof.
  repeat constructor; unfold AudioM.framewidth; simpl.
  exists 2; reflexivity.
Qed.

Lemma size_limit_app_boundary_witness :
  exists cs,
    size_limit 5 [pcm2] 2 = Some (cs, Ok tt) /\
    forall qs,
      size_limit 5 ([pcm2] ++ qs) 2 =
      match size_limit 5 qs 2 with
      | None => None
      | Some (zs, r) => Some (cs ++ zs, r)
      end.
Proof.
  apply (size_limit_app_boundary pcm2 [pcm2] 2 5);
    [lia | exact pcm2_stream | reflexivity | simpl; lia].
Defined.

(** X10: a packet of another format is refused only when frames are
    pending.  After a stream of same-format, well-framed buffers that does
    not end on a chunk boundary, a packet whose format differs makes
    [size_limit] raise [ValueError], once the full chunks of the stream
    are out; the pending frames are never yielded. *)
Theorem size_limit_format_mismatch (fmt q : Audio) (ps rest : list Audio)
    (size : Z) (fuel : nat) :
  0 < size ->
  Forall (stream_buffer fmt) ps ->
  total_frames ps mod size <> 0 ->
  ~ same_format q fmt ->
  (length (all_data ps) < fuel)%nat ->
  exists cs,
    size_limit fuel (ps ++ q :: rest) size = Some (cs, Raise ValueError) /\
    Z.of_nat (length cs) = total_frames ps / size /\
    Forall (fun c => same_format c fmt /\ AudioM.len c = Ok size) cs /\
    all_data cs =
      take (Z.to_nat (total_frames ps / size * size * AudioM.framewidth fmt))
           (all_data ps).
Proof.
  intros Hsize Hps Hmod Hq Hfuel.
  destruct ps as [|p0 ps0];
    [simpl in Hmod; rewrite Zmod_0_l in Hmod; congruence|].
  assert (Hfw : 0 < AudioM.framewidth fmt).
  { apply Forall_cons in Hps as [(Hs & Hwf) _].
    rewrite <- (same_format_framewidth _ _ Hs). now apply well_framed_pos. }
  destruct (size_limit_for_spec fmt size Hsize Hfw _ fuel None I Hps)
    as (cs0 & buf0 & Hrun0 & Hdata & _); [simpl; lia|].
  destruct (size_limit_for_stream fmt size fuel _ Hsize Hfw Hps Hfuel)
    as (cs & buf' & Hrun & Hcs & Hlen & Hpend & Hplen).
  rewrite Hrun in Hrun0. injection Hrun0 as <- <-. simpl in Hdata.
  exists cs.
  assert (Hfull : Forall (fun c => same_format c fmt /\
                                   AudioM.len c = Ok size) cs).
  { eapply Forall_impl; [exact Hcs|]. intros c Hc. split; [apply Hc|].
    apply (exact_chunk_len fmt); [assumption | lia | exact Hc]. }
  split; [|split; [exact Hlen | split; [exact Hfull|]]].
  - unfold size_limit. rewrite size_limit_for_app, Hrun.
    destruct buf' as [b'|]; [|cbn [pending_data length] in Hplen; nia].
    destruct (remainder_truthy fmt size Hfw b' Hpend) as (Ht & _).
    assert (Hpos : (0 <? Z.of_nat (length (data b')) / AudioM.framewidth fmt)
                   = true).
    { cbn [pending_data] in Hplen. rewrite Hplen, Z.div_mul by lia.
      pose proof (Z.mod_pos_bound (total_frames (p0 :: ps0)) size Hsize).
      apply Z.ltb_lt. lia. }
    cbn [size_limit_for truthy]. rewrite Ht, Hpos.
    cbn [mbind result_bind rbind].
    assert (Hadd : AudioM.__add__ b' q = Raise ValueError).
    { apply add_raises_iff. intros (H1 & H2 & H3). apply Hq.
      destruct Hpend as (((H4 & H5 & H6) & _) & _).
      repeat split; congruence. }
    rewrite Hadd. now rewrite app_nil_r.
  - pose proof (all_data_exact_length _ _ _ Hcs) as Hcslen.
    rewrite <- Hdata, take_app_length'; [reflexivity|].
    rewrite <- Hlen. lia.
Qed.

Lemma size_limit_format_mismatch_witness :
  exists cs,
    size_limit 11 ([pcm3] ++ [two_16k]) 2 = Some (cs, Raise ValueError) /\
    Z.of_nat (length cs) = total_frames [pcm3] / 2 /\
    Forall (fun c => same_format c pcm3 /\ AudioM.len c = Ok 2) cs /\
    all_data cs =
      take (Z.to_nat (total_frames [pcm3] / 2 * 2 * AudioM.framewidth pcm3))
           (all_data [pcm3]).
Proof.
  apply (size_limit_format_mismatch pcm3 two_16k [pcm3] [] 2 11).
  - lia.
  - repeat constructor. exact (proj2 (proj2 pcm3_well_framed)).
  - discriminate.
  - intros (_ & _ & H). discriminate H.
  - simpl. lia.
Defined.

(** ** More on real-time pacing *)

(** The loop of [rate_limit] on packets that all have a duration: a yield
    and a sleep for each packet, in turn. *)
Lemma rate_limit_for_paced (clock : nat -> float) (packets : list Audio) :
  Forall (fun p => exists d, AudioM.duration p = Ok d) packets ->
  forall reads w packet,
    exists delays,
      length delays = length packets /\
      rate_limit_for clock reads w packet packets =
        (paced packets delays, Ok (last_default packet packets)).
Proof.
  induction 1 as [|p ps (d & Hd) _ IH]; intros reads w packet.
  - exists []. split; reflexivity.
  - destruct (IH (S reads) (w + d)%float (Some p)) as (ds & Hlen & Hrun).
    exists ((w + d - clock reads)%float :: ds).
    split; [simpl; now rewrite Hlen|].
    cbn [rate_limit_for paced]. rewrite Hd, Hrun.
    f_equal. f_equal. unfold last_default. rewrite last_cons.
    destruct (last ps); reflexivity.
Qed.

Lemma yields_paced (packets : list Audio) :
  forall delays, length delays = length packets ->
    yields (paced packets delays) = packets.
Proof.
  induction packets as [|p ps IH]; intros [|d ds] Hlen; try discriminate;
    [reflexivity|].
  injection Hlen as Hlen. cbn [paced].
  change (yields (Yield p :: Sleep d :: paced ps ds))
    with (p :: yields (paced ps ds)).
  now rewrite (IH ds Hlen).
Qed.

(** X11: on a non-empty input whose packets all have a duration,
    [rate_limit] ends normally after it has yielded every packet, each
    followed by one sleep before the next is asked for; when the last
    packet holds at least one frame it is yielded once more at the end,
    without a sleep. *)
Theorem rate_limit_paced (clock : nat -> float) (packets : list Audio)
    (p : Audio) :
  Forall (fun p => exists d, AudioM.duration p = Ok d) packets ->
  last packets = Some p ->
  exists delays n,
    length delays = length packets /\
    AudioM.len p = Ok n /\
    rate_limit clock packets =
      (paced packets delays ++ (if 0 <? n then [Yield p] else []), Ok tt) /\
    yields (fst (rate_limit clock packets)) =
      packets ++ (if 0 <? n then [p] else []).
Proof.
  intros Hall Hlast.
  destruct (rate_limit_for_paced clock packets Hall 1%nat (clock 0%nat) None)
    as (ds & Hlen & Hrun).
  unfold last_default in Hrun. rewrite Hlast in Hrun.
  assert (Hp : exists d, AudioM.duration p = Ok d).
  { rewrite Forall_forall in Hall. apply Hall.
    apply last_Some in Hlast as (l' & ->).
    apply elem_of_app. right. apply list_elem_of_singleton. reflexivity. }
  destruct Hp as (d & Hd). destruct (duration_bool _ _ Hd) as (n & Hn & Hb).
  assert (Hrl : rate_limit clock packets =
    (paced packets ds ++ (if 0 <? n then [Yield p] else []), Ok tt)).
  { unfold rate_limit. rewrite Hrun, Hb.
    destruct (0 <? n); [reflexivity | now rewrite app_nil_r]. }
  exists ds, n. split_and!; try done.
  rewrite Hrl. cbn [fst]. unfold yields. rewrite omap_app.
  fold (yields (paced packets ds)). rewrite (yields_paced _ _ Hlen).
  destruct (0 <? n); reflexivity.
Qed.

Lemma rate_limit_paced_witness :
  exists delays n,
    length delays = length [pcm3; pcm2] /\
    AudioM.len pcm2 = Ok n /\
    rate_limit (fun _ => 0%float) [pcm3; pcm2] =
      (paced [pcm3; pcm2] delays ++ (if 0 <? n then [Yield pcm2] else []),
       Ok tt) /\
    yields (fst (rate_limit (fun _ => 0%float) [pcm3; pcm2])) =
      [pcm3; pcm2] ++ (if 0 <? n then [pcm2] else []).
Proof.
  apply (rate_limit_paced (fun _ => 0%float) [pcm3; pcm2] pcm2).
  - repeat constructor; eexists; vm_compute; reflexivity.
  - reflexivity.
Defined.

(** The loop of [rate_limit] up to a packet without a duration. *)
Lemma rate_limit_for_bad (clock : nat -> float) (ps : list Audio) :
  Forall (fun p => exists d, AudioM.duration p = Ok d) ps ->
  forall reads w packet q rest e,
    AudioM.duration q = Raise e ->
    exists delays,
      length delays = length ps /\
      rate_limit_for clock reads w packet (ps ++ q :: rest) =
        (paced ps delays ++ [Yield q], Raise e).
Proof.
  induction 1 as [|p ps (d & Hd) _ IH]; intros reads w packet q rest e Hq.
  - exists []. split; [reflexivity|]. cbn [app rate_limit_for paced].
    now rewrite Hq.
  - destruct (IH (S reads) (w + d)%float (Some p) q rest e Hq)
      as (ds & Hlen & Hrun).
    exists ((w + d - clock reads)%float :: ds).
    split; [simpl; now rewrite Hlen|].
    rewrite <- app_comm_cons. cbn [rate_limit_for paced].
    rewrite Hd, Hrun. reflexivity.
Qed.

(** X12: a packet without a duration (no frame width, no rate, or a
    quotient beyond the floats) ends [rate_limit] with the exception of
    its [duration], but only after the packet itself has been yielded;
    the packets before it were paced as usual, those after it are never
    asked for, and nothing is yielded a second time. *)
Theorem rate_limit_bad_packet (clock : nat -> float) (ps rest : list Audio)
    (q : Audio) (e : exn) :
  Forall (fun p => exists d, AudioM.duration p = Ok d) ps ->
  AudioM.duration q = Raise e ->
  exists delays,
    length delays = length ps /\
    rate_limit clock (ps ++ q :: rest) =
      (paced ps delays ++ [Yield q], Raise e) /\
    yields (fst (rate_limit clock (ps ++ q :: rest))) = ps ++ [q].
Proof.
  intros Hall Hq.
  destruct (rate_limit_for_bad clock ps Hall 1%nat (clock 0%nat) None
              q rest e Hq) as (ds & Hlen & Hrun).
  assert (Hrl : rate_limit clock (ps ++ q :: rest) =
                (paced ps ds ++ [Yield q], Raise e))
    by (unfold rate_limit; now rewrite Hrun).
  exists ds. split_and!; try done.
  rewrite Hrl. cbn [fst]. unfold yields. rewrite omap_app.
  fold (yields (paced ps ds)). now rewrite (yields_paced _ _ Hlen).
Qed.

Lemma rate_limit_bad_packet_witness :
  exists delays,
    length delays = length [pcm3] /\
    rate_limit (fun _ => 0%float)
      ([pcm3] ++ mkAudio 1 2 0 [x01; x00] :: [pcm2]) =
      (paced [pcm3] delays ++ [Yield (mkAudio 1 2 0 [x01; x00])],
       Raise ZeroDivisionError) /\
    yields (fst (rate_limit (fun _ => 0%float)
                   ([pcm3] ++ mkAudio 1 2 0 [x01; x00] :: [pcm2]))) =
      [pcm3] ++ [mkAudio 1 2 0 [x01; x00]].
Proof.
  apply (rate_limit_bad_packet (fun _ => 0%float) [pcm3] [pcm2]
           (mkAudio 1 2 0 [x01; x00]) ZeroDivisionError).
  - repeat constructor; eexists; vm_compute; reflexivity.
  - reflexivity.
Defined.

(** ** More on the WAV container *)

Lemma pack_uint_cases (n : nat) (v : Z) :
  (0 <= v < 256 ^ Z.of_nat n /\ pack_uint n v = Ok (le_encode n v)) \/
  (~ 0 <= v < 256 ^ Z.of_nat n /\ pack_uint n v = Raise StructError).
Proof.
  unfold pack_uint.
  destruct (Z.leb_spec 0 v), (Z.ltb_spec v (256 ^ Z.of_nat n)); cbn [andb];
    [left | right | right | right]; (split; [lia | reflexivity]).
Qed.

(** The header is written exactly when every field fits its slot. *)
Lemma write_header_cases (c w r len : Z) :
  let fits :=
    0 <= 36 + len < 2 ^ 32 /\ 0 <= c < 65536 /\ 0 <= r < 2 ^ 32 /\
    0 <= c * r * w < 2 ^ 32 /\ 0 <= c * w < 65536 /\ 0 <= w * 8 < 65536 /\
    0 <= len < 2 ^ 32 in
  (fits /\ wave._write_header c w r len = Ok (wav_header c w r len)) \/
  (~ fits /\ wave._write_header c w r len = Raise StructError).
Proof.
  intros fits. unfold wave._write_header, fits.
  change (pack_uint 4 16) with (Ok (le_encode 4 16)).
  change (pack_uint 2 wave.WAVE_FORMAT_PCM)
    with (Ok (le_encode 2 wave.WAVE_FORMAT_PCM)).
  destruct (pack_uint_cases 4 (36 + len)) as [(H1 & ->)|(H1 & ->)];
    cbn [mbind result_bind rbind];
    change (256 ^ Z.of_nat 4) with (2 ^ 32) in H1;
    [|right; split; [tauto | reflexivity]].
  destruct (pack_uint_cases 2 c) as [(H2 & ->)|(H2 & ->)];
    cbn [mbind result_bind rbind];
    change (256 ^ Z.of_nat 2) with 65536 in H2;
    [|right; split; [tauto | reflexivity]].
  destruct (pack_uint_cases 4 r) as [(H3 & ->)|(H3 & ->)];
    cbn [mbind result_bind rbind];
    change (256 ^ Z.of_nat 4) with (2 ^ 32) in H3;
    [|right; split; [tauto | reflexivity]].
  destruct (pack_uint_cases 4 (c * r * w)) as [(H4 & ->)|(H4 & ->)];
    cbn [mbind result_bind rbind];
    change (256 ^ Z.of_nat 4) with (2 ^ 32) in H4;
    [|right; split; [tauto | reflexivity]].
  destruct (pack_uint_cases 2 (c * w)) as [(H5 & ->)|(H5 & ->)];
    cbn [mbind result_bind rbind];
    change (256 ^ Z.of_nat 2) with 65536 in H5;
    [|right; split; [tauto | reflexivity]].
  destruct (pack_uint_cases 2 (w * 8)) as [(H6 & ->)|(H6 & ->)];
    cbn [mbind result_bind rbind];
    change (256 ^ Z.of_nat 2) with 65536 in H6;
    [|right; split; [tauto | reflexivity]].
  destruct (pack_uint_cases 4 len) as [(H7 & ->)|(H7 & ->)];
    cbn [mbind result_bind rbind];
    change (256 ^ Z.of_nat 4) with (2 ^ 32) in H7;
    [|right; split; [tauto | reflexivity]].
  left. split; [tauto|].
  unfold wav_header, wav_payload, wav_fmt_body.
  rewrite <- !app_assoc. reflexivity.
Qed.

(** How the writer ends, from the buffer. *)
Lemma write_cases (a : Audio) :
  (wav_representable a /\
   wave.write (channels a) (width a) (rate a) (data a) =
   Ok (wav_header (channels a) (width a) (rate a)
         (Z.of_nat (length (data a))) ++ data a)) \/
  (~ wav_representable a /\
   (wave.write (channels a) (width a) (rate a) (data a) = Raise WaveError \/
    wave.write (channels a) (width a) (rate a) (data a) = Raise StructError)).
Proof.
  assert (Hyes : wav_representable a ->
    wav_representable a /\
    wave.write (channels a) (width a) (rate a) (data a) =
    Ok (wav_header (channels a) (width a) (rate a)
          (Z.of_nat (length (data a))) ++ data a))
    by (intros H; split; [exact H | now apply write_Ok]).
  unfold wave.write.
  destruct (Z.ltb_spec (channels a) 1);
    [right; split; [intros (? & _); lia | left; reflexivity]|].
  destruct (Z.ltb_spec (width a) 1);
    [right; split; [intros (_ & ? & _); lia | left; reflexivity]|].
  destruct (Z.ltb_spec 4 (width a));
    [right; split; [intros (_ & ? & _); lia | left; reflexivity]|].
  destruct (Z.leb_spec (rate a) 0);
    [right; split; [intros (_ & _ & ? & _); lia | left; reflexivity]|].
  cbn [orb].
  set (L := Z.of_nat (length (data a))) in *.
  set (fw := width a * channels a).
  assert (Hfw : 0 < fw) by (unfold fw; nia).
  assert (HL0 : 0 <= L / fw * fw <= L).
  { pose proof (Z.mul_div_le L fw Hfw).
    pose proof (Z.div_pos L fw). nia. }
  replace (L / fw * channels a * width a) with (L / fw * fw)
    by (unfold fw; ring).
  destruct (write_header_cases (channels a) (width a) (rate a) (L / fw * fw))
    as [(Hfit & ->)|(Hfit & ->)]; cbn [mbind result_bind rbind].
  - destruct (Z.eqb_spec (L / fw * fw) L) as [He|He].
    + left. rewrite He in *. split; [|reflexivity].
      unfold wav_representable. fold L. lia.
    + unfold wave._patchheader.
      destruct (pack_uint_cases 4 (36 + L)) as [(HL1 & ->)|(HL1 & ->)];
        cbn [mbind result_bind rbind];
        change (256 ^ Z.of_nat 4) with (2 ^ 32) in HL1.
      * assert (Hrep : wav_representable a)
          by (unfold wav_representable; fold L; lia).
        left. split; [exact Hrep|].
        pose proof (write_Ok a Hrep) as Hw. unfold wave.write in Hw.
        destruct (Z.ltb_spec (channels a) 1); [lia|].
        destruct (Z.ltb_spec (width a) 1); [lia|].
        destruct (Z.ltb_spec 4 (width a)); [lia|].
        destruct (Z.leb_spec (rate a) 0); [lia|].
        cbn [orb] in Hw. fold L fw in Hw.
        replace (L / fw * channels a * width a) with (L / fw * fw) in Hw
          by (unfold fw; ring).
        destruct (write_header_cases (channels a) (width a) (rate a)
                    (L / fw * fw)) as [(_ & Hh)|(Hn & _)]; [|tauto].
        rewrite Hh in Hw. cbn [mbind result_bind rbind] in Hw.
        destruct (Z.eqb_spec (L / fw * fw) L); [contradiction|].
        unfold wave._patchheader in Hw.
        rewrite (pack_uint_Ok 4 (36 + L)) in Hw by field_range.
        cbn [mbind result_bind rbind] in Hw. exact Hw.
      * right. split; [|right; reflexivity].
        unfold wav_representable. fold L. lia.
  - right. split; [|right; reflexivity].
    intros (Hc & Hw & Hr & Hcw & Hcrw & Hl). fold L in Hl.
    apply Hfit. lia.
Qed.

(** X13: [to_wav] gives a file exactly for the buffers whose channels,
    width, rate and sizes fit the fields of a WAV header; the file is then
    rewound, and its contents are the 44-byte header followed by the data
    as they are.  Any other buffer makes it raise [wave.Error] or
    [struct.error]. *)
Theorem to_wav_cases (a : Audio) :
  ((exists f, AudioM.to_wav a = Ok f) <-> wav_representable a) /\
  (forall f, AudioM.to_wav a = Ok f ->
     tell f = 0%nat /\
     getvalue f = wav_header (channels a) (width a) (rate a)
                    (Z.of_nat (length (data a))) ++ data a /\
     length (getvalue f) = (44 + length (data a))%nat) /\
  (forall e, AudioM.to_wav a = Raise e -> e = WaveError \/ e = StructError).
Proof.
  unfold AudioM.to_wav.
  destruct (write_cases a) as [(Hrep & ->)|(Hrep & [-> | ->])];
    cbn [mbind result_bind rbind].
  - split; [split; [auto | eauto]|]. split; [|discriminate].
    intros f [= <-]. split_and!; reflexivity.
  - split; [split; [intros (f & Hf); discriminate | tauto]|].
    split; [discriminate|]. intros e [= <-]. auto.
  - split; [split; [intros (f & Hf); discriminate | tauto]|].
    split; [discriminate|]. intros e [= <-]. auto.
Qed.

Lemma to_wav_cases_witness :
  (exists f, AudioM.to_wav pcm3 = Ok f) /\
  ~ (exists f, AudioM.to_wav (mkAudio 1 2 0 [x01; x00]) = Ok f).
Proof.
  split.
  - apply (to_wav_cases pcm3). exact pcm3_representable.
  - intros H. apply (to_wav_cases (mkAudio 1 2 0 [x01; x00])) in H.
    destruct H as (_ & _ & H & _). cbn [rate] in H. lia.
Defined.

Lemma byte_to_Z_range (b : byte) : 0 <= byte_to_Z b < 256.
Proof.
  unfold byte_to_Z. pose proof (Byte.to_N_bounded b). lia.
Qed.

Lemma le_decode_range (bs : list byte) :
  0 <= le_decode bs < 256 ^ Z.of_nat (length bs).
Proof.
  induction bs as [|b bs IH]; [cbn; lia|].
  cbn [le_decode length]. rewrite Nat2Z.inj_succ, Z.pow_succ_r by lia.
  pose proof (byte_to_Z_range b). lia.
Qed.









(** ** More on the timed iterator *)

(** A call on a fresh wrapper is a call on a wrapper that stores the
    fetch just created. *)
Lemma anext_fresh (self : AsyncTimedIterator) (l : loop) :
  ati_task self = None ->
  AsyncTimedIteratorM.__anext__ self l =
  AsyncTimedIteratorM.__anext__
    (mkAsyncTimedIterator (snd (iterator_anext (_iterator self)))
       (timeout self) (_sentinel self) (Some (length l)))
    (l ++ [mkTask (fst (iterator_anext (_iterator self)))
                  (co_time (fst (iterator_anext (_iterator self))))
                  false None]).
Proof.
  intros Hnone. unfold AsyncTimedIteratorM.__anext__. rewrite Hnone.
  cbn [ati_task _iterator timeout _sentinel asyncio.create_task].
  destruct (iterator_anext (_iterator self)) as [c it]. reflexivity.
Qed.

(** A stored fetch that is done answers the next call. *)
Lemma consume_stored_done (self : AsyncTimedIterator) (t : nat) (l : loop)
    (tk : task) (v : value) (fuel : nat) :
  ati_task self = Some t -> l !! t = Some tk ->
  t_outcome tk = Some (Ok v) ->
  AsyncTimedIteratorM.consume (S fuel) self l =
  '(outs, r, self', l') ←
    AsyncTimedIteratorM.consume fuel
      (mkAsyncTimedIterator (_iterator self) (timeout self)
         (_sentinel self) None) l;
  Some (Fetched v :: outs, r, self', l').
Proof.
  intros Ht Hl Hdone. cbn [AsyncTimedIteratorM.consume].
  unfold AsyncTimedIteratorM.__anext__, AsyncTimedIteratorM.anext_wait.
  rewrite Ht. cbn [timeout _iterator _sentinel].
  rewrite (wait_done t (timeout self) l tk (Ok v) Hl Hdone).
  reflexivity.
Qed.

(** A stored fetch with [k] ticks to go: the sentinel for each full
    timeout that passes, then the element. *)
Lemma consume_stored_pending (k : nat) :
  forall (self : AsyncTimedIterator) (t : nat) (l : loop) (c : coro)
         (v : value),
    ati_task self = Some t -> patient (timeout self) ->
    l !! t = Some (mkTask c (Some k) false None) ->
    co_result c = Ok v ->
    exists l1, forall fuel,
      AsyncTimedIteratorM.consume
        (sentinels (timeout self) k + S fuel) self l =
      '(outs, r, self', l') ←
        AsyncTimedIteratorM.consume fuel
          (mkAsyncTimedIterator (_iterator self) (timeout self)
             (_sentinel self) None) l1;
      Some (replicate (sentinels (timeout self) k)
              (Sentinel (_sentinel self)) ++ Fetched v :: outs,
            r, self', l').
Proof.
  induction k as [k IH] using lt_wf_ind.
  intros [it to s tsk] t l c v Ht Hpat Hl Hv.
  cbn [ati_task timeout _iterator _sentinel] in *. subst tsk.
  assert (Hquick :
    match to with Some d => (k < d)%nat | None => True end ->
    sentinels to k = 0%nat ->
    exists l1, forall fuel,
      AsyncTimedIteratorM.consume (sentinels to k + S fuel)
        (mkAsyncTimedIterator it to s (Some t)) l =
      '(outs, r, self', l') ←
        AsyncTimedIteratorM.consume fuel
          (mkAsyncTimedIterator it to s None) l1;
      Some (replicate (sentinels to k) (Sentinel s) ++ Fetched v :: outs,
            r, self', l')).
  { intros Hlt ->. exists (asyncio.run k l). intros fuel.
    cbn [Nat.add replicate app AsyncTimedIteratorM.consume].
    unfold AsyncTimedIteratorM.__anext__, AsyncTimedIteratorM.anext_wait.
    cbn [ati_task timeout _iterator _sentinel].
    destruct (wait_in_time t k to l c Hl Hlt) as (-> & _).
    cbn [mbind option_bind]. rewrite Hv. reflexivity. }
  destruct to as [d|]; [|apply Hquick; [exact I | reflexivity]].
  cbn [patient] in Hpat.
  destruct (Nat.lt_ge_cases k d) as [Hlt|Hge];
    [apply Hquick; [exact Hlt | now apply Nat.div_small]|].
  clear Hquick.
  destruct (wait_timeout t k d l c Hl Hge) as (Hwait & Hl').
  assert (Hdiv : sentinels (Some d) k = S (sentinels (Some d) (k - d))).
  { cbn [sentinels].
    replace k with ((k - d) + 1 * d)%nat at 1 by lia.
    rewrite Nat.div_add by lia. lia. }
  assert (Hstep : forall fuel,
    AsyncTimedIteratorM.consume (S fuel)
      (mkAsyncTimedIterator it (Some d) s (Some t)) l =
    '(outs, r, self', l') ←
      AsyncTimedIteratorM.consume fuel
        (mkAsyncTimedIterator it (Some d) s (Some t)) (asyncio.run d l);
    Some (Sentinel s :: outs, r, self', l')).
  { intros fuel. cbn [AsyncTimedIteratorM.consume].
    unfold AsyncTimedIteratorM.__anext__, AsyncTimedIteratorM.anext_wait.
    cbn [ati_task timeout _iterator _sentinel].
    rewrite Hwait. reflexivity. }
  destruct (Nat.leb_spec k d) as [Hle|Hgt].
  - assert (k = d) by lia. subst k.
    exists (asyncio.run d l). intros fuel.
    rewrite Hdiv, Nat.sub_diag.
    replace (sentinels (Some d) 0) with 0%nat
      by (cbn [sentinels]; now rewrite Nat.Div0.div_0_l).
    cbn [Nat.add replicate app]. rewrite Hstep.
    rewrite Hv in Hl'.
    rewrite (consume_stored_done
               (mkAsyncTimedIterator it (Some d) s (Some t)) t _ _ v fuel
               eq_refl Hl' eq_refl).
    cbn [timeout _iterator _sentinel].
    destruct (AsyncTimedIteratorM.consume fuel _ _)
      as [[[[outs r] self'] l'']|]; reflexivity.
  - destruct (IH (k - d)%nat ltac:(lia)
                (mkAsyncTimedIterator it (Some d) s (Some t)) t
                (asyncio.run d l) c v eq_refl Hpat Hl' Hv) as (l1 & Hrec).
    cbn [timeout _iterator _sentinel] in Hrec.
    exists l1. intros fuel. rewrite Hdiv.
    cbn [Nat.add replicate app]. rewrite Hstep, Hrec.
    destruct (AsyncTimedIteratorM.consume fuel _ _)
      as [[[[outs r] self'] l'']|]; reflexivity.
Qed.

(** The whole iteration of a fresh wrapper. *)
Lemma consume_fresh (items : aiterator) :
  forall (to : option nat) (s : value) (l : loop) (fuel : nat),
    patient to ->
    exists self' l',
      AsyncTimedIteratorM.consume
        (length (ati_schedule to s items) + S fuel)
        (mkAsyncTimedIterator items to s None) l =
      Some (ati_schedule to s items, Ok tt, self', l').
Proof.
  induction items as [|[n v] rest IH]; intros to s l fuel Hpat.
  - cbn [ati_schedule flat_map length Nat.add AsyncTimedIteratorM.consume].
    rewrite anext_fresh by reflexivity.
    cbn [_iterator timeout _sentinel iterator_anext fst snd co_time].
    unfold AsyncTimedIteratorM.__anext__, AsyncTimedIteratorM.anext_wait.
    cbn [ati_task timeout _iterator _sentinel].
    set (tk := mkTask _ (Some 0%nat) false None).
    assert (Hl : (l ++ [tk]) !! length l = Some tk)
      by (rewrite lookup_app_r, Nat.sub_diag by lia; reflexivity).
    assert (Hlt : match to with Some d => (0 < d)%nat | None => True end)
      by (destruct to; exact Hpat).
    destruct (wait_in_time _ _ to _ _ Hl Hlt) as (-> & _).
    cbn [mbind option_bind co_result]. eauto.
  - set (c := mkCoro (Some n) (Ok v) (Raise CancelledError)).
    set (tk := mkTask c (Some n) false None).
    assert (Hl : (l ++ [tk]) !! length l = Some tk)
      by (rewrite lookup_app_r, Nat.sub_diag by lia; reflexivity).
    destruct (consume_stored_pending n
                (mkAsyncTimedIterator rest to s (Some (length l)))
                (length l) (l ++ [tk]) c v eq_refl Hpat Hl eq_refl)
      as (l1 & Hrun).
    cbn [timeout _iterator _sentinel] in Hrun.
    destruct (IH to s l1 fuel Hpat) as (self' & l' & Hrest).
    exists self', l'.
    change (ati_schedule to s ((n, v) :: rest))
      with ((replicate (sentinels to n) (Sentinel s) ++ [Fetched v])
              ++ ati_schedule to s rest).
    rewrite !length_app, length_replicate. cbn [length].
    replace (sentinels to n + 1 + length (ati_schedule to s rest) + S fuel)%nat
      with (sentinels to n
            + S (length (ati_schedule to s rest) + S fuel))%nat by lia.
    assert (Hfirst : forall f,
      AsyncTimedIteratorM.consume (S f)
        (mkAsyncTimedIterator ((n, v) :: rest) to s None) l =
      AsyncTimedIteratorM.consume (S f)
        (mkAsyncTimedIterator rest to s (Some (length l))) (l ++ [tk])).
    { intros f. cbn [AsyncTimedIteratorM.consume].
      rewrite anext_fresh by reflexivity. reflexivity. }
    destruct (sentinels to n) as [|m] eqn:Hm.
    + cbn [Nat.add]. rewrite Hfirst.
      specialize (Hrun (length (ati_schedule to s rest) + S fuel)%nat).
      cbn [Nat.add] in Hrun. rewrite Hrun, Hrest.
      cbn [mbind option_bind replicate app]. reflexivity.
    + cbn [Nat.add]. rewrite Hfirst.
      specialize (Hrun (length (ati_schedule to s rest) + S fuel)%nat).
      cbn [Nat.add] in Hrun. rewrite Hrun, Hrest.
      cbn [mbind option_bind]. rewrite <- app_assoc. reflexivity.
Qed.

(** X15: the answers of a timed iterator to a consumer that does nothing
    but call it.  With no timeout, or one that lets time pass, iterating a
    fresh wrapper to the end ends normally, and the calls returned, for
    each item in turn, the sentinel once for every full timeout within
    the time its fetch takes (never without a timeout), then the item. *)
Theorem consume_schedule (items : aiterator) (to : option nat) (s : value)
    (l : loop) (fuel : nat) :
  patient to ->
  (length (ati_schedule to s items) < fuel)%nat ->
  exists self' l',
    AsyncTimedIteratorM.consume fuel
      (AsyncTimedIteratorM.__init__ items to s) l =
    Some (ati_schedule to s items, Ok tt, self', l').
Proof.
  intros Hpat Hfuel.
  destruct (consume_fresh items to s l
              (fuel - length (ati_schedule to s items) - 1) Hpat)
    as (self' & l' & Hrun).
  exists self', l'. unfold AsyncTimedIteratorM.__init__.
  rewrite <- Hrun. f_equal. lia.
Qed.

Lemma consume_schedule_witness :
  exists self' l',
    AsyncTimedIteratorM.consume 9
      (AsyncTimedIteratorM.__init__ [(5%nat, VInt 1); (0%nat, VInt 2)]
         (Some 2%nat) VNone) [] =
    Some (ati_schedule (Some 2%nat) VNone [(5%nat, VInt 1); (0%nat, VInt 2)],
          Ok tt, self', l').
Proof.
  apply (consume_schedule [(5%nat, VInt 1); (0%nat, VInt 2)] (Some 2%nat)
           VNone [] 9).
  - simpl. lia.
  - simpl. lia.
Defined.

(** ** The context manager [background_task] *)




(** ** More on the cancellable generator *)

(** One call on an open wrapper, whatever [self.task] holds or whether it
    was ever assigned: the next item of the wrapped generator, or its
    [StopAsyncIteration]; the wrapper stays open. *)
Lemma cag_anext_open (g : aiterator) (tsk : option (option nat)) (l : loop) :
  exists l',
    CancellableAsyncGeneratorM.__anext__
      (mkCancellableAsyncGenerator (Some g) tsk) l =
    Some (match g with
          | [] => Raise StopAsyncIteration
          | item :: _ => Ok (snd item)
          end,
          mkCancellableAsyncGenerator (Some (tail g)) (Some None), l').
Proof.
  unfold CancellableAsyncGeneratorM.__anext__,
    CancellableAsyncGeneratorM.anext_begin.
  cbn [gen asyncio.create_task].
  destruct g as [|[n v] rest]; cbn [iterator_anext tail snd co_time].
  - set (c := mkCoro (Some 0%nat) (Raise StopAsyncIteration)
                (Raise CancelledError)).
    assert (Hl : (l ++ [mkTask c (Some 0%nat) false None]) !! length l =
                 Some (mkTask c (Some 0%nat) false None))
      by (rewrite lookup_app_r, Nat.sub_diag by lia; reflexivity).
    destruct (await_pending _ _ _ _ Hl) as (-> & _).
    eexists. reflexivity.
  - set (c := mkCoro (Some n) (Ok v) (Raise CancelledError)).
    assert (Hl : (l ++ [mkTask c (Some n) false None]) !! length l =
                 Some (mkTask c (Some n) false None))
      by (rewrite lookup_app_r, Nat.sub_diag by lia; reflexivity).
    destruct (await_pending _ _ _ _ Hl) as (-> & _).
    eexists. reflexivity.
Qed.

(** X17: the wrapper is transparent to iteration.  An [async for] over a
    fresh wrapper receives the items of the wrapped generator, all of
    them, in order and unchanged, and ends normally; the wrapper is then
    still open, on an exhausted generator. *)
Theorem cancellable_consume (g : aiterator) (l : loop) (fuel : nat) :
  (length g < fuel)%nat ->
  exists l',
    CancellableAsyncGeneratorM.consume fuel
      (CancellableAsyncGeneratorM.__init__ g) l =
    Some (map snd g, Ok tt,
          mkCancellableAsyncGenerator (Some []) (Some None), l').
Proof.
  unfold CancellableAsyncGeneratorM.__init__. generalize (@None (option nat)).
  revert l fuel. induction g as [|[n v] rest IH]; intros l fuel tsk Hfuel;
    (destruct fuel as [|fuel]; [cbn in Hfuel; lia|]);
    cbn [CancellableAsyncGeneratorM.consume].
  - destruct (cag_anext_open [] tsk l) as (l1 & ->).
    cbn [isinstance exn_eqb orb tail]. eauto.
  - destruct (cag_anext_open ((n, v) :: rest) tsk l) as (l1 & ->).
    cbn [tail snd]. cbn [length] in Hfuel.
    destruct (IH l1 fuel (Some None) ltac:(lia)) as (l' & ->).
    cbn [mbind option_bind map snd]. eauto.
Qed.

Lemma cancellable_consume_witness :
  exists l',
    CancellableAsyncGeneratorM.consume 3
      (CancellableAsyncGeneratorM.__init__ [(3%nat, VInt 1); (0%nat, VInt 2)])
      [] =
    Some (map snd [(3%nat, VInt 1); (0%nat, VInt 2)], Ok tt,
          mkCancellableAsyncGenerator (Some []) (Some None), l').
Proof.
  apply (cancellable_consume [(3%nat, VInt 1); (0%nat, VInt 2)] [] 3).
  simpl. lia.
Defined.

Lemma cag_advance_open (k : nat) :
  forall (g : aiterator) (tsk : option (option nat)) (l : loop),
    exists l',
      CancellableAsyncGeneratorM.advance k
        (mkCancellableAsyncGenerator (Some g) tsk) l =
      Some (map (fun item => Ok (snd item)) (take k g)
              ++ replicate (k - length g) (Raise StopAsyncIteration),
            mkCancellableAsyncGenerator (Some (drop k g))
              (match k with O => tsk | S _ => Some None end), l').
Proof.
  induction k as [|k IH]; intros g tsk l.
  - exists l. cbn [CancellableAsyncGeneratorM.advance take drop map app].
    rewrite Nat.sub_0_l. reflexivity.
  - cbn [CancellableAsyncGeneratorM.advance].
    destruct (cag_anext_open g tsk l) as (l1 & ->).
    destruct (IH (tail g) (Some None) l1) as (l' & Hrec).
    cbn [mbind option_bind]. rewrite Hrec. cbn [mbind option_bind].
    exists l'. destruct g as [|[n v] rest].
    + cbn [tail take drop map app length Nat.sub replicate].
      rewrite Nat.sub_0_r. destruct k; reflexivity.
    + cbn [tail take drop map app length Nat.sub snd].
      destruct k; reflexivity.
Qed.

Lemma cag_advance_closed (k : nat) (self : CancellableAsyncGenerator)
    (l : loop) :
  gen self = None ->
  CancellableAsyncGeneratorM.advance k self l =
  Some (replicate k (Raise StopAsyncIteration), self, l).
Proof.
  intros Hgen. induction k as [|k IH]; [reflexivity|].
  cbn [CancellableAsyncGeneratorM.advance].
  rewrite (anext_closed self l Hgen). cbn [mbind option_bind].
  rewrite IH. reflexivity.
Qed.

(** X18: closing at any point after the first call.  After [k >= 1]
    calls of [__anext__], which returned the first [k] items (and raised
    [StopAsyncIteration] from then on if the generator has fewer),
    [aclose] returns [None] and closes the wrapper: the items not yet
    received are never delivered, every later call of [__anext__] raises
    [StopAsyncIteration], and a second [aclose] returns [None] and
    changes nothing. *)
Theorem cancellable_close (g : aiterator) (l : loop) (k : nat) :
  (1 <= k)%nat ->
  exists self1 l1 l2,
    CancellableAsyncGeneratorM.advance k
      (CancellableAsyncGeneratorM.__init__ g) l =
    Some (map (fun item => Ok (snd item)) (take k g)
            ++ replicate (k - length g) (Raise StopAsyncIteration),
          self1, l1) /\
    gen self1 = Some (drop k g) /\
    CancellableAsyncGeneratorM.aclose self1 l1 =
    Some (Ok VNone, mkCancellableAsyncGenerator None (Some None), l2) /\
    (forall m,
       CancellableAsyncGeneratorM.advance m
         (mkCancellableAsyncGenerator None (Some None)) l2 =
       Some (replicate m (Raise StopAsyncIteration),
             mkCancellableAsyncGenerator None (Some None), l2)) /\
    CancellableAsyncGeneratorM.aclose
      (mkCancellableAsyncGenerator None (Some None)) l2 =
    Some (Ok VNone, mkCancellableAsyncGenerator None (Some None), l2).
Proof.
  intros Hk. unfold CancellableAsyncGeneratorM.__init__.
  destruct (cag_advance_open k g None l) as (l1 & Hadv).
  destruct k as [|k]; [lia|].
  destruct (aclose_between (drop (S k) g) l1) as (l2 & Hclose).
  exists (mkCancellableAsyncGenerator (Some (drop (S k) g)) (Some None)),
    l1, l2.
  split; [exact Hadv|]. split; [reflexivity|]. split; [exact Hclose|].
  split.
  - intros m. now apply cag_advance_closed.
  - now apply aclose_closed.
Qed.

Lemma cancellable_close_witness :
  exists self1 l1 l2,
    CancellableAsyncGeneratorM.advance 1
      (CancellableAsyncGeneratorM.__init__ [(3%nat, VInt 1); (0%nat, VInt 2)])
      [] =
    Some (map (fun item => Ok (snd item))
            (take 1 [(3%nat, VInt 1); (0%nat, VInt 2)])
            ++ replicate (1 - length [(3%nat, VInt 1); (0%nat, VInt 2)])
                 (Raise StopAsyncIteration),
          self1, l1) /\
    gen self1 = Some (drop 1 [(3%nat, VInt 1); (0%nat, VInt 2)]) /\
    CancellableAsyncGeneratorM.aclose self1 l1 =
    Some (Ok VNone, mkCancellableAsyncGenerator None (Some None), l2) /\
    (forall m,
       CancellableAsyncGeneratorM.advance m
         (mkCancellableAsyncGenerator None (Some None)) l2 =
       Some (replicate m (Raise StopAsyncIteration),
             mkCancellableAsyncGenerator None (Some None), l2)) /\
    CancellableAsyncGeneratorM.aclose
      (mkCancellableAsyncGenerator None (Some None)) l2 =
    Some (Ok VNone, mkCancellableAsyncGenerator None (Some None), l2).
Proof.
  apply (cancellable_close [(3%nat, VInt 1); (0%nat, VInt 2)] [] 1). lia.
Defined.

(** ** The skill registry *)

Section dict_facts.
Context {K V : Type} `{EqDecision K}.
Implicit Types (k : K) (v : V) (d : list (K * V)).

Lemma dict_get_set_eq k v d : dict_get k (dict_set k v d) = Some v.
Proof.
  induction d as [|[k' v'] d IH]; cbn [dict_set dict_get].
  - now rewrite decide_True.
  - destruct (decide (k = k')) as [->|Hne]; cbn [dict_get].
    + now rewrite decide_True.
    + now rewrite decide_False.
Qed.

Lemma dict_get_set_ne k k' v d :
  k <> k' -> dict_get k' (dict_set k v d) = dict_get k' d.
Proof.
  intros Hne. induction d as [|[k0 v0] d IH]; cbn [dict_set dict_get].
  - now rewrite decide_False by congruence.
  - destruct (decide (k = k0)) as [->|Hne0]; cbn [dict_get].
    + now rewrite !decide_False by congruence.
    + destruct (decide (k' = k0)); [reflexivity | exact IH].
Qed.

Lemma dict_get_None k d : dict_get k d = None <-> k ∉ map fst d.
Proof.
  induction d as [|[k' v'] d IH]; cbn [dict_get map fst].
  - split; [intros _; apply not_elem_of_nil | reflexivity].
  - rewrite not_elem_of_cons.
    destruct (decide (k = k')) as [->|Hne]; [split; [discriminate|tauto]|].
    rewrite IH. tauto.
Qed.

(** A new key goes to the end; a known key changes nothing in the
    keys. *)
Lemma dict_set_keys k v d :
  map fst (dict_set k v d) =
  match dict_get k d with
  | Some _ => map fst d
  | None => map fst d ++ [k]
  end.
Proof.
  induction d as [|[k' v'] d IH]; cbn [dict_set dict_get map fst];
    [reflexivity|].
  destruct (decide (k = k')) as [->|Hne]; cbn [map fst]; [reflexivity|].
  rewrite IH. destruct (dict_get k d); reflexivity.
Qed.

Lemma dict_set_NoDup k v d :
  NoDup (map fst d) -> NoDup (map fst (dict_set k v d)).
Proof.
  intros Hd. rewrite dict_set_keys.
  destruct (dict_get k d) eqn:Hk; [exact Hd|].
  apply NoDup_app. split; [exact Hd|]. split; [|apply NoDup_singleton].
  intros x Hx Hx'. apply list_elem_of_singleton in Hx'. subst x.
  now apply dict_get_None in Hk.
Qed.

Lemma dict_get_del_ne k k' d :
  k <> k' -> dict_get k' (dict_del k d) = dict_get k' d.
Proof.
  intros Hne. induction d as [|[k0 v0] d IH]; cbn [dict_del dict_get];
    [reflexivity|].
  destruct (decide (k = k0)) as [->|Hne0]; cbn [dict_get].
  - now rewrite decide_False by congruence.
  - destruct (decide (k' = k0)); [reflexivity | exact IH].
Qed.

Lemma dict_del_keys k d :
  (forall x, x ∈ map fst (dict_del k d) -> x ∈ map fst d) /\
  (NoDup (map fst d) ->
   NoDup (map fst (dict_del k d)) /\ dict_get k (dict_del k d) = None).
Proof.
  induction d as [|[k' v'] d (IHs & IHn)]; cbn [dict_del map fst].
  - split; [done|]. intros _. split; [constructor | reflexivity].
  - destruct (decide (k = k')) as [->|Hne]; cbn [map fst].
    + split; [intros x Hx; now apply elem_of_cons; right|].
      intros Hd. apply NoDup_cons in Hd as (Hk & Hd).
      split; [exact Hd | now apply dict_get_None].
    + split.
      { intros x Hx. apply elem_of_cons in Hx as [->|Hx];
          apply elem_of_cons; [now left | right; now apply IHs]. }
      intros Hd. apply NoDup_cons in Hd as (Hk & Hd).
      destruct (IHn Hd) as (Hn & Hg). split.
      * apply NoDup_cons. split; [|exact Hn]. intros Hin. apply Hk.
        now apply IHs.
      * cbn [dict_get]. now rewrite decide_False.
Qed.
End dict_facts.

(** Registering keeps the dicts free of double keys. *)
Lemma register_wf (self : Registry) (name : option string)
    (init : option initializer) (f : func) :
  registry_wf self -> registry_wf (RegistryM.register self name init f).
Proof.
  intros (Hs & Hi). unfold RegistryM.register, RegistryM.decorator,
    RegistryM.skill, registry_wf.
  destruct init as [i|]; cbn [skills initializers];
    (split; [now apply dict_set_NoDup|]); [now apply dict_set_NoDup | exact Hi].
Qed.

(** X19: [initialize] runs an initializer at most once.  Without an
    initializer under the key it raises [KeyError] and calls nothing.
    Otherwise it calls the initializer; if that raises, the exception
    goes through and the initializer stays registered; if it returns, it
    is unregistered, the other initializers and the skills stay as they
    were, and initializing the same key again raises [KeyError]. *)
Theorem initialize_once (self : Registry) (skill : option string)
    (log : list registry_event) :
  registry_wf self ->
  match dict_get skill (initializers self) with
  | None => RegistryM.initialize self skill log = (KeyError skill, self, log)
  | Some i =>
      match init_raises i with
      | Some e =>
          RegistryM.initialize self skill log =
          (Raised e, self, log ++ [Initialized (init_id i)])
      | None =>
          exists self',
            RegistryM.initialize self skill log =
            (Returned, self', log ++ [Initialized (init_id i)]) /\
            registry_wf self' /\
            skills self' = skills self /\
            dict_get skill (initializers self') = None /\
            (forall k, k <> skill ->
               dict_get k (initializers self') =
               dict_get k (initializers self)) /\
            (forall log',
               RegistryM.initialize self' skill log' =
               (KeyError skill, self', log'))
      end
  end.
Proof.
  intros (Hs & Hi). unfold RegistryM.initialize.
  destruct (dict_get skill (initializers self)) as [i|] eqn:Hget;
    [|reflexivity].
  destruct (init_raises i) as [e|]; [reflexivity|].
  destruct (dict_del_keys skill (initializers self)) as (_ & Hdel).
  destruct (Hdel Hi) as (Hn & Hg).
  eexists. split; [reflexivity|]. cbn [skills initializers].
  split; [split; assumption|]. split; [reflexivity|].
  split; [exact Hg|]. split.
  - intros k Hk. apply dict_get_del_ne. congruence.
  - intros log'. now rewrite Hg.
Qed.

Lemma initialize_once_witness :
  exists self',
    RegistryM.initialize
      (RegistryM.register RegistryM.__init__ (Some "greet"%string)
         (Some (mkInitializer 1 None)) (mkFunc "greet_skill" 2 None))
      (Some "greet"%string) [] =
    (Returned, self', [Initialized 1]) /\
    RegistryM.initialize self' (Some "greet"%string) [Initialized 1] =
    (KeyError (Some "greet"%string), self', [Initialized 1]).
Proof.
  pose proof (initialize_once
    (RegistryM.register RegistryM.__init__ (Some "greet"%string)
       (Some (mkInitializer 1 None)) (mkFunc "greet_skill" 2 None))
    (Some "greet"%string) []) as H.
  destruct H as (self' & Hrun & _ & _ & _ & _ & Hagain).
  - apply register_wf. split; constructor.
  - exists self'. split; [exact Hrun | apply Hagain].
Defined.

(** The loop of [initialize_skills] over initializers that return. *)
Lemma initialize_each_app (sk : list (string * func))
    (pre : list (option string * initializer)) :
  forall (rest : list (option string * initializer))
         (keys : list (option string)) (log : list registry_event),
    Forall (fun kv => init_raises (snd kv) = None) pre ->
    RegistryM.initialize_each (map fst pre ++ keys)
      (mkRegistry sk (pre ++ rest)) log =
    RegistryM.initialize_each keys (mkRegistry sk rest)
      (log ++ map (fun kv => Initialized (init_id (snd kv))) pre).
Proof.
  induction pre as [|[k i] pre IH]; intros rest keys log Hpre.
  - cbn [map app]. now rewrite app_nil_r.
  - apply Forall_cons in Hpre as (Hi & Hpre). cbn [snd] in Hi.
    cbn [map app fst snd RegistryM.initialize_each].
    unfold RegistryM.initialize. cbn [initializers skills dict_get dict_del].
    rewrite !decide_True by reflexivity. rewrite Hi.
    rewrite IH by exact Hpre. now rewrite <- app_assoc.
Qed.

(** X20: [initialize_skills] calls the registered initializers in the
    order of their registration, each once, and unregisters those that
    returned.  When all return, none is left, and a second call does
    nothing.  At the first that raises it stops with that exception:
    this initializer and those registered after it stay registered, and
    the latter were not called.  The skills are left alone. *)
Theorem initialize_skills_spec (self : Registry) (log : list registry_event) :
  (Forall (fun kv => init_raises (snd kv) = None) (initializers self) ->
   RegistryM.initialize_skills self log =
     (Returned, mkRegistry (skills self) [],
      log ++ map (fun kv => Initialized (init_id (snd kv)))
                 (initializers self)) /\
   forall log',
     RegistryM.initialize_skills (mkRegistry (skills self) []) log' =
     (Returned, mkRegistry (skills self) [], log')) /\
  (forall pre k i post e,
     initializers self = pre ++ (k, i) :: post ->
     Forall (fun kv => init_raises (snd kv) = None) pre ->
     init_raises i = Some e ->
     RegistryM.initialize_skills self log =
       (Raised e, mkRegistry (skills self) ((k, i) :: post),
        log ++ map (fun kv => Initialized (init_id (snd kv))) pre
            ++ [Initialized (init_id i)])).
Proof.
  destruct self as [sk inits]. cbn [skills initializers].
  unfold RegistryM.initialize_skills. cbn [initializers]. split.
  - intros Hall. split; [|reflexivity].
    pose proof (initialize_each_app sk inits [] [] log Hall) as H.
    rewrite !app_nil_r in H. exact H.
  - intros pre k i post e -> Hpre Hi.
    rewrite map_app. cbn [map fst].
    rewrite (initialize_each_app sk pre ((k, i) :: post)
               (k :: map fst post) log Hpre).
    cbn [RegistryM.initialize_each]. unfold RegistryM.initialize.
    cbn [initializers dict_get]. rewrite decide_True by reflexivity.
    rewrite Hi. now rewrite <- app_assoc.
Qed.

Lemma initialize_skills_spec_witness :
  RegistryM.initialize_skills
    (mkRegistry [] [(Some "a"%string, mkInitializer 1 None);
                    (None, mkInitializer 2 (Some RuntimeError));
                    (Some "c"%string, mkInitializer 3 None)]) [] =
  (Raised RuntimeError,
   mkRegistry [] [(None, mkInitializer 2 (Some RuntimeError));
                  (Some "c"%string, mkInitializer 3 None)],
   [Initialized 1; Initialized 2]).
Proof.
  apply (proj2 (initialize_skills_spec
           (mkRegistry [] [(Some "a"%string, mkInitializer 1 None);
                           (None, mkInitializer 2 (Some RuntimeError));
                           (Some "c"%string, mkInitializer 3 None)]) [])
           [(Some "a"%string, mkInitializer 1 None)] None
           (mkInitializer 2 (Some RuntimeError))
           [(Some "c"%string, mkInitializer 3 None)] RuntimeError).
  - reflexivity.
  - repeat constructor.
  - reflexivity.
Defined.

(** X21: a skill registered under a name of its own, with an
    initializer, is initialized on first use: the first [run_skill] of
    the name calls the initializer and then the skill function, every
    later one the skill function only. *)
Theorem run_skill_lazy_init (self : Registry) (s : string) (i : initializer)
    (f : func) (log : list registry_event) :
  registry_wf self -> s <> EmptyString -> init_raises i = None ->
  exists r2,
    RegistryM.run_skill
      (RegistryM.register self (Some s) (Some i) f) s log =
    (call_outcome (fn_raises f), r2,
     log ++ [Initialized (init_id i); Ran (fn_id f)]) /\
    forall log',
      RegistryM.run_skill r2 s log' =
      (call_outcome (fn_raises f), r2, log' ++ [Ran (fn_id f)]).
Proof.
  intros (Hs & Hi) Hne Hok.
  unfold RegistryM.register, RegistryM.decorator, RegistryM.skill.
  cbn [skills initializers]. rewrite decide_False by exact Hne.
  unfold RegistryM.run_skill. cbn [skills initializers].
  rewrite !dict_get_set_eq. unfold RegistryM.initialize.
  cbn [skills initializers]. rewrite dict_get_set_eq, Hok.
  cbn [skills]. rewrite dict_get_set_eq.
  destruct (dict_del_keys (Some s) (dict_set (Some s) i (initializers self)))
    as (_ & Hdel).
  destruct (Hdel (dict_set_NoDup _ _ _ Hi)) as (_ & Hg).
  eexists. split; [now rewrite <- app_assoc|].
  intros log'. cbn [skills initializers].
  rewrite dict_get_set_eq, Hg. cbn [skills]. now rewrite dict_get_set_eq.
Qed.

Lemma run_skill_lazy_init_witness :
  exists r2,
    RegistryM.run_skill
      (RegistryM.register RegistryM.__init__ (Some "greet"%string)
         (Some (mkInitializer 1 None)) (mkFunc "greet_skill" 2 None))
      "greet"%string [] =
    (call_outcome (fn_raises (mkFunc "greet_skill" 2 None)), r2,
     [] ++ [Initialized (init_id (mkInitializer 1 None));
            Ran (fn_id (mkFunc "greet_skill" 2 None))]) /\
    forall log',
      RegistryM.run_skill r2 "greet"%string log' =
      (call_outcome (fn_raises (mkFunc "greet_skill" 2 None)), r2,
       log' ++ [Ran (fn_id (mkFunc "greet_skill" 2 None))]).
Proof.
  apply (run_skill_lazy_init RegistryM.__init__ "greet"%string
           (mkInitializer 1 None) (mkFunc "greet_skill" 2 None) []).
  - split; constructor.
  - discriminate.
  - reflexivity.
Defined.

(** X22: the initializer of a skill registered without a name is filed
    under [None], not under the name of the function.  The skill itself
    is found under the function's name, and running it does not call the
    initializer, which stays registered; and registering another unnamed
    skill with an initializer puts that one in its place. *)
Theorem unnamed_skill_initializer (self : Registry) (i : initializer)
    (f : func) (log : list registry_event) :
  dict_get (Some (__name__ f)) (initializers self) = None ->
  let r1 := RegistryM.register self None (Some i) f in
  dict_get (__name__ f) (skills r1) = Some f /\
  dict_get None (initializers r1) = Some i /\
  dict_get (Some (__name__ f)) (initializers r1) = None /\
  RegistryM.run_skill r1 (__name__ f) log =
    (call_outcome (fn_raises f), r1, log ++ [Ran (fn_id f)]) /\
  (forall i2 f2,
     let r2 := RegistryM.register r1 None (Some i2) f2 in
     dict_get None (initializers r2) = Some i2 /\
     map fst (initializers r2) = map fst (initializers r1)).
Proof.
  intros Hnone r1. unfold r1, RegistryM.register, RegistryM.decorator,
    RegistryM.skill. cbn [skills initializers].
  assert (Hk : dict_get (Some (__name__ f))
                 (dict_set None i (initializers self)) = None)
    by (rewrite dict_get_set_ne by discriminate; exact Hnone).
  split; [apply dict_get_set_eq|]. split; [apply dict_get_set_eq|].
  split; [exact Hk|]. split.
  - unfold RegistryM.run_skill. cbn [skills initializers].
    rewrite dict_get_set_eq, Hk. cbn [skills].
    now rewrite dict_get_set_eq.
  - intros i2 f2. cbn [skills initializers].
    split; [apply dict_get_set_eq|].
    rewrite (dict_set_keys None i2), dict_get_set_eq. reflexivity.
Qed.

Lemma unnamed_skill_initializer_witness :
  dict_get None
    (initializers (RegistryM.register RegistryM.__init__ None
                     (Some (mkInitializer 1 None))
                     (mkFunc "greet_skill" 2 None))) =
  Some (mkInitializer 1 None) /\
  RegistryM.run_skill
    (RegistryM.register RegistryM.__init__ None
       (Some (mkInitializer 1 None)) (mkFunc "greet_skill" 2 None))
    "greet_skill"%string [] =
  (Returned,
   RegistryM.register RegistryM.__init__ None
     (Some (mkInitializer 1 None)) (mkFunc "greet_skill" 2 None),
   [Ran 2]).
Proof.
  destruct (unnamed_skill_initializer RegistryM.__init__
              (mkInitializer 1 None) (mkFunc "greet_skill" 2 None) []
              eq_refl) as (_ & Hi & _ & Hrun & _).
  split; [exact Hi | exact Hrun].
Defined.

(** ** Mono and stereo *)

Lemma getsample_range (w : nat) (bs : list byte) :
  (1 <= w)%nat -> (length bs <= w)%nat ->
  audioop.minval w <= audioop.getsample w bs <= audioop.maxval w.
Proof.
  intros Hw Hlen. destruct (sample_range w Hw) as (Hpos & Hdouble & H256).
  unfold audioop.minval, audioop.maxval, audioop.getsample.
  pose proof (le_decode_range bs) as Hu.
  assert (256 ^ Z.of_nat (length bs) <= 256 ^ Z.of_nat w)
    by (apply Z.pow_le_mono_r; lia).
  set (h := 2 ^ (8 * Z.of_nat w - 1)) in *.
  destruct (Z.ltb_spec (le_decode bs) h); lia.
Qed.

(** Half a sample, and half the sum of two, stay in range: [fbound] only
    rounds them down. *)
Lemma fbound_half (w : nat) (v : Z) :
  (1 <= w)%nat -> audioop.minval w <= v <= audioop.maxval w ->
  audioop.fbound (inject_Z v * (1 # 2)) (audioop.minval w) (audioop.maxval w)
  = v / 2.
Proof.
  intros Hw. destruct (sample_range w Hw) as (Hpos & _).
  unfold audioop.minval, audioop.maxval.
  set (h := 2 ^ (8 * Z.of_nat w - 1)) in *.
  assert (Hh : 128 <= h).
  { unfold h. change 128 with (2 ^ 7). apply Z.pow_le_mono_r; lia. }
  intros Hv. unfold audioop.fbound.
  destruct (Qlt_le_dec _ _) as [H|_].
  { unfold Qlt in H. cbn in H. lia. }
  destruct (Qlt_le_dec _ _) as [H|_].
  { unfold Qlt in H. cbn in H. lia. }
  unfold Qfloor. cbn. now rewrite Z.mul_1_r.
Qed.

Lemma fbound_half_sum (w : nat) (x y : Z) :
  (1 <= w)%nat ->
  audioop.minval w <= x <= audioop.maxval w ->
  audioop.minval w <= y <= audioop.maxval w ->
  audioop.fbound (inject_Z x * (1 # 2) + inject_Z y * (1 # 2))
    (audioop.minval w) (audioop.maxval w)
  = (x + y) / 2.
Proof.
  intros Hw. destruct (sample_range w Hw) as (Hpos & _).
  unfold audioop.minval, audioop.maxval.
  set (h := 2 ^ (8 * Z.of_nat w - 1)) in *.
  assert (Hh : 128 <= h).
  { unfold h. change 128 with (2 ^ 7). apply Z.pow_le_mono_r; lia. }
  intros Hx Hy. unfold audioop.fbound.
  destruct (Qlt_le_dec _ _) as [H|_].
  { unfold Qlt in H. cbn in H. lia. }
  destruct (Qlt_le_dec _ _) as [H|_].
  { unfold Qlt in H. cbn in H.
    change (Z.pos (1 * 2 * (1 * 2))) with 4 in H.
    change (Z.pos (1 * 2)) with 2 in H. change (Z.pos (1 * 1)) with 1 in H.
    apply (Z.div_unique (x + y) 2 (- h) (x + y + 2 * h)); lia. }
  unfold Qfloor. cbn.
  change (Z.pos (1 * 2 * (1 * 2))) with (2 * 2).
  change (Z.pos (1 * 2)) with 2.
  replace (x * 1 * 2 + y * 1 * 2) with ((x + y) * 2) by ring.
  now rewrite Z.div_mul_cancel_r by lia.
Qed.

Lemma mean_range (w : nat) (x y : Z) :
  (1 <= w)%nat ->
  audioop.minval w <= x <= audioop.maxval w ->
  audioop.minval w <= y <= audioop.maxval w ->
  audioop.minval w <= (x + y) / 2 <= audioop.maxval w.
Proof.
  intros Hw. destruct (sample_range w Hw) as (Hpos & _).
  unfold audioop.minval, audioop.maxval.
  set (h := 2 ^ (8 * Z.of_nat w - 1)) in *. intros Hx Hy.
  pose proof (Z.div_le_lower_bound (x + y) 2 (- h)).
  pose proof (Z.div_le_upper_bound (x + y) 2 (h - 1)).
  lia.
Qed.

Lemma half_range (w : nat) (x : Z) :
  (1 <= w)%nat ->
  audioop.minval w <= x <= audioop.maxval w ->
  audioop.minval w <= x / 2 <= audioop.maxval w.
Proof.
  intros Hw. destruct (sample_range w Hw) as (Hpos & _).
  unfold audioop.minval, audioop.maxval.
  set (h := 2 ^ (8 * Z.of_nat w - 1)) in *. intros Hx.
  pose proof (Z.div_le_lower_bound x 2 (- h)).
  pose proof (Z.div_le_upper_bound x 2 (h - 1)).
  lia.
Qed.

Lemma length_tomono_samples (n w : nat) :
  forall d,
    length (audioop.tomono_samples n w (1 # 2) (1 # 2) d) = (n * w)%nat.
Proof.
  induction n as [|n IH]; intros d; [reflexivity|].
  cbn [audioop.tomono_samples]. rewrite length_app, length_setsample, IH. lia.
Qed.

Lemma length_tostereo_samples (n w : nat) :
  forall d,
    length (audioop.tostereo_samples n w (1 # 2) (1 # 2) d)
    = (2 * (n * w))%nat.
Proof.
  induction n as [|n IH]; intros d; [reflexivity|].
  cbn [audioop.tostereo_samples].
  rewrite !length_app, !length_setsample, IH. lia.
Qed.

(** The samples of a fragment made mono: the mean of each frame, rounded
    down. *)
Lemma samples_tomono_samples (n w : nat) :
  (1 <= w)%nat ->
  forall d,
    audioop.samples n w (audioop.tomono_samples n w (1 # 2) (1 # 2) d) =
    frame_means (audioop.samples (2 * n) w d).
Proof.
  intros Hw. induction n as [|n IH]; intros d; [reflexivity|].
  replace (2 * S n)%nat with (S (S (2 * n))) by lia.
  cbn [audioop.tomono_samples audioop.samples frame_means].
  assert (H1 : audioop.minval w <= audioop.getsample w (take w d)
               <= audioop.maxval w)
    by (apply getsample_range; [exact Hw | rewrite length_take; lia]).
  assert (H2 : audioop.minval w <= audioop.getsample w (take w (drop w d))
               <= audioop.maxval w)
    by (apply getsample_range; [exact Hw | rewrite length_take; lia]).
  rewrite fbound_half_sum by assumption.
  rewrite take_app_length' by (now rewrite length_setsample).
  rewrite drop_app_length' by (now rewrite length_setsample).
  rewrite getsample_setsample
    by (first [exact Hw | now apply mean_range]).
  rewrite drop_drop. replace (w + w)%nat with (2 * w)%nat by lia.
  now rewrite IH.
Qed.

(** The samples of a fragment made stereo: half of each sample, rounded
    down, in both channels. *)
Lemma samples_tostereo_samples (n w : nat) :
  (1 <= w)%nat ->
  forall d,
    audioop.samples (2 * n) w
      (audioop.tostereo_samples n w (1 # 2) (1 # 2) d) =
    flat_map (fun v => [v / 2; v / 2]) (audioop.samples n w d).
Proof.
  intros Hw. induction n as [|n IH]; intros d; [reflexivity|].
  replace (2 * S n)%nat with (S (S (2 * n))) by lia.
  cbn [audioop.tostereo_samples audioop.samples flat_map app].
  assert (H1 : audioop.minval w <= audioop.getsample w (take w d)
               <= audioop.maxval w)
    by (apply getsample_range; [exact Hw | rewrite length_take; lia]).
  rewrite fbound_half by assumption.
  assert (Hh : audioop.minval w <= audioop.getsample w (take w d) / 2
               <= audioop.maxval w) by (now apply half_range).
  rewrite take_app_length' by (now rewrite length_setsample).
  rewrite drop_app_length' by (now rewrite length_setsample).
  rewrite take_app_length' by (now rewrite length_setsample).
  rewrite drop_app_length' by (now rewrite length_setsample).
  rewrite !getsample_setsample by assumption.
  now rewrite IH.
Qed.

Lemma tostereo_Ok (d : list byte) (width : Z) :
  1 <= width <= 4 -> (width | Z.of_nat (length d)) ->
  audioop.tostereo d width (1 # 2) (1 # 2) =
  Ok (audioop.tostereo_samples (length d / Z.to_nat width) (Z.to_nat width)
        (1 # 2) (1 # 2) d).
Proof.
  intros Hw Hd. unfold audioop.tostereo.
  destruct (Z.ltb_spec width (- 2 ^ 31)); [lia|].
  destruct (Z.leb_spec (2 ^ 31) width); [lia|].
  destruct (Z.ltb_spec width 1); [lia|].
  destruct (Z.ltb_spec 4 width); [lia|]. cbn [orb].
  apply Z.mod_divide in Hd; [|lia]. rewrite Hd. reflexivity.
Qed.

Lemma tomono_Ok (d : list byte) (width : Z) :
  1 <= width <= 4 -> (2 * width | Z.of_nat (length d)) ->
  audioop.tomono d width (1 # 2) (1 # 2) =
  Ok (audioop.tomono_samples (length d / (2 * Z.to_nat width))
        (Z.to_nat width) (1 # 2) (1 # 2) d).
Proof.
  intros Hw (k & Hk). unfold audioop.tomono.
  destruct (Z.ltb_spec width (- 2 ^ 31)); [lia|].
  destruct (Z.leb_spec (2 ^ 31) width); [lia|].
  destruct (Z.ltb_spec width 1); [lia|].
  destruct (Z.ltb_spec 4 width); [lia|]. cbn [orb].
  rewrite Hk.
  replace (k * (2 * width)) with (2 * k * width) by ring.
  rewrite Z.mod_mul, Z.div_mul by lia. cbn [Z.eqb negb].
  rewrite Z.odd_mul. reflexivity.
Qed.

(** Whole samples: the number of bytes, from the number of samples. *)
Lemma whole_samples (L : nat) (width : Z) :
  1 <= width -> (width | Z.of_nat L) ->
  L = (L / Z.to_nat width * Z.to_nat width)%nat.
Proof.
  intros Hw (k & Hk).
  assert (HL : L = (Z.to_nat k * Z.to_nat width)%nat) by nia.
  rewrite HL at 2. rewrite Nat.div_mul by lia. exact HL.
Qed.

Lemma len_frames (a : Audio) (n : nat) :
  0 < AudioM.framewidth a ->
  Z.of_nat (length (data a)) = Z.of_nat n * AudioM.framewidth a ->
  AudioM.len a = Ok (Z.of_nat n).
Proof.
  intros Hfw Hlen. unfold AudioM.len, AudioM.__len__, py_floordiv.
  destruct (Z.eqb_spec (AudioM.framewidth a) 0); [lia|].
  rewrite Hlen, Z.div_mul by lia. cbn [mbind result_bind rbind].
  destruct (Z.ltb_spec (Z.of_nat n) 0); [lia | reflexivity].
Qed.

(** X23: [to_stereo] halves the volume.  A mono buffer of whole samples,
    1 to 4 bytes wide, becomes a stereo buffer of the same width and
    rate, with as many frames and twice the bytes, in which both channels
    of a frame hold half the sample, rounded down. *)
Theorem to_stereo_halves (a : Audio) :
  channels a = 1 -> 1 <= width a <= 4 ->
  (width a | Z.of_nat (length (data a))) ->
  let w := Z.to_nat (width a) in
  let n := (length (data a) / w)%nat in
  exists s,
    AudioM.to_stereo a = Ok s /\
    channels s = 2 /\ width s = width a /\ rate s = rate a /\
    length (data s) = (2 * length (data a))%nat /\
    AudioM.len a = Ok (Z.of_nat n) /\ AudioM.len s = Ok (Z.of_nat n) /\
    audioop.samples (2 * n) w (data s) =
      flat_map (fun v => [v / 2; v / 2]) (audioop.samples n w (data a)).
Proof.
  intros Hc Hw Hd w n. unfold AudioM.to_stereo. rewrite Hc.
  cbn [Z.eqb Pos.eqb]. rewrite (tostereo_Ok _ _ Hw Hd).
  cbn [mbind result_bind rbind]. fold w n.
  pose proof (whole_samples (length (data a)) (width a) (proj1 Hw) Hd)
    as HL.
  fold w n in HL.
  eexists. split; [reflexivity|]. cbn [channels width rate data].
  split; [reflexivity|]. split; [reflexivity|]. split; [reflexivity|].
  rewrite length_tostereo_samples. split; [lia|].
  split; [|split].
  - apply len_frames; unfold AudioM.framewidth; rewrite Hc; [lia|].
    rewrite HL at 1. unfold w. lia.
  - apply len_frames; unfold AudioM.framewidth; cbn [channels width data];
      [lia|]. rewrite length_tostereo_samples. unfold w. lia.
  - apply samples_tostereo_samples. unfold w. lia.
Qed.

Lemma to_stereo_halves_witness :
  exists s,
    AudioM.to_stereo mono_3 = Ok s /\
    audioop.samples 4 1 (data s) = [1; 1; -2; -2].
Proof.
  destruct (to_stereo_halves mono_3)
    as (s & Hs & _ & _ & _ & _ & _ & _ & Hsamples).
  - reflexivity.
  - cbn [width mono_3]. lia.
  - exists 2. reflexivity.
  - exists s. split; [exact Hs | exact Hsamples].
Defined.

(** X24: [to_mono] takes the mean of the two channels.  A stereo buffer
    of whole frames, with samples of 1 to 4 bytes, becomes a mono buffer
    of the same width and rate, with as many frames and half the bytes,
    whose samples are the means of the two samples of each frame, rounded
    down. *)
Theorem to_mono_means (a : Audio) :
  channels a = 2 -> 1 <= width a <= 4 ->
  (2 * width a | Z.of_nat (length (data a))) ->
  let w := Z.to_nat (width a) in
  let n := (length (data a) / (2 * w))%nat in
  exists m,
    AudioM.to_mono a = Ok m /\
    channels m = 1 /\ width m = width a /\ rate m = rate a /\
    (2 * length (data m))%nat = length (data a) /\
    AudioM.len a = Ok (Z.of_nat n) /\ AudioM.len m = Ok (Z.of_nat n) /\
    audioop.samples n w (data m) =
      frame_means (audioop.samples (2 * n) w (data a)).
Proof.
  intros Hc Hw Hd w n. unfold AudioM.to_mono. rewrite Hc.
  cbn [Z.eqb Pos.eqb]. rewrite (tomono_Ok _ _ Hw Hd).
  cbn [mbind result_bind rbind]. fold w n.
  assert (HL : length (data a) = (n * (2 * w))%nat).
  { assert (H2 : 1 <= 2 * width a) by lia.
    pose proof (whole_samples (length (data a)) (2 * width a) H2 Hd) as H.
    replace (Z.to_nat (2 * width a)) with (2 * w)%nat in H
      by (unfold w; lia).
    exact H. }
  eexists. split; [reflexivity|]. cbn [channels width rate data].
  split; [reflexivity|]. split; [reflexivity|]. split; [reflexivity|].
  rewrite length_tomono_samples. split; [lia|].
  split; [|split].
  - apply len_frames; unfold AudioM.framewidth; rewrite Hc; [lia|].
    rewrite HL. unfold w. lia.
  - apply len_frames; unfold AudioM.framewidth; cbn [channels width data];
      [lia|]. rewrite length_tomono_samples. unfold w. lia.
  - apply samples_tomono_samples. unfold w. lia.
Qed.

Lemma to_mono_means_witness :
  exists m,
    AudioM.to_mono (mkAudio 2 1 8000 [x03; x04; xfd; x00]) = Ok m /\
    audioop.samples 2 1 (data m) = [3; -2].
Proof.
  destruct (to_mono_means (mkAudio 2 1 8000 [x03; x04; xfd; x00]))
    as (m & Hm & _ & _ & _ & _ & _ & _ & Hsamples).
  - reflexivity.
  - cbn [width]. lia.
  - exists 2. reflexivity.
  - exists m. split; [exact Hm | exact Hsamples].
Defined.

Lemma frame_means_twice (l : list Z) :
  frame_means (flat_map (fun v => [v / 2; v / 2]) l) =
  map (fun v => v / 2) l.
Proof.
  induction l as [|v l IH]; [reflexivity|].
  cbn [flat_map app frame_means map]. rewrite IH. f_equal.
  replace (v / 2 + v / 2) with (v / 2 * 2) by ring.
  now rewrite Z.div_mul.
Qed.

(** X25: mono to stereo and back does not give the buffer back.  For a
    mono buffer of whole samples, 1 to 4 bytes wide, [to_stereo] followed
    by [to_mono] gives a buffer of the same format and length in which
    every sample is half the original one, rounded down. *)
Theorem mono_stereo_mono (a : Audio) :
  channels a = 1 -> 1 <= width a <= 4 ->
  (width a | Z.of_nat (length (data a))) ->
  let w := Z.to_nat (width a) in
  let n := (length (data a) / w)%nat in
  exists m,
    (s ← AudioM.to_stereo a; AudioM.to_mono s) = Ok m /\
    same_format m a /\
    length (data m) = length (data a) /\
    audioop.samples n w (data m) =
      map (fun v => v / 2) (audioop.samples n w (data a)).
Proof.
  intros Hc Hw Hd w n. unfold AudioM.to_stereo. rewrite Hc.
  cbn [Z.eqb Pos.eqb]. rewrite (tostereo_Ok _ _ Hw Hd).
  cbn [mbind result_bind rbind]. fold w n.
  pose proof (whole_samples (length (data a)) (width a) (proj1 Hw) Hd)
    as HL.
  fold w n in HL.
  unfold AudioM.to_mono. cbn [channels width rate data Z.eqb Pos.eqb].
  set (d := audioop.tostereo_samples n w (1 # 2) (1 # 2) (data a)).
  assert (Hlen : length d = (2 * (n * w))%nat)
    by apply length_tostereo_samples.
  assert (Hd2 : (2 * width a | Z.of_nat (length d))).
  { exists (Z.of_nat n). rewrite Hlen. unfold w. lia. }
  rewrite (tomono_Ok _ _ Hw Hd2). cbn [mbind result_bind rbind]. fold w.
  assert (Hn : (length d / (2 * w))%nat = n).
  { rewrite Hlen. replace (2 * (n * w))%nat with (n * (2 * w))%nat by lia.
    apply Nat.div_mul. unfold w. lia. }
  rewrite Hn. eexists. split; [reflexivity|].
  cbn [channels width rate data]. split; [repeat split; now rewrite ?Hc|].
  rewrite length_tomono_samples. split; [lia|].
  rewrite samples_tomono_samples by (unfold w; lia). unfold d.
  rewrite samples_tostereo_samples by (unfold w; lia).
  apply frame_means_twice.
Qed.

Lemma mono_stereo_mono_witness :
  exists m,
    (s ← AudioM.to_stereo mono_3; AudioM.to_mono s) = Ok m /\
    audioop.samples 2 1 (data m) = [1; -2] /\
    audioop.samples 2 1 (data mono_3) = [3; -3].
Proof.
  destruct (mono_stereo_mono mono_3) as (m & Hm & _ & _ & Hsamples).
  - reflexivity.
  - cbn [width mono_3]. lia.
  - exists 2. reflexivity.
  - exists m. split; [exact Hm|]. split; [exact Hsamples | reflexivity].
Defined.

(** ** Chunking twice *)

(** A buffer is known by its format and its data. *)
Lemma same_format_data_eq (fmt a b : Audio) :
  same_format a fmt -> same_format b fmt -> data a = data b -> a = b.
Proof.
  destruct a, b. unfold same_format. cbn [channels width rate data].
  intros (-> & -> & ->) (-> & -> & ->) ->. reflexivity.
Qed.

(** The run of [size_limit] over a stream of buffers of one format. *)
Lemma size_limit_stream_run (fmt : Audio) (size : Z) (fuel : nat)
    (ps : list Audio) :
  0 < size -> 0 < AudioM.framewidth fmt ->
  Forall (stream_buffer fmt) ps ->
  (length (all_data ps) < fuel)%nat ->
  exists cs tail,
    size_limit fuel ps size = Some (cs ++ tail, Ok tt) /\
    Forall (exact_chunk fmt size) cs /\
    short_tail fmt size tail /\
    all_data (cs ++ tail) = all_data ps.
Proof.
  intros Hsize Hfw Hps Hfuel.
  destruct (size_limit_for_spec fmt size Hsize Hfw ps fuel None I Hps)
    as (cs & buf' & Hrun & Hdata & Hcs & Hrem); [simpl; lia|].
  cbn [pending_data app] in Hdata.
  unfold size_limit. rewrite Hrun.
  destruct buf' as [b'|]; cbn [truthy pending_data] in *.
  - destruct (remainder_truthy fmt size Hfw b' Hrem) as (Ht & Hnil).
    rewrite Ht.
    destruct (Z.ltb_spec 0 (Z.of_nat (length (data b'))
                            / AudioM.framewidth fmt)) as [Hpos|Hzero].
    + exists cs, [b']. split; [reflexivity|]. split; [exact Hcs|]. split.
      * right. exists b'. split; [reflexivity|]. split; [exact Hrem|].
        intros Hd. rewrite Hd in Hpos. cbn in Hpos.
        rewrite Z.div_0_l in Hpos by lia. lia.
      * unfold all_data in *. rewrite map_app, concat_app. cbn.
        now rewrite app_nil_r.
    + exists cs, []. rewrite app_nil_r. split; [reflexivity|].
      split; [exact Hcs|]. split; [now left|].
      rewrite <- Hdata, (Hnil Hzero), app_nil_r. reflexivity.
  - exists cs, []. rewrite app_nil_r in *. split; [reflexivity|].
    split; [exact Hcs|]. split; [now left | exact Hdata].
Qed.

(** Chunks and tail are determined by the bytes they hold. *)
Lemma chunks_unique (fmt : Audio) (size : Z) (cs1 : list Audio) :
  0 < size * AudioM.framewidth fmt ->
  forall cs2 tail1 tail2,
    Forall (exact_chunk fmt size) cs1 -> Forall (exact_chunk fmt size) cs2 ->
    short_tail fmt size tail1 -> short_tail fmt size tail2 ->
    all_data (cs1 ++ tail1) = all_data (cs2 ++ tail2) ->
    cs1 ++ tail1 = cs2 ++ tail2.
Proof.
  intros Hpos.
  assert (Htail : forall tail, short_tail fmt size tail ->
            Z.of_nat (length (all_data tail))
            < size * AudioM.framewidth fmt).
  { intros tail [->|(t & -> & (_ & Hlt) & _)]; [exact Hpos|].
    unfold all_data. cbn. now rewrite app_nil_r. }
  assert (Hshort : forall tail c cs,
            short_tail fmt size tail -> exact_chunk fmt size c ->
            all_data tail <> all_data ((c :: cs) ++ tail)).
  { intros tail c cs Ht (_ & Hc) Heq. apply Htail in Ht.
    apply (f_equal length) in Heq.
    unfold all_data in Heq. cbn in Heq. rewrite length_app in Heq.
    unfold all_data in Ht. lia. }
  assert (Hshort' : forall tail tail' c cs,
            short_tail fmt size tail -> exact_chunk fmt size c ->
            all_data tail <> all_data ((c :: cs) ++ tail')).
  { intros tail tail' c cs Ht (_ & Hc) Heq. apply Htail in Ht.
    apply (f_equal length) in Heq.
    unfold all_data in Heq. cbn in Heq. rewrite length_app in Heq.
    unfold all_data in Ht. lia. }
  clear Hshort.
  induction cs1 as [|c1 cs1 IH]; intros cs2 tail1 tail2 H1 H2 Ht1 Ht2 Heq.
  - destruct cs2 as [|c2 cs2].
    + cbn [app] in *.
      destruct Ht1 as [->|(t1 & -> & ((Hs1 & _) & _) & Hn1)],
               Ht2 as [->|(t2 & -> & ((Hs2 & _) & _) & Hn2)];
        unfold all_data in Heq; cbn in Heq; rewrite ?app_nil_r in Heq.
      * reflexivity.
      * now destruct Hn2.
      * now destruct Hn1.
      * f_equal. exact (same_format_data_eq fmt t1 t2 Hs1 Hs2 Heq).
    + apply Forall_cons in H2 as (Hc2 & _). cbn [app] in Heq.
      now destruct (Hshort' tail1 tail2 c2 cs2 Ht1 Hc2).
  - apply Forall_cons in H1 as (Hc1 & H1).
    destruct cs2 as [|c2 cs2].
    + cbn [app] in Heq. symmetry in Heq.
      now destruct (Hshort' tail2 tail1 c1 cs1 Ht2 Hc1).
    + apply Forall_cons in H2 as (Hc2 & H2).
      unfold all_data in Heq. cbn in Heq.
      apply app_inj_1 in Heq as (Hd & Heq);
        [|destruct Hc1 as (_ & Hl1), Hc2 as (_ & Hl2); lia].
      cbn [app]. f_equal.
      * exact (same_format_data_eq fmt c1 c2 (proj1 Hc1) (proj1 Hc2) Hd).
      * now apply IH.
Qed.

(** X26: chunking an already chunked stream.  For a stream of buffers of
    one format, made of whole frames, what [size_limit] yields for chunks
    of [n] frames can be chunked again: for any size [m] this gives what
    chunking the stream itself by [m] gives; in particular, chunking by
    [n] once more changes nothing. *)
Theorem size_limit_rechunk (fmt : Audio) (ps : list Audio) (n m : Z)
    (fuel : nat) :
  0 < n -> 0 < m ->
  Forall (stream_buffer fmt) ps ->
  (length (all_data ps) < fuel)%nat ->
  exists cs,
    size_limit fuel ps n = Some (cs, Ok tt) /\
    size_limit fuel cs m = size_limit fuel ps m /\
    size_limit fuel cs n = Some (cs, Ok tt).
Proof.
  intros Hn Hm Hps Hfuel.
  destruct ps as [|p0 ps0].
  { exists []. split_and!; reflexivity. }
  assert (Hfmt : 0 < channels fmt /\ 0 < width fmt).
  { apply Forall_cons in Hps as [((Hc & Hw & _) & (Hc0 & Hw0 & _)) _].
    lia. }
  assert (Hfw : 0 < AudioM.framewidth fmt)
    by (unfold AudioM.framewidth; nia).
  destruct (size_limit_stream_run fmt n fuel _ Hn Hfw Hps Hfuel)
    as (cs & tail & Hrun & Hcs & Htail & Hdata).
  assert (Hstream : Forall (stream_buffer fmt) (cs ++ tail)).
  { apply Forall_app. split.
    - eapply Forall_impl; [exact Hcs|]. intros c ((Hc & Hw & Hr) & Hlen).
      split; [repeat split; assumption|].
      split; [lia|]. split; [lia|]. exists n.
      unfold AudioM.framewidth in *. rewrite Hc, Hw. exact Hlen.
    - destruct Htail as [->|(t & -> & (Hsb & _) & _)];
        [constructor | apply Forall_cons; split; [exact Hsb | constructor]]. }
  assert (Hfuel' : (length (all_data (cs ++ tail)) < fuel)%nat)
    by (now rewrite Hdata).
  assert (Hre : forall k, 0 < k ->
            size_limit fuel (cs ++ tail) k = size_limit fuel (p0 :: ps0) k).
  { intros k Hk.
    destruct (size_limit_stream_run fmt k fuel _ Hk Hfw Hstream Hfuel')
      as (cs2 & tail2 & -> & Hcs2 & Htail2 & Hdata2).
    destruct (size_limit_stream_run fmt k fuel _ Hk Hfw Hps Hfuel)
      as (cs3 & tail3 & -> & Hcs3 & Htail3 & Hdata3).
    do 2 f_equal.
    apply (chunks_unique fmt k); try assumption; [nia | congruence]. }
  exists (cs ++ tail). split; [exact Hrun|]. split; [now apply Hre|].
  rewrite (Hre n Hn). exact Hrun.
Qed.

Lemma size_limit_rechunk_witness :
  exists cs,
    size_limit 11 [pcm3; pcm2] 2 = Some (cs, Ok tt) /\
    size_limit 11 cs 3 = size_limit 11 [pcm3; pcm2] 3 /\
    size_limit 11 cs 2 = Some (cs, Ok tt).
Proof.
  apply (size_limit_rechunk pcm3 [pcm3; pcm2] 2 3 11).
  - lia.
  - lia.
  - repeat constructor; try exact (proj2 (proj2 pcm3_well_framed));
      try (exists 2; reflexivity).
  - simpl. lia.
Defined.

(** X27: the chunks do not depend on the packets.  Two streams of
    buffers of one format, made of whole frames, that hold the same bytes
    in all, cut into packets in whatever way, with or without empty
    packets, are chunked alike by [size_limit]. *)
Theorem size_limit_packets (fmt : Audio) (ps qs : list Audio) (size : Z)
    (fuel : nat) :
  0 < size ->
  Forall (stream_buffer fmt) ps -> Forall (stream_buffer fmt) qs ->
  all_data ps = all_data qs ->
  (length (all_data ps) < fuel)%nat ->
  size_limit fuel ps size = size_limit fuel qs size /\
  exists cs, size_limit fuel ps size = Some (cs, Ok tt) /\
             all_data cs = all_data ps.
Proof.
  intros Hsize Hps Hqs Hdata Hfuel.
  assert (Hempty : size_limit fuel [] size = Some ([], Ok tt))
    by reflexivity.
  assert (Hfw : ps = [] /\ qs = [] \/ 0 < AudioM.framewidth fmt).
  { assert (Hne : forall p l, Forall (stream_buffer fmt) (p :: l) ->
                    0 < AudioM.framewidth fmt).
    { intros p l H. apply Forall_cons in H as [(Hs & Hwf) _].
      rewrite <- (same_format_framewidth _ _ Hs).
      now apply well_framed_pos. }
    destruct ps as [|p ps]; [|right; eapply Hne; exact Hps].
    destruct qs as [|q qs]; [now left | right; eapply Hne; exact Hqs]. }
  destruct Hfw as [(-> & ->)|Hfw]; [split; [reflexivity | eauto]|].
  assert (Hfuel' : (length (all_data qs) < fuel)%nat) by congruence.
  destruct (size_limit_stream_run fmt size fuel ps Hsize Hfw Hps Hfuel)
    as (cs1 & tail1 & Hrun1 & Hcs1 & Htail1 & Hdata1).
  destruct (size_limit_stream_run fmt size fuel qs Hsize Hfw Hqs Hfuel')
    as (cs2 & tail2 & Hrun2 & Hcs2 & Htail2 & Hdata2).
  split; [|eauto].
  rewrite Hrun1, Hrun2. do 2 f_equal.
  apply (chunks_unique fmt size); try assumption; [nia | congruence].
Qed.

Lemma size_limit_packets_witness :
  size_limit 11 [pcm3; pcm2] 2 =
  size_limit 11 [AudioM.clear pcm3; pcm3; AudioM.clear pcm3; pcm2] 2 /\
  exists cs, size_limit 11 [pcm3; pcm2] 2 = Some (cs, Ok tt) /\
             all_data cs = all_data [pcm3; pcm2].
Proof.
  assert (H3 : stream_buffer pcm3 pcm3)
    by (split; [split_and!; reflexivity|]; split_and!;
        [reflexivity | reflexivity | exists 3; reflexivity]).
  assert (H2 : stream_buffer pcm3 pcm2)
    by (split; [split_and!; reflexivity|]; split_and!;
        [reflexivity | reflexivity | exists 2; reflexivity]).
  assert (H0 : stream_buffer pcm3 (AudioM.clear pcm3))
    by (split; [split_and!; reflexivity|]; split_and!;
        [reflexivity | reflexivity | exists 0; reflexivity]).
  apply (size_limit_packets pcm3).
  - lia.
  - repeat (apply Forall_cons; split; [assumption|]). constructor.
  - repeat (apply Forall_cons; split; [assumption|]). constructor.
  - reflexivity.
  - simpl. lia.
Defined.

(** ** Chunking, then pacing *)

Lemma len_pos_data (c : Audio) (n : Z) :
  AudioM.len c = Ok n -> 0 < n -> data c <> [].
Proof.
  intros Hlen Hn Hd.
  unfold AudioM.len, AudioM.__len__, py_floordiv in Hlen.
  rewrite Hd in Hlen. cbn [length] in Hlen.
  change (Z.of_nat 0) with 0 in Hlen.
  destruct (AudioM.framewidth c =? 0); [discriminate|].
  rewrite Zdiv_0_l in Hlen. cbn in Hlen. injection Hlen as <-. lia.
Qed.

(** X28: the usual pipeline, [rate_limit] over [size_limit].  For a
    stream of buffers of one format, made of whole frames, at a rate for
    which chunks have a duration: when the stream holds no data at all,
    [size_limit] yields nothing and [rate_limit] raises
    [UnboundLocalError]; otherwise [rate_limit] ends normally and yields
    every chunk, and the last chunk a second time. *)
Theorem paced_chunks (fmt : Audio) (ps : list Audio) (size : Z)
    (fuel : nat) (clock : nat -> float) :
  0 < size ->
  Forall (stream_buffer fmt) ps ->
  (forall k, 0 <= k <= size -> exists d, py_truediv k (rate fmt) = Ok d) ->
  (length (all_data ps) < fuel)%nat ->
  exists cs,
    size_limit fuel ps size = Some (cs, Ok tt) /\
    match last cs with
    | None =>
        all_data ps = [] /\
        rate_limit clock cs = ([], Raise UnboundLocalError)
    | Some c =>
        all_data ps <> [] /\
        snd (rate_limit clock cs) = Ok tt /\
        yields (fst (rate_limit clock cs)) = cs ++ [c]
    end.
Proof.
  intros Hsize Hps Hrate Hfuel.
  destruct ps as [|p0 ps0].
  { exists []. split; [reflexivity|]. split; reflexivity. }
  assert (Hfw : 0 < AudioM.framewidth fmt).
  { apply Forall_cons in Hps as [(Hs & Hwf) _].
    rewrite <- (same_format_framewidth _ _ Hs). now apply well_framed_pos. }
  destruct (size_limit_stream_run fmt size fuel _ Hsize Hfw Hps Hfuel)
    as (cs & tail & Hrun & Hcs & Htail & Hdata).
  exists (cs ++ tail). split; [exact Hrun|].
  (* every chunk has a positive length and a duration *)
  assert (Hfull : forall c, exact_chunk fmt size c ->
            exists n d, 0 < n /\ AudioM.len c = Ok n /\
                        AudioM.duration c = Ok d).
  { intros c Hc. pose proof (exact_chunk_len fmt c size Hfw ltac:(lia) Hc)
      as Hlen.
    destruct (Hrate size ltac:(lia)) as (d & Hd).
    exists size, d. split; [exact Hsize|]. split; [exact Hlen|].
    unfold AudioM.duration. rewrite Hlen. cbn [mbind result_bind rbind].
    destruct Hc as ((_ & _ & ->) & _). exact Hd. }
  assert (Hshort : forall t, remainder fmt size t -> data t <> [] ->
            exists n d, 0 < n /\ AudioM.len t = Ok n /\
                        AudioM.duration t = Ok d).
  { intros t ((Hs & Hwf) & Hlt) Hne.
    destruct (well_framed_frames t Hwf) as (L & HL0 & Hbytes & HL).
    rewrite (same_format_framewidth _ _ Hs) in Hbytes.
    assert (HLpos : 0 < L).
    { destruct (data t); [congruence|]. cbn [length] in Hbytes. nia. }
    destruct (Hrate L ltac:(nia)) as (d & Hd).
    exists L, d. split; [exact HLpos|]. split; [exact HL|].
    unfold AudioM.duration. rewrite HL. cbn [mbind result_bind rbind].
    destruct Hs as (_ & _ & ->). exact Hd. }
  assert (Hall : Forall (fun c => exists n d, 0 < n /\ AudioM.len c = Ok n /\
                                   AudioM.duration c = Ok d) (cs ++ tail)).
  { apply Forall_app. split.
    - eapply Forall_impl; [exact Hcs | exact Hfull].
    - destruct Htail as [->|(t & -> & Hrem & Hne)]; [constructor|].
      apply Forall_cons. split; [now apply Hshort | constructor]. }
  destruct (last (cs ++ tail)) as [c|] eqn:Hlast.
  - assert (Hc : exists n d, 0 < n /\ AudioM.len c = Ok n /\
                     AudioM.duration c = Ok d).
    { rewrite Forall_forall in Hall. apply Hall.
      apply last_Some in Hlast as (l' & ->).
      apply elem_of_app. right. now apply list_elem_of_singleton. }
    destruct Hc as (n & d & Hn & Hlen & _).
    assert (Hdur : Forall (fun p => exists d, AudioM.duration p = Ok d)
                     (cs ++ tail)).
    { eapply Forall_impl; [exact Hall|].
      intros p (n' & d' & _ & _ & Hd'). eauto. }
    destruct (rate_limit_yields clock (cs ++ tail) c Hdur Hlast)
      as (evs & n' & Hrl & Hlen' & Hy).
    rewrite Hlen in Hlen'. injection Hlen' as <-.
    destruct (Z.ltb_spec 0 n); [|lia].
    rewrite Hrl. cbn [fst snd]. split; [|split; [reflexivity | exact Hy]].
    rewrite <- Hdata. apply last_Some in Hlast as (l' & ->).
    unfold all_data. rewrite map_app, concat_app. cbn [map concat].
    rewrite app_nil_r. intros Hnil.
    apply app_eq_nil in Hnil as (_ & Hnil).
    exact (len_pos_data c n Hlen Hn Hnil).
  - apply last_None in Hlast. rewrite Hlast in *.
    split; [now rewrite <- Hdata | reflexivity].
Qed.

Lemma paced_chunks_witness :
  exists cs,
    size_limit 11 [pcm3; pcm2] 2 = Some (cs, Ok tt) /\
    match last cs with
    | None =>
        all_data [pcm3; pcm2] = [] /\
        rate_limit (fun _ => 0%float) cs = ([], Raise UnboundLocalError)
    | Some c =>
        all_data [pcm3; pcm2] <> [] /\
        snd (rate_limit (fun _ => 0%float) cs) = Ok tt /\
        yields (fst (rate_limit (fun _ => 0%float) cs)) = cs ++ [c]
    end.
Proof.
  apply (paced_chunks pcm3 [pcm3; pcm2] 2 11 (fun _ => 0%float)).
  - lia.
  - exact pcm_stream.
  - intros k Hk.
    assert (Hcases : k = 0 \/ k = 1 \/ k = 2) by lia.
    destruct Hcases as [->|[->| ->]]; eexists; vm_compute; reflexivity.
  - simpl. lia.
Defined.
